(** * A limit-order matching engine: order book, risk gate, engine

    Shallow embedding of the C++ trading engine
    ([order.hpp], [order_book.cpp], [risk_manager.cpp],
    [matching_engine.cpp]) and proofs of the properties stated for it.

    Conventions of the embedding.
    - [Quantity] ([int64_t]) is [Z].  Signed overflow is undefined
      behaviour in C++; the embedding describes the executions without it.
    - [Price] and the notional amounts ([double]) are exact rationals [Q],
      compared with [Qle_bool]; rounding, infinities and NaN are outside
      the model.  Map keys are compared through the comparator only, as
      [std::map] does.
    - [OrderId] ([uint64_t]) is [N]; ids are only compared.
    - The statistics counters ([uint64_t]) wrap modulo 2^64.
    - Readings of [steady_clock] are explicit arguments ([now]).
    - The two [while] loops of [executeFill] run on fuel; the fuel handed
      to them is shown to be always sufficient. *)

From Stdlib Require Import ZArith QArith Qabs Lia Lqa Bool.
From stdpp Require Import gmap strings list fin_maps.

Local Open Scope Z_scope.

Set Warnings "-clear-no-such-hyp".

(** ** types.hpp *)

(** The [using] aliases. *)
Abbreviation OrderId := N (only parsing).
Abbreviation Price := Q (only parsing).
Abbreviation Quantity := Z (only parsing).
Abbreviation Symbol := string (only parsing).
Abbreviation Timestamp := Z (only parsing).

Inductive Side := Buy | Sell.
Inductive OrderType := Limit | Market | IOC | FOK.
Inductive OrderStatus := New | PartiallyFilled | Filled | Cancelled | Rejected.

#[global] Instance Side_eq_dec : EqDecision Side.
Proof. solve_decision. Defined.
#[global] Instance OrderType_eq_dec : EqDecision OrderType.
Proof. solve_decision. Defined.
#[global] Instance OrderStatus_eq_dec : EqDecision OrderStatus.
Proof. solve_decision. Defined.

(** [a < b] on prices, as a boolean. *)
Definition Qltb (a b : Q) : bool := negb (Qle_bool b a).

(** ** order.hpp *)

Record Order := mkOrder {
  id : OrderId;
  symbol : Symbol;
  side : Side;
  type : OrderType;
  price : Price;
  quantity : Quantity;
  filled_qty : Quantity;
  status : OrderStatus;
  timestamp : Timestamp
}.

(** The parameterized constructor [Order(id, symbol, side, type, price,
    quantity)]; [ts] is the clock reading taken by the constructor. *)
Definition new_Order (ts : Timestamp) (i : OrderId) (sym : Symbol) (s : Side)
    (t : OrderType) (p : Price) (q : Quantity) : Order :=
  mkOrder i sym s t p q 0 New ts.

Definition remaining_qty (o : Order) : Quantity := quantity o - filled_qty o.

Definition is_filled (o : Order) : bool := quantity o <=? filled_qty o.

Definition set_status (st : OrderStatus) (o : Order) : Order :=
  mkOrder (id o) (symbol o) (side o) (type o) (price o) (quantity o)
          (filled_qty o) st (timestamp o).

Definition set_quantity (q : Quantity) (o : Order) : Order :=
  mkOrder (id o) (symbol o) (side o) (type o) (price o) q
          (filled_qty o) (status o) (timestamp o).

Definition set_price (p : Price) (o : Order) : Order :=
  mkOrder (id o) (symbol o) (side o) (type o) p (quantity o)
          (filled_qty o) (status o) (timestamp o).

Definition set_timestamp (ts : Timestamp) (o : Order) : Order :=
  mkOrder (id o) (symbol o) (side o) (type o) (price o) (quantity o)
          (filled_qty o) (status o) ts.

Definition apply_fill (fill_qty : Quantity) (o : Order) : Order :=
  let f := filled_qty o + fill_qty in
  mkOrder (id o) (symbol o) (side o) (type o) (price o) (quantity o) f
          (if quantity o <=? f then Filled
           else if 0 <? f then PartiallyFilled
           else status o)
          (timestamp o).

Definition cancel (o : Order) : Order := set_status Cancelled o.
Definition reject (o : Order) : Order := set_status Rejected o.

(** A fill; the execution timestamp the constructor reads from the clock
    is not represented. *)
Record Fill := mkFill {
  fill_order_id : OrderId;
  fill_counter_order_id : OrderId;
  fill_symbol : Symbol;
  fill_side : Side;
  fill_price : Price;
  fill_quantity : Quantity
}.

(** ** std::map with a comparator

    A [std::map<K, V, Compare>] is kept as the list of its nodes in
    iteration order ([begin()] is the head).  Keys are only ever compared
    with [lt]; two keys are the same key when neither is below the other. *)

Section StdMap.
Context {K V : Type}.
Variable lt : K -> K -> bool.

Definition key_equiv (a b : K) : bool := negb (lt a b) && negb (lt b a).

(** [m.find(k)] *)
Fixpoint smap_find (k : K) (m : list (K * V)) : option V :=
  match m with
  | [] => None
  | (k', v) :: m' =>
      if lt k' k then smap_find k m'
      else if lt k k' then None
      else Some v
  end.

(** [auto& v = m[k]; v = f(v);] where [m[k]] value-initialises a missing
    node with [dflt]. *)
Fixpoint smap_subscript (k : K) (dflt : V) (f : V -> V) (m : list (K * V))
    : list (K * V) :=
  match m with
  | [] => [(k, f dflt)]
  | (k', v) :: m' =>
      if lt k' k then (k', v) :: smap_subscript k dflt f m'
      else if lt k k' then (k, f dflt) :: (k', v) :: m'
      else (k', f v) :: m'
  end.

(** [it = m.find(k); if (it != m.end()) { ...; }] where the body turns
    the node's value into [v'] (result [Some v']) or ends with
    [m.erase(it)] (result [None]). *)
Fixpoint smap_visit (k : K) (g : V -> option V) (m : list (K * V))
    : list (K * V) :=
  match m with
  | [] => []
  | (k', v) :: m' =>
      if lt k' k then (k', v) :: smap_visit k g m'
      else if lt k k' then m
      else match g v with
           | Some v' => (k', v') :: m'
           | None => m'
           end
  end.

(** The nodes are in strictly increasing key order. *)
Fixpoint smap_below (k : K) (m : list (K * V)) : Prop :=
  match m with
  | [] => True
  | (k', _) :: m' => lt k k' = true /\ smap_below k m'
  end.

Fixpoint smap_sorted (m : list (K * V)) : Prop :=
  match m with
  | [] => True
  | (k, _) :: m' => smap_below k m' /\ smap_sorted m'
  end.
End StdMap.

(** ** order_book.hpp *)

Record PriceLevel := mkPriceLevel {
  level_price : Price;
  total_quantity : Quantity;
  orders : list Order
}.

(** [PriceLevel(Price p = 0.0)] *)
Definition new_PriceLevel : PriceLevel := mkPriceLevel 0%Q 0 [].

(** An [OrderLocation]; its list iterator designates the node of the
    level's list that holds the order, which is the node carrying the id
    the location is filed under. *)
Record OrderLocation := mkLoc {
  loc_side : Side;
  loc_price : Price
}.

Definition Levels := list (Price * PriceLevel).

Record OrderBook := mkBook {
  symbol_ : Symbol;
  bid_levels_ : Levels;
  ask_levels_ : Levels;
  order_lookup_ : gmap OrderId OrderLocation;
  bid_orders_ : gset OrderId;
  ask_orders_ : gset OrderId
}.

Definition new_OrderBook (sym : Symbol) : OrderBook :=
  mkBook sym [] [] ∅ ∅ ∅.

(** [std::less<Price>] for the asks, [std::greater<Price>] for the bids. *)
Definition ask_lt : Price -> Price -> bool := Qltb.
Definition bid_lt : Price -> Price -> bool := fun a b => Qltb b a.

Definition side_lt (s : Side) : Price -> Price -> bool :=
  match s with Buy => bid_lt | Sell => ask_lt end.

Definition side_levels (s : Side) (b : OrderBook) : Levels :=
  match s with Buy => bid_levels_ b | Sell => ask_levels_ b end.

Definition side_orders (s : Side) (b : OrderBook) : gset OrderId :=
  match s with Buy => bid_orders_ b | Sell => ask_orders_ b end.

Definition set_side (s : Side) (lv : Levels) (ids : gset OrderId)
    (lk : gmap OrderId OrderLocation) (b : OrderBook) : OrderBook :=
  match s with
  | Buy => mkBook (symbol_ b) lv (ask_levels_ b) lk ids (ask_orders_ b)
  | Sell => mkBook (symbol_ b) (bid_levels_ b) lv lk (bid_orders_ b) ids
  end.

(** ** order_book.cpp *)

Definition isValidOrder (order : Order) : bool :=
  (0 <? remaining_qty order) && Qle_bool 0 (price order).

(** The body run on [auto& level = levels[order.price]]. *)
Definition level_push_back (order : Order) (level : PriceLevel) : PriceLevel :=
  mkPriceLevel
    (match orders level with [] => price order | _ => level_price level end)
    (total_quantity level + remaining_qty order)
    (orders level ++ [order]).

Definition addOrder (b : OrderBook) (order : Order) : bool * OrderBook :=
  if negb (isValidOrder order) then (false, b)
  else if decide (is_Some (order_lookup_ b !! id order)) then (false, b)
  else
    let s := side order in
    (true,
     set_side s
       (smap_subscript (side_lt s) (price order) new_PriceLevel
          (level_push_back order) (side_levels s b))
       ({[id order]} ∪ side_orders s b)
       (<[id order := mkLoc s (price order)]> (order_lookup_ b))
       b).

(** The order designated by [loc.iter], searched in the level's list. *)
Definition level_node (oid : OrderId) (level : PriceLevel) : option Order :=
  List.find (fun o => N.eqb (id o) oid) (orders level).

(** [orders.erase(loc.iter)] *)
Fixpoint erase_node (oid : OrderId) (l : list Order) : list Order :=
  match l with
  | [] => []
  | o :: l' => if N.eqb (id o) oid then l' else o :: erase_node oid l'
  end.

(** The body of [cancelOrder] on the level found at [loc.price]:
    [None] when the level is erased.  The node is always there in a
    well-formed book; without it the level is left alone. *)
Definition level_excise (oid : OrderId) (level : PriceLevel)
    : option PriceLevel :=
  match level_node oid level with
  | None => Some level
  | Some o =>
      let orders' := erase_node oid (orders level) in
      match orders' with
      | [] => None
      | _ => Some (mkPriceLevel (level_price level)
                     (total_quantity level - remaining_qty o) orders')
      end
  end.

Definition cancelOrder (b : OrderBook) (order_id : OrderId)
    : bool * OrderBook :=
  match order_lookup_ b !! order_id with
  | None => (false, b)
  | Some loc =>
      let s := loc_side loc in
      (true,
       set_side s
         (smap_visit (side_lt s) (loc_price loc) (level_excise order_id)
            (side_levels s b))
         (side_orders s b ∖ {[order_id]})
         (delete order_id (order_lookup_ b))
         b)
  end.

(** [getOrder]: the order the index entry of [order_id] designates, or
    nothing when the id is not indexed. *)
Definition getOrder (b : OrderBook) (order_id : OrderId) : option Order :=
  match order_lookup_ b !! order_id with
  | None => None
  | Some loc =>
      match smap_find (side_lt (loc_side loc)) (loc_price loc)
              (side_levels (loc_side loc) b) with
      | None => None
      | Some level => level_node order_id level
      end
  end.

(** [loc.iter->quantity = new_quantity] *)
Fixpoint node_set_quantity (oid : OrderId) (q : Quantity) (l : list Order)
    : list Order :=
  match l with
  | [] => []
  | o :: l' =>
      if N.eqb (id o) oid then set_quantity q o :: l'
      else o :: node_set_quantity oid q l'
  end.

(** The order the re-queue path of [modifyOrder] hands to [addOrder]. *)
Definition requeued (now : Timestamp) (old_order : Order) (new_price : Price)
    (new_quantity : Quantity) : Order :=
  let o1 := set_price new_price old_order in
  let o2 := if 0 <? new_quantity then set_quantity new_quantity o1 else o1 in
  set_timestamp now o2.

(** The in-place path of [modifyOrder] on the level of the order. *)
Definition level_requantify (oid : OrderId) (new_quantity diff : Quantity)
    (level : PriceLevel) : PriceLevel :=
  mkPriceLevel (level_price level) (total_quantity level + diff)
    (node_set_quantity oid new_quantity (orders level)).

(** [modifyOrder]; [now] is the clock reading of the re-queue path.
    [old_order] is the copy of [*loc.iter].  The last case is the id that
    is not indexed ([return false]); it also answers for an index entry
    whose node is missing, which no well-formed book has
    (see [wf_lookup_getOrder]). *)
Definition modifyOrder (now : Timestamp) (b : OrderBook) (order_id : OrderId)
    (new_price : Price) (new_quantity : Quantity) : bool * OrderBook :=
  match order_lookup_ b !! order_id, getOrder b order_id with
  | Some loc, Some old_order =>
      if Qltb 0 new_price && negb (Qeq_bool new_price (loc_price loc)) then
        let b1 := snd (cancelOrder b order_id) in
        addOrder b1 (requeued now old_order new_price new_quantity)
      else if (0 <? new_quantity)
              && negb (new_quantity =? quantity old_order) then
        let diff := new_quantity - quantity old_order in
        let s := loc_side loc in
        (true,
         set_side s
           (smap_subscript (side_lt s) (loc_price loc) new_PriceLevel
              (level_requantify order_id new_quantity diff)
              (side_levels s b))
           (side_orders s b) (order_lookup_ b) b)
      else (true, b)
  | _, _ => (false, b)
  end.

Definition getBest (s : Side) (b : OrderBook) : option (Price * Quantity) :=
  match side_levels s b with
  | [] => None
  | (_, best) :: _ => Some (level_price best, total_quantity best)
  end.

Definition getBestBid : OrderBook -> option (Price * Quantity) := getBest Buy.
Definition getBestAsk : OrderBook -> option (Price * Quantity) := getBest Sell.

Definition getSpread (b : OrderBook) : option Price :=
  match getBestBid b, getBestAsk b with
  | Some bid, Some ask => Some (fst ask - fst bid)%Q
  | _, _ => None
  end.

Definition getMidPrice (b : OrderBook) : option Price :=
  match getBestBid b, getBestAsk b with
  | Some bid, Some ask => Some ((fst bid + fst ask) / 2)%Q
  | _, _ => None
  end.

(** What a call can throw. *)
Inductive Exception :=
| length_error
| bad_alloc.

(** [result.reserve(levels)] on the empty vector [result].  It throws
    [std::length_error] when [levels] exceeds the vector's [max_size()],
    a constant of the implementation; it allocates nothing for
    [levels = 0]; otherwise it asks the allocator for the storage, and
    throws [std::bad_alloc] when that is not [granted].  The size of
    this allocation is chosen by the caller; the allocations of single
    nodes and copies made elsewhere are taken to succeed. *)
Definition vector_reserve (max_size : N) (granted : bool) (levels : N)
    : Exception + unit :=
  if (max_size <? levels)%N then inl length_error
  else if (levels =? 0)%N || granted then inr tt
  else inl bad_alloc.

(** The loop of [getBidLevels] and [getAskLevels]: the levels in
    iteration order until [count >= levels]. *)
Definition first_levels (levels : N) (side_map : Levels) : list PriceLevel :=
  take (N.to_nat levels) (snd <$> side_map).

Definition getBidLevels (max_size : N) (granted : bool) (levels : N)
    (b : OrderBook) : Exception + list PriceLevel :=
  match vector_reserve max_size granted levels with
  | inl ex => inl ex
  | inr _ => inr (first_levels levels (bid_levels_ b))
  end.
Definition getAskLevels (max_size : N) (granted : bool) (levels : N)
    (b : OrderBook) : Exception + list PriceLevel :=
  match vector_reserve max_size granted levels with
  | inl ex => inl ex
  | inr _ => inr (first_levels levels (ask_levels_ b))
  end.

Definition bidOrderCount (b : OrderBook) : nat := size (bid_orders_ b).
Definition askOrderCount (b : OrderBook) : nat := size (ask_orders_ b).
Definition totalOrderCount (b : OrderBook) : nat := size (order_lookup_ b).

(** *** executeFill *)

Definition opposite (s : Side) : Side :=
  match s with Buy => Sell | Sell => Buy end.

(** What the loops of [executeFill] carry besides the level at hand: the
    [fills] vector, [remaining], the id index and the per-side id table of
    the passive side. *)
Record MatchState := mkMatch {
  m_fills : list Fill;
  m_remaining : Quantity;
  m_lookup : gmap OrderId OrderLocation;
  m_ids : gset OrderId
}.

(** [while (remaining > 0 && !level.orders.empty()) { ... }] *)
Fixpoint match_level (fuel : nat) (sym : Symbol) (aggressor_side : Side)
    (aggressor_id : OrderId) (level : PriceLevel) (st : MatchState)
    : option (PriceLevel * MatchState) :=
  if negb (0 <? m_remaining st) then Some (level, st)
  else
    match orders level with
    | [] => Some (level, st)
    | passive_order :: rest =>
        match fuel with
        | O => None
        | S fuel' =>
            let fill_qty :=
              Z.min (m_remaining st) (remaining_qty passive_order) in
            let fill :=
              mkFill aggressor_id (id passive_order) sym aggressor_side
                     (level_price level) fill_qty in
            let passive' := apply_fill fill_qty passive_order in
            let total' := total_quantity level - fill_qty in
            let remaining' := m_remaining st - fill_qty in
            if is_filled passive' then
              match_level fuel' sym aggressor_side aggressor_id
                (mkPriceLevel (level_price level) total' rest)
                (mkMatch (m_fills st ++ [fill]) remaining'
                   (delete (id passive') (m_lookup st))
                   (m_ids st ∖ {[id passive']}))
            else
              match_level fuel' sym aggressor_side aggressor_id
                (mkPriceLevel (level_price level) total' (passive' :: rest))
                (mkMatch (m_fills st ++ [fill]) remaining'
                   (m_lookup st) (m_ids st))
        end
    end.

(** The [break] test: [limit_price > 0 && level.price > limit_price] for a
    buying aggressor, [... && level.price < limit_price] for a seller. *)
Definition price_gate (aggressor_side : Side) (limit_price : Price)
    (level : PriceLevel) : bool :=
  Qltb 0 limit_price
  && match aggressor_side with
     | Buy => Qltb limit_price (level_price level)
     | Sell => Qltb (level_price level) limit_price
     end.

(** [while (remaining > 0 && !levels.empty()) { ... }] on the passive
    side's map. *)
Fixpoint match_levels (fuel : nat) (sym : Symbol) (aggressor_side : Side)
    (aggressor_id : OrderId) (limit_price : Price) (levels : Levels)
    (st : MatchState) : option (Levels * MatchState) :=
  if negb (0 <? m_remaining st) then Some (levels, st)
  else
    match levels with
    | [] => Some (levels, st)
    | (k, level) :: rest =>
        if price_gate aggressor_side limit_price level then Some (levels, st)
        else
          match fuel with
          | O => None
          | S fuel' =>
              match match_level (length (orders level)) sym aggressor_side
                      aggressor_id level st with
              | None => None
              | Some (level', st') =>
                  match orders level' with
                  | [] =>
                      match_levels fuel' sym aggressor_side aggressor_id
                        limit_price rest st'
                  | _ :: _ =>
                      match_levels fuel' sym aggressor_side aggressor_id
                        limit_price ((k, level') :: rest) st'
                  end
              end
          end
    end.

(** [executeFill].  The two branches of the source, for a buying and for
    a selling aggressor, differ only in the map they walk, the id table
    they erase from and the direction of the gate test; they are one
    function of [aggressor_side] here.  The result is [None] only if a loop
    ran out of fuel (it never does, see [executeFill_total]). *)
Definition executeFill (b : OrderBook) (aggressor_side : Side)
    (quantity : Quantity) (limit_price : Price) (aggressor_id : OrderId)
    : option (list Fill * OrderBook) :=
  let s := opposite aggressor_side in
  match match_levels (length (side_levels s b)) (symbol_ b) aggressor_side
          aggressor_id limit_price (side_levels s b)
          (mkMatch [] quantity (order_lookup_ b) (side_orders s b)) with
  | None => None
  | Some (levels', st) =>
      Some (m_fills st, set_side s levels' (m_ids st) (m_lookup st) b)
  end.

(** ** risk_manager.hpp, risk_manager.cpp *)

(** The [reason] text of a result, kept as the message's kind and the
    numbers printed into it. *)
Inductive RiskReason :=
| NoReason
| OrderRateExceeded
| OrderSizeExceeded (q limit : Quantity)
| PositionExceeded (new_pos limit : Quantity)
| GlobalPositionExceeded
| NotionalExceeded (new_exposure limit : Q)
| GlobalNotionalExceeded.

Record RiskCheckResult := mkResult {
  passed : bool;
  reason : RiskReason
}.

Definition risk_pass : RiskCheckResult := mkResult true NoReason.
Definition risk_fail (r : RiskReason) : RiskCheckResult := mkResult false r.

Record RiskManager := mkRisk {
  position_limits_ : gmap Symbol Quantity;
  order_size_limits_ : gmap Symbol Quantity;
  notional_limits_ : gmap Symbol Q;
  positions_ : gmap Symbol Quantity;
  average_prices_ : gmap Symbol Q;
  notional_exposures_ : gmap Symbol Q;
  global_position_limit_ : Quantity;
  global_notional_limit_ : Q;
  order_rate_limit_ : N;
  orders_this_second_ : N;
  rate_window_start_ : Timestamp
}.

Definition DEFAULT_POSITION_LIMIT : Quantity := 100000.
Definition DEFAULT_ORDER_SIZE_LIMIT : Quantity := 10000.
Definition DEFAULT_NOTIONAL_LIMIT : Q := 10000000.

(** [RiskManager()]; [now] is the clock reading of the constructor. *)
Definition new_RiskManager (now : Timestamp) : RiskManager :=
  mkRisk ∅ ∅ ∅ ∅ ∅ ∅ 0 0 0 0 now.

Definition getPositionLimit (rm : RiskManager) (sym : Symbol) : Quantity :=
  default DEFAULT_POSITION_LIMIT (position_limits_ rm !! sym).
Definition getOrderSizeLimit (rm : RiskManager) (sym : Symbol) : Quantity :=
  default DEFAULT_ORDER_SIZE_LIMIT (order_size_limits_ rm !! sym).
Definition getNotionalLimit (rm : RiskManager) (sym : Symbol) : Q :=
  default DEFAULT_NOTIONAL_LIMIT (notional_limits_ rm !! sym).
Definition getPosition (rm : RiskManager) (sym : Symbol) : Quantity :=
  default 0 (positions_ rm !! sym).
Definition getNotionalExposure (rm : RiskManager) (sym : Symbol) : Q :=
  default 0%Q (notional_exposures_ rm !! sym).

Definition getTotalNotionalExposure (rm : RiskManager) : Q :=
  map_fold (fun (_ : Symbol) exposure total => (total + Qabs exposure)%Q)
           0%Q (notional_exposures_ rm).

Definition set_positions (p : gmap Symbol Quantity) (n : gmap Symbol Q)
    (rm : RiskManager) : RiskManager :=
  mkRisk (position_limits_ rm) (order_size_limits_ rm) (notional_limits_ rm)
         p (average_prices_ rm) n
         (global_position_limit_ rm) (global_notional_limit_ rm)
         (order_rate_limit_ rm) (orders_this_second_ rm)
         (rate_window_start_ rm).

Definition set_rate_window (count : N) (start : Timestamp)
    (rm : RiskManager) : RiskManager :=
  mkRisk (position_limits_ rm) (order_size_limits_ rm) (notional_limits_ rm)
         (positions_ rm) (average_prices_ rm) (notional_exposures_ rm)
         (global_position_limit_ rm) (global_notional_limit_ rm)
         (order_rate_limit_ rm) count start.

Definition setOrderSizeLimit (sym : Symbol) (limit : Quantity)
    (rm : RiskManager) : RiskManager :=
  mkRisk (position_limits_ rm) (<[sym := limit]> (order_size_limits_ rm))
         (notional_limits_ rm)
         (positions_ rm) (average_prices_ rm) (notional_exposures_ rm)
         (global_position_limit_ rm) (global_notional_limit_ rm)
         (order_rate_limit_ rm) (orders_this_second_ rm)
         (rate_window_start_ rm).

Definition setGlobalPositionLimit (limit : Quantity) (rm : RiskManager)
    : RiskManager :=
  mkRisk (position_limits_ rm) (order_size_limits_ rm) (notional_limits_ rm)
         (positions_ rm) (average_prices_ rm) (notional_exposures_ rm)
         limit (global_notional_limit_ rm)
         (order_rate_limit_ rm) (orders_this_second_ rm)
         (rate_window_start_ rm).

Definition direction (s : Side) : Quantity :=
  match s with Buy => 1 | Sell => -1 end.

(** [positions_[symbol] += ...]: the subscript creates a zero entry. *)
Definition updatePosition (rm : RiskManager) (sym : Symbol) (s : Side)
    (qty : Quantity) (p : Price) : RiskManager :=
  let position_change := direction s * qty in
  let notional := (p * inject_Z qty)%Q in
  set_positions
    (<[sym := default 0 (positions_ rm !! sym) + position_change]>
       (positions_ rm))
    (<[sym := if 0 <? direction s
              then (default 0 (notional_exposures_ rm !! sym) + notional)%Q
              else (default 0 (notional_exposures_ rm !! sym) - notional)%Q]>
       (notional_exposures_ rm))
    rm.

(** The loop of the global position check:
    [for (sym, pos) in positions_] adding [|new_pos|] at the order's
    symbol and [|pos|] elsewhere. *)
Definition global_total_pos (positions : gmap Symbol Quantity)
    (order_symbol : Symbol) (new_pos : Quantity) : Quantity :=
  map_fold (fun sym pos total_pos =>
              if decide (sym = order_symbol)
              then total_pos + Z.abs new_pos
              else total_pos + Z.abs pos)
           0 positions.

Definition checkPositionLimit (rm : RiskManager) (order : Order)
    : RiskCheckResult :=
  let current_pos := getPosition rm (symbol order) in
  let limit := getPositionLimit rm (symbol order) in
  let new_pos := current_pos + direction (side order) * quantity order in
  if limit <? Z.abs new_pos then risk_fail (PositionExceeded new_pos limit)
  else if (0 <? global_position_limit_ rm)
          && (global_position_limit_ rm
              <? global_total_pos (positions_ rm) (symbol order) new_pos)
  then risk_fail GlobalPositionExceeded
  else risk_pass.

Definition checkOrderSizeLimit (rm : RiskManager) (order : Order)
    : RiskCheckResult :=
  let limit := getOrderSizeLimit rm (symbol order) in
  if limit <? quantity order
  then risk_fail (OrderSizeExceeded (quantity order) limit)
  else risk_pass.

(** The loop of the global notional check. *)
Definition global_total_exposure (exposures : gmap Symbol Q)
    (order_symbol : Symbol) (new_exposure : Q) : Q :=
  map_fold (fun sym exp total_exposure =>
              if decide (sym = order_symbol)
              then (total_exposure + Qabs new_exposure)%Q
              else (total_exposure + Qabs exp)%Q)
           0%Q exposures.

Definition checkNotionalLimit (rm : RiskManager) (order : Order)
    : RiskCheckResult :=
  let limit := getNotionalLimit rm (symbol order) in
  let current := getNotionalExposure rm (symbol order) in
  let order_notional := (price order * inject_Z (quantity order))%Q in
  let new_exposure :=
    (current + inject_Z (direction (side order)) * order_notional)%Q in
  if Qltb limit (Qabs new_exposure)
  then risk_fail (NotionalExceeded new_exposure limit)
  else if Qltb 0 (global_notional_limit_ rm)
          && Qltb (global_notional_limit_ rm)
               (global_total_exposure (notional_exposures_ rm)
                  (symbol order) new_exposure)
  then risk_fail GlobalNotionalExceeded
  else risk_pass.

(** Ticks of [steady_clock] per second. *)
Definition ticks_per_second : Z := 1000000000.

(** [checkOrderRate]; the counter is below the limit when it is
    incremented, so the increment does not wrap. *)
Definition checkOrderRate (now : Timestamp) (rm : RiskManager)
    : RiskCheckResult * RiskManager :=
  if (order_rate_limit_ rm =? 0)%N then (risk_pass, rm)
  else
    let elapsed := Z.quot (now - rate_window_start_ rm) ticks_per_second in
    let rm1 := if 1 <=? elapsed then set_rate_window 0 now rm else rm in
    if (order_rate_limit_ rm1 <=? orders_this_second_ rm1)%N
    then (risk_fail OrderRateExceeded, rm1)
    else (risk_pass,
          set_rate_window (N.succ (orders_this_second_ rm1))
                          (rate_window_start_ rm1) rm1).

Definition checkOrder (now : Timestamp) (rm : RiskManager) (order : Order)
    : RiskCheckResult * RiskManager :=
  let (rate_check, rm1) := checkOrderRate now rm in
  if negb (passed rate_check) then (rate_check, rm1)
  else
    let size_check := checkOrderSizeLimit rm1 order in
    if negb (passed size_check) then (size_check, rm1)
    else
      let pos_check := checkPositionLimit rm1 order in
      if negb (passed pos_check) then (pos_check, rm1)
      else
        let notional_check := checkNotionalLimit rm1 order in
        if negb (passed notional_check) then (notional_check, rm1)
        else (risk_pass, rm1).

(** ** matching_engine.hpp, matching_engine.cpp *)

(** What the engine hands to the installed callbacks, in call order. *)
Inductive Event :=
| FillEvent (f : Fill)
| OrderEvent (o : Order).

(** The callbacks are represented by whether one is installed; what they
    receive is returned as a list of events. *)
Record MatchingEngine := mkEngine {
  order_books_ : gmap Symbol OrderBook;
  risk_manager_ : option RiskManager;
  fill_callback_ : bool;
  order_callback_ : bool;
  total_orders_ : N;
  total_fills_ : N
}.

Definition new_MatchingEngine : MatchingEngine :=
  mkEngine ∅ None false false 0 0.

Definition incr64 (n : N) : N := ((n + 1) mod 2 ^ 64)%N.

Definition notifyFill (e_fill_callback : bool) (f : Fill) : list Event :=
  if e_fill_callback then [FillEvent f] else [].

Definition notifyOrder (e_order_callback : bool) (o : Order) : list Event :=
  if e_order_callback then [OrderEvent o] else [].

Definition setRiskManager (rm : RiskManager) (e : MatchingEngine)
    : MatchingEngine :=
  mkEngine (order_books_ e) (Some rm) (fill_callback_ e) (order_callback_ e)
           (total_orders_ e) (total_fills_ e).

Definition setCallbacks (fill_cb order_cb : bool) (e : MatchingEngine)
    : MatchingEngine :=
  mkEngine (order_books_ e) (risk_manager_ e) fill_cb order_cb
           (total_orders_ e) (total_fills_ e).

Definition getOrderBook (e : MatchingEngine) (sym : Symbol)
    : option OrderBook := order_books_ e !! sym.

Definition getOrCreateOrderBook (books : gmap Symbol OrderBook)
    (sym : Symbol) : OrderBook * gmap Symbol OrderBook :=
  match books !! sym with
  | Some book => (book, books)
  | None => (new_OrderBook sym, <[sym := new_OrderBook sym]> books)
  end.

(** The limit handed to [executeFill]. *)
Definition effective_limit (order : Order) : Price :=
  match type order with
  | Market => match side order with Buy => 1e12%Q | Sell => 0%Q end
  | _ => price order
  end.

(** The result of [matchOrder]: the fills, and the book, the order, the
    fill counter and the events as the call leaves them. *)
Record MatchResult := mkMatchResult {
  r_fills : list Fill;
  r_book : OrderBook;
  r_order : Order;
  r_total_fills : N;
  r_events : list Event
}.

Definition matchOrder (fill_cb : bool) (total_fills : N) (book : OrderBook)
    (order : Order) : option MatchResult :=
  let limit_price := effective_limit order in
  matched ←
    (if 0 <? remaining_qty order then
       '(fills, book1) ← executeFill book (side order) (remaining_qty order)
                           limit_price (id order);
       Some (mkMatchResult fills book1
               (foldl (fun o f => apply_fill (fill_quantity f) o) order fills)
               (foldl (fun n _ => incr64 n) total_fills fills)
               (fills ≫= notifyFill fill_cb))
     else Some (mkMatchResult [] book order total_fills []));
  let order1 := r_order matched in
  if 0 <? remaining_qty order1 then
    match type order1 with
    | Limit =>
        Some (mkMatchResult (r_fills matched)
                (snd (addOrder (r_book matched) order1)) order1
                (r_total_fills matched) (r_events matched))
    | Market | IOC | FOK =>
        Some (mkMatchResult (r_fills matched) (r_book matched)
                (cancel order1) (r_total_fills matched) (r_events matched))
    end
  else Some matched.

(** [submitOrder]: the returned fills, the events delivered to the
    callbacks, and the engine afterwards. *)
Definition submitOrder (now : Timestamp) (e : MatchingEngine) (order : Order)
    : option (list Fill * list Event * MatchingEngine) :=
  let total_orders' := incr64 (total_orders_ e) in
  let checked :=
    match risk_manager_ e with
    | Some rm => let (result, rm') := checkOrder now rm order in
                 (passed result, Some rm')
    | None => (true, None)
    end in
  if negb (fst checked) then
    Some ([], notifyOrder (order_callback_ e) (reject order),
          mkEngine (order_books_ e) (snd checked) (fill_callback_ e)
                   (order_callback_ e) total_orders' (total_fills_ e))
  else
    let (book, books) := getOrCreateOrderBook (order_books_ e) (symbol order) in
    r ← matchOrder (fill_callback_ e) (total_fills_ e) book order;
    let risk' :=
      (fun rm => foldl (fun rm f => updatePosition rm (fill_symbol f)
                                      (fill_side f) (fill_quantity f)
                                      (fill_price f)) rm (r_fills r))
        <$> snd checked in
    Some (r_fills r,
          r_events r ++ notifyOrder (order_callback_ e) (r_order r),
          mkEngine (<[symbol order := r_book r]> books) risk'
                   (fill_callback_ e) (order_callback_ e)
                   total_orders' (r_total_fills r)).

Definition engine_cancelOrder (e : MatchingEngine) (sym : Symbol)
    (order_id : OrderId) : bool * MatchingEngine :=
  match order_books_ e !! sym with
  | None => (false, e)
  | Some book =>
      let (ok, book') := cancelOrder book order_id in
      (ok, mkEngine (<[sym := book']> (order_books_ e)) (risk_manager_ e)
             (fill_callback_ e) (order_callback_ e)
             (total_orders_ e) (total_fills_ e))
  end.

Definition engine_modifyOrder (now : Timestamp) (e : MatchingEngine)
    (sym : Symbol) (order_id : OrderId) (new_price : Price)
    (new_quantity : Quantity) : bool * MatchingEngine :=
  match order_books_ e !! sym with
  | None => (false, e)
  | Some book =>
      let (ok, book') :=
        modifyOrder now book order_id new_price new_quantity in
      (ok, mkEngine (<[sym := book']> (order_books_ e)) (risk_manager_ e)
             (fill_callback_ e) (order_callback_ e)
             (total_orders_ e) (total_fills_ e))
  end.

(** ** Test data of the unit tests *)

Module Scenario.
Definition adds (b : OrderBook) (l : list Order) : OrderBook :=
  foldl (fun b o => snd (addOrder b o)) b l.

Definition lim (i : OrderId) (sym : Symbol) (s : Side) (p : Price)
    (q : Quantity) : Order := new_Order 0 i sym s Limit p q.
Definition buy (i : OrderId) (p : Price) (q : Quantity) : Order :=
  lim i "AAPL" Buy p q.
Definition sell (i : OrderId) (p : Price) (q : Quantity) : Order :=
  lim i "AAPL" Sell p q.

Definition book0 : OrderBook := new_OrderBook "AAPL".

(** Submit the orders one after the other; the fills of the last one. *)
Fixpoint run (e : MatchingEngine) (l : list Order) (last : list Fill)
    : option (list Fill * MatchingEngine) :=
  match l with
  | [] => Some (last, e)
  | o :: l' =>
      '(fills, _, e') ← submitOrder 0 e o;
      run e' l' fills
  end.

Definition brief (f : Fill) : Price * Quantity :=
  (fill_price f, fill_quantity f).
End Scenario.

(** ** Comparators *)

(** What [std::map] requires of its [Compare]: a strict weak ordering. *)
Class StrictWeak {K : Type} (lt : K -> K -> bool) : Prop := {
  lt_irrefl : forall a, lt a a = false;
  lt_trans : forall a b c, lt a b = true -> lt b c = true -> lt a c = true;
  lt_cotrans : forall a b c,
    lt a b = true -> lt a c = true \/ lt c b = true
}.

(** ** Well-formed books *)

Definition sum_remaining (l : list Order) : Quantity :=
  foldr (fun o acc => remaining_qty o + acc) 0 l.

(** The cached total is the sum of the remaining quantities, and the level
    holds at least one order. *)
Definition level_ok (level : PriceLevel) : Prop :=
  total_quantity level = sum_remaining (orders level) /\ orders level <> [].

(** The representation invariant of a book: both maps are ordered by
    their comparator, every level is [level_ok], is filed under its own
    price and holds each id once, and the id index has exactly one entry
    per resting order, recording its side and price. *)
Record book_wf (b : OrderBook) : Prop := mk_book_wf {
  wf_sorted : forall s, smap_sorted (side_lt s) (side_levels s b);
  wf_level_ok : forall s k level,
    (k, level) ∈ side_levels s b -> level_ok level;
  wf_level_price : forall s k level,
    (k, level) ∈ side_levels s b -> level_price level = k;
  wf_level_ids : forall s k level,
    (k, level) ∈ side_levels s b -> NoDup (id <$> orders level);
  wf_indexed : forall s k level o,
    (k, level) ∈ side_levels s b -> o ∈ orders level ->
    order_lookup_ b !! id o = Some (mkLoc s (price o))
    /\ key_equiv (side_lt s) (price o) k = true;
  wf_located : forall oid loc,
    order_lookup_ b !! oid = Some loc ->
    exists k level o,
      (k, level) ∈ side_levels (loc_side loc) b
      /\ o ∈ orders level /\ id o = oid
}.

(** The books a client can produce through the public operations. *)
Inductive reachable : OrderBook -> Prop :=
| reach_new sym : reachable (new_OrderBook sym)
| reach_addOrder b order :
    reachable b -> reachable (snd (addOrder b order))
| reach_cancelOrder b order_id :
    reachable b -> reachable (snd (cancelOrder b order_id))
| reach_modifyOrder now b order_id new_price new_quantity :
    reachable b ->
    reachable (snd (modifyOrder now b order_id new_price new_quantity))
| reach_executeFill b aggressor_side qty limit_price aggressor_id r :
    reachable b ->
    executeFill b aggressor_side qty limit_price aggressor_id = Some r ->
    reachable (snd r).

(** ** The matching algorithm as the specification words it *)

(** The outcome of matching: emitted fills, what is left of the request,
    what is left of the level (or of the side), and the ids evicted from
    the id index. *)
Record Matched (A : Type) := mkMatched {
  sp_fills : list Fill;
  sp_remaining : Quantity;
  sp_rest : A;
  sp_evicted : list OrderId
}.
Arguments mkMatched {A}.
Arguments sp_fills {A}.
Arguments sp_remaining {A}.
Arguments sp_rest {A}.
Arguments sp_evicted {A}.

(** Step 2c: while [remaining > 0] and the level has orders, the head
    order [P] fills first with [q = min(remaining, P.remaining)] at the
    level's price; a fully filled head is evicted and the next order
    follows.  A head that is filled only in part has absorbed all of
    [remaining], which ends the loop. *)
Fixpoint spec_consume (sym : Symbol) (aggressor_side : Side)
    (aggressor_id : OrderId) (L_price : Price) (remaining : Quantity)
    (L_orders : list Order) : Matched (list Order) :=
  match L_orders with
  | [] => mkMatched [] remaining [] []
  | P :: later =>
      if 0 <? remaining then
        let q := Z.min remaining (remaining_qty P) in
        let fill := mkFill aggressor_id (id P) sym aggressor_side L_price q in
        if is_filled (apply_fill q P) then
          let m := spec_consume sym aggressor_side aggressor_id L_price
                     (remaining - q) later in
          mkMatched (fill :: sp_fills m) (sp_remaining m) (sp_rest m)
                    (id P :: sp_evicted m)
        else mkMatched [fill] (remaining - q) (apply_fill q P :: later) []
      else mkMatched [] remaining L_orders []
  end.

(** Step 2b, the price gate. *)
Definition spec_gate_stops (aggressor_side : Side) (limit_price : Price)
    (L_price : Price) : Prop :=
  (0 < limit_price)%Q
  /\ match aggressor_side with
     | Buy => (limit_price < L_price)%Q
     | Sell => (L_price < limit_price)%Q
     end.

#[global] Instance spec_gate_stops_dec s lim p :
  Decision (spec_gate_stops s lim p).
Proof.
  unfold spec_gate_stops.
  assert (forall a b : Q, Decision (a < b)%Q) as H.
  { intros a b. destruct (Qlt_le_dec a b) as [H | H];
      [left; exact H | right; apply Qle_not_lt; exact H]. }
  destruct s; apply and_dec; apply H.
Defined.

(** Step 2: levels are taken from the best one outward; a level stopped
    by the gate ends the matching; a level emptied by step 2c is evicted
    (step 2d) and the next level follows; a level that keeps orders has
    exhausted [remaining]. *)
Fixpoint spec_match (sym : Symbol) (aggressor_side : Side)
    (aggressor_id : OrderId) (limit_price : Price) (remaining : Quantity)
    (opposite_levels : Levels) : Matched Levels :=
  match opposite_levels with
  | [] => mkMatched [] remaining [] []
  | (k, L) :: worse =>
      if 0 <? remaining then
        if decide (spec_gate_stops aggressor_side limit_price (level_price L))
        then mkMatched [] remaining opposite_levels []
        else
          let c := spec_consume sym aggressor_side aggressor_id
                     (level_price L) remaining (orders L) in
          match sp_rest c with
          | [] =>
              let m := spec_match sym aggressor_side aggressor_id limit_price
                         (sp_remaining c) worse in
              mkMatched (sp_fills c ++ sp_fills m) (sp_remaining m)
                        (sp_rest m) (sp_evicted c ++ sp_evicted m)
          | _ :: _ =>
              mkMatched (sp_fills c) (sp_remaining c)
                ((k, mkPriceLevel (level_price L)
                       (total_quantity L - (remaining - sp_remaining c))
                       (sp_rest c)) :: worse)
                (sp_evicted c)
          end
      else mkMatched [] remaining opposite_levels []
  end.

(** The book [match] leaves behind: the passive side as [spec_match]
    leaves it, the evicted ids taken out of the id index and of the
    passive side's id table. *)
Definition spec_book (b : OrderBook) (aggressor_side : Side)
    (m : Matched Levels) : OrderBook :=
  let s := opposite aggressor_side in
  set_side s (sp_rest m)
    (foldl (fun ids i => ids ∖ {[i]}) (side_orders s b) (sp_evicted m))
    (foldl (fun lk i => delete i lk) (order_lookup_ b) (sp_evicted m))
    b.

(** ** The global position check as the specification words it *)

(** The sum, over all symbols, of [|new_pos|] for the order's symbol and
    [|position|] for the others. *)
Definition spec_global_position (rm : RiskManager) (order : Order)
    : Quantity :=
  let new_pos := getPosition rm (symbol order)
                 + direction (side order) * quantity order in
  Z.abs new_pos
  + map_fold (fun _ pos total => total + Z.abs pos) 0
      (delete (symbol order) (positions_ rm)).

(** ** Rejection of invalid orders, as the specification words it *)

(** Invalid parameters: zero or negative quantity, or negative price. *)
Definition invalid_parameters (order : Order) : Prop :=
  quantity order <= 0 \/ (price order < 0)%Q.

(** [submitOrder] returns no fills and every order notification it
    delivers carries the status [Rejected]. *)
Definition submit_rejects (now : Timestamp) (e : MatchingEngine)
    (order : Order) : Prop :=
  exists events e',
    submitOrder now e order = Some ([], events, e')
    /\ forall o, OrderEvent o ∈ events -> status o = Rejected.

(** ** Concrete cases *)

(** The failing input of the global position check: limit 100, no
    recorded position, a buy of 500. *)
Module GlobalPositionCase.
Definition rm0 : RiskManager :=
  setGlobalPositionLimit 100 (new_RiskManager 0).
Definition order0 : Order := new_Order 0 1 "AAPL" Buy Limit 150 500.
End GlobalPositionCase.

(** An engine with both callbacks installed and no risk gate; an order
    for quantity 0. *)
Module ZeroQuantityCase.
Definition e0 : MatchingEngine := setCallbacks true true new_MatchingEngine.
Definition order0 : Order := new_Order 0 1 "AAPL" Buy Limit 150 0.
End ZeroQuantityCase.

(** A resting sell of 100 at 150 and a buy of 100 limited at -5. *)
Module NegativePriceCase.
Definition e0 : option MatchingEngine :=
  snd <$> Scenario.run new_MatchingEngine
            [Scenario.lim 1 "AAPL" Sell 150 100] [].
Definition order0 : Order := Scenario.lim 2 "AAPL" Buy (-5) 100.
End NegativePriceCase.

(** A resting sell of 100 at 2e12, and a Market buy of 100. *)
Module MarketBuyCase.
Definition e0 : option MatchingEngine :=
  snd <$> Scenario.run (setCallbacks true true new_MatchingEngine)
            [Scenario.lim 1 "AAPL" Sell 2e12 100] [].
Definition market_buy : Order := new_Order 0 2 "AAPL" Buy Market 0 100.
End MarketBuyCase.

(** A resting buy of 100 at 150, 60 of which have been filled by a
    seller. *)
Module FilledBelowCase.
Definition b0 : OrderBook :=
  Scenario.adds Scenario.book0 [Scenario.buy 1 150 100].
Definition fill0 : option (list Fill * OrderBook) :=
  executeFill b0 Sell 60 150 9.
Definition b1 : OrderBook := default b0 (snd <$> fill0).
Definition resting_order : Order := apply_fill 60 (Scenario.buy 1 150 100).
End FilledBelowCase.

(** An engine whose risk gate limits AAPL orders to 100, and an order
    for 200. *)
Module RiskRejectCase.
Definition rm0 : RiskManager :=
  setOrderSizeLimit "AAPL" 100 (new_RiskManager 0).
Definition e0 : MatchingEngine :=
  setRiskManager rm0 (setCallbacks true true new_MatchingEngine).
Definition order0 : Order := Scenario.lim 2 "AAPL" Buy 150 200.
End RiskRejectCase.

(** A risk gate with a recorded AAPL exposure of 15000 under a global
    notional limit of 20000, and a Market buy of a million. *)
Module MarketNotionalCase.
Definition rm0 : RiskManager :=
  let rm := updatePosition (new_RiskManager 0) "AAPL" Buy 100 150 in
  mkRisk (position_limits_ rm) (order_size_limits_ rm) (notional_limits_ rm)
         (positions_ rm) (average_prices_ rm) (notional_exposures_ rm)
         (global_position_limit_ rm) 20000
         (order_rate_limit_ rm) (orders_this_second_ rm)
         (rate_window_start_ rm).
Definition order0 : Order := new_Order 0 7 "AAPL" Buy Market 0 1000000.
End MarketNotionalCase.

(** An id rests in the book when some level holds an order with it. *)
Definition resting (b : OrderBook) (oid : OrderId) : Prop :=
  exists s k level o,
    (k, level) ∈ side_levels s b /\ o ∈ orders level /\ id o = oid.

(** The loop state after [fills] were emitted and [evicted] left the id
    index. *)
Definition st_after (st : MatchState) (fills : list Fill)
    (remaining : Quantity) (evicted : list OrderId) : MatchState :=
  mkMatch (m_fills st ++ fills) remaining
    (foldl (fun lk i => delete i lk) (m_lookup st) evicted)
    (foldl (fun ids i => ids ∖ {[i]}) (m_ids st) evicted).

(** What identifies a resting order to the id index. *)
Definition order_key (o : Order) : OrderId * Price := (id o, price o).

(** The orders of a run of levels, in matching order. *)
Definition level_orders (levels : Levels) : list Order :=
  levels ≫= (fun kl => orders kl.2).

(** ** Price priority of a fill list *)

(** For the aggressor, price [p] is at least as good as price [q]: a
    buyer prefers lower asks, a seller higher bids. *)
Definition at_least_as_good (aggressor_side : Side) (p q : Price) : Prop :=
  match aggressor_side with
  | Buy => (p <= q)%Q
  | Sell => (q <= p)%Q
  end.

(** Every price of the list is at least as good as all the later ones. *)
Fixpoint best_first (aggressor_side : Side) (l : list Price) : Prop :=
  match l with
  | [] => True
  | p :: l' =>
      Forall (at_least_as_good aggressor_side p) l'
      /\ best_first aggressor_side l'
  end.

(** The asks of the replayed test [test_execute_fill]. *)
Module ThreeAsksCase.
Definition b0 : OrderBook :=
  Scenario.adds Scenario.book0
    [Scenario.sell 1 150 100; Scenario.sell 2 150.5 200;
     Scenario.sell 3 151 150].
End ThreeAsksCase.

(** ** More of the source *)

(** [Order::is_active] *)
Definition is_active (o : Order) : bool :=
  bool_decide (status o = New) || bool_decide (status o = PartiallyFilled).

(** [OrderBook::cleanupLevel] *)
Definition cleanupLevel (b : OrderBook) (s : Side) (p : Price) : OrderBook :=
  set_side s
    (smap_visit (side_lt s) p
       (fun level => match orders level with
                     | [] => None
                     | _ :: _ => Some level
                     end)
       (side_levels s b))
    (side_orders s b) (order_lookup_ b) b.

Definition setPositionLimit (sym : Symbol) (limit : Quantity)
    (rm : RiskManager) : RiskManager :=
  mkRisk (<[sym := limit]> (position_limits_ rm)) (order_size_limits_ rm)
         (notional_limits_ rm)
         (positions_ rm) (average_prices_ rm) (notional_exposures_ rm)
         (global_position_limit_ rm) (global_notional_limit_ rm)
         (order_rate_limit_ rm) (orders_this_second_ rm)
         (rate_window_start_ rm).

Definition setNotionalLimit (sym : Symbol) (limit : Q)
    (rm : RiskManager) : RiskManager :=
  mkRisk (position_limits_ rm) (order_size_limits_ rm)
         (<[sym := limit]> (notional_limits_ rm))
         (positions_ rm) (average_prices_ rm) (notional_exposures_ rm)
         (global_position_limit_ rm) (global_notional_limit_ rm)
         (order_rate_limit_ rm) (orders_this_second_ rm)
         (rate_window_start_ rm).

Definition setOrderRateLimit (orders_per_second : N) (rm : RiskManager)
    : RiskManager :=
  mkRisk (position_limits_ rm) (order_size_limits_ rm) (notional_limits_ rm)
         (positions_ rm) (average_prices_ rm) (notional_exposures_ rm)
         (global_position_limit_ rm) (global_notional_limit_ rm)
         orders_per_second (orders_this_second_ rm)
         (rate_window_start_ rm).


Definition setGlobalNotionalLimit (limit : Q) (rm : RiskManager)
    : RiskManager :=
  mkRisk (position_limits_ rm) (order_size_limits_ rm) (notional_limits_ rm)
         (positions_ rm) (average_prices_ rm) (notional_exposures_ rm)
         (global_position_limit_ rm) limit
         (order_rate_limit_ rm) (orders_this_second_ rm)
         (rate_window_start_ rm).


(** ** Further notions for the properties below *)

(** The two per-side id tables hold the ids the index files under their
    side. *)
Definition book_ids_ok (b : OrderBook) : Prop :=
  forall s i,
    i ∈ side_orders s b
    <-> exists p, order_lookup_ b !! i = Some (mkLoc s p).

(** The quantity a fill list trades. *)
Definition fills_quantity (fills : list Fill) : Quantity :=
  foldr (fun f acc => fill_quantity f + acc) 0 fills.

(** The quantity resting on one side of the book. *)
Definition side_quantity (s : Side) (b : OrderBook) : Quantity :=
  sum_remaining (level_orders (side_levels s b)).

(** No bid is priced at or above an ask. *)
Definition uncrossed (b : OrderBook) : Prop :=
  forall kb Lb ka La,
    (kb, Lb) ∈ bid_levels_ b -> (ka, La) ∈ ask_levels_ b -> (kb < ka)%Q.

(** Fill [f] is a trade of aggressor [aggressor_id] on [aggressor_side]
    of [sym] against the resting order [o], for no more than [o] has
    left. *)
Definition fill_against (sym : Symbol) (aggressor_side : Side)
    (aggressor_id : OrderId) (f : Fill) (o : Order) : Prop :=
  fill_order_id f = aggressor_id
  /\ fill_counter_order_id f = id o
  /\ fill_symbol f = sym
  /\ fill_side f = aggressor_side
  /\ fill_quantity f <= remaining_qty o.

(** The queue of a side after [fills] were served from its front: an
    order its fill takes whole is gone, one filled in part stays in
    front with the fill applied. *)
Fixpoint queue_after (fills : list Fill) (queue : list Order) : list Order :=
  match fills, queue with
  | f :: fills', o :: queue' =>
      if is_filled (apply_fill (fill_quantity f) o)
      then queue_after fills' queue'
      else apply_fill (fill_quantity f) o :: queue'
  | _, _ => queue
  end.

(** The order as [matchOrder] updates it with the fills it received. *)
Definition filled_order (order : Order) (fills : list Fill) : Order :=
  foldl (fun o f => apply_fill (fill_quantity f) o) order fills.

(** Every book of the engine is well formed. *)
Definition books_well_formed (e : MatchingEngine) : Prop :=
  forall sym b, getOrderBook e sym = Some b -> book_wf b.

(** No book of the engine is crossed. *)
Definition all_uncrossed (e : MatchingEngine) : Prop :=
  forall sym b, getOrderBook e sym = Some b -> uncrossed b.

(** The risk gate, if one is installed, lets [order] through at [now]. *)
Definition risk_accepts (now : Timestamp) (e : MatchingEngine)
    (order : Order) : Prop :=
  match risk_manager_ e with
  | Some rm => passed (fst (checkOrder now rm order)) = true
  | None => True
  end.

(** The book [submitOrder] works on: the one filed under the symbol, or
    a new one. *)
Definition book_of (e : MatchingEngine) (sym : Symbol) : OrderBook :=
  fst (getOrCreateOrderBook (order_books_ e) sym).

(** A book with a bid for 100 at 149 and asks for 100 at 151 and 50 at
    152. *)
Module TwoSidedCase.
Definition b0 : OrderBook :=
  Scenario.adds Scenario.book0
    [Scenario.buy 1 149 100; Scenario.sell 2 151 100; Scenario.sell 3 152 50].
End TwoSidedCase.

(** An engine with both callbacks installed in which a sell of 100 at
    150 rests, and three orders to send to it. *)
Module CrossingCase.
Definition e0 : MatchingEngine :=
  default new_MatchingEngine
    (snd <$> Scenario.run (setCallbacks true true new_MatchingEngine)
               [Scenario.sell 1 150 100] []).
Definition small_buy : Order := Scenario.buy 2 150 60.
Definition large_buy : Order := Scenario.buy 2 150 160.
Definition market_buy : Order := new_Order 0 2 "AAPL" Buy Market 0 160.
End CrossingCase.

(** The loop of [submitOrder] that reports the fills to the risk
    manager. *)
Definition updatePositions (rm : RiskManager) (fills : list Fill)
    : RiskManager :=
  foldl (fun rm f => updatePosition rm (fill_symbol f) (fill_side f)
                       (fill_quantity f) (fill_price f)) rm fills.

(** Successive calls of [checkOrderRate] at the clock readings [nows]:
    the verdicts in call order, and the manager afterwards. *)
Fixpoint checkOrderRate_run (nows : list Timestamp) (rm : RiskManager)
    : list bool * RiskManager :=
  match nows with
  | [] => ([], rm)
  | now :: later =>
      let (result, rm1) := checkOrderRate now rm in
      let (verdicts, rm2) := checkOrderRate_run later rm1 in
      (passed result :: verdicts, rm2)
  end.

(** An engine with a risk manager installed in which a sell of 100 at
    150 rests. *)
Module RiskTradingCase.
Definition e0 : MatchingEngine :=
  default new_MatchingEngine
    (snd <$> Scenario.run (setRiskManager (new_RiskManager 0)
                             new_MatchingEngine)
               [Scenario.sell 1 150 100] []).
End RiskTradingCase.

(** A risk manager that lets three orders through per second, its window
    opened at clock reading 0. *)
Module RateCase.
Definition rm0 : RiskManager := setOrderRateLimit 3 (new_RiskManager 0).
End RateCase.

(** An engine whose AAPL book holds a bid for 100 at 149 and asks for 100
    at 151 and 50 at 152, and a buy of 150 at 151.5 that takes the first
    ask and rests with the remainder. *)
Module TwoSidedEngineCase.
Definition orders0 : list Order :=
  [Scenario.buy 1 149 100; Scenario.sell 2 151 100; Scenario.sell 3 152 50].
Definition e0 : MatchingEngine :=
  default new_MatchingEngine
    (snd <$> Scenario.run new_MatchingEngine orders0 []).
Definition crossing_buy : Order := Scenario.buy 4 151.5 150.
End TwoSidedEngineCase.

(** * Proofs *)

(** ** Prices *)

Lemma Qltb_lt (a b : Q) : Qltb a b = true <-> (a < b)%Q.
Proof.
  unfold Qltb. rewrite negb_true_iff. split; intros H.
  - apply Qnot_le_lt. intros Hle. apply Qle_bool_iff in Hle. congruence.
  - destruct (Qle_bool b a) eqn:E; [|reflexivity].
    apply Qle_bool_iff in E. exfalso. exact (Qlt_not_le _ _ H E).
Qed.

Lemma Qltb_ge (a b : Q) : Qltb a b = false <-> (b <= a)%Q.
Proof.
  unfold Qltb. rewrite negb_false_iff. apply Qle_bool_iff.
Qed.

#[global] Instance ask_lt_strict_weak : StrictWeak ask_lt.
Proof.
  unfold ask_lt. split.
  - intros a. apply Qltb_ge. apply Qle_refl.
  - intros a b c H1%Qltb_lt H2%Qltb_lt. apply Qltb_lt.
    exact (Qlt_trans _ _ _ H1 H2).
  - intros a b c H%Qltb_lt. destruct (Qlt_le_dec a c) as [Hac | Hca].
    + left. apply Qltb_lt. exact Hac.
    + right. apply Qltb_lt. exact (Qle_lt_trans _ _ _ Hca H).
Qed.

#[global] Instance bid_lt_strict_weak : StrictWeak bid_lt.
Proof.
  unfold bid_lt. split.
  - intros a. apply (lt_irrefl (lt := ask_lt)).
  - intros a b c H1 H2. exact (lt_trans (lt := ask_lt) _ _ _ H2 H1).
  - intros a b c H. destruct (lt_cotrans (lt := ask_lt) _ _ c H); auto.
Qed.

#[global] Instance side_lt_strict_weak s : StrictWeak (side_lt s).
Proof. destruct s; simpl; apply _. Qed.

(** ** std::map *)

Section StdMapFacts.
Context {K V : Type} (lt : K -> K -> bool) `{!StrictWeak lt}.
Implicit Types (k : K) (v : V) (m : list (K * V)).

Lemma lt_asym a b : lt a b = true -> lt b a = false.
Proof.
  intros H. destruct (lt b a) eqn:E; [|reflexivity].
  rewrite <- (lt_irrefl a). symmetry. exact (lt_trans _ _ _ H E).
Qed.

Lemma key_equiv_iff a b :
  key_equiv lt a b = true <-> lt a b = false /\ lt b a = false.
Proof.
  unfold key_equiv. rewrite andb_true_iff, !negb_true_iff. tauto.
Qed.

Lemma key_equiv_refl a : key_equiv lt a a = true.
Proof. apply key_equiv_iff. split; apply lt_irrefl. Qed.

Lemma key_equiv_sym a b : key_equiv lt a b = key_equiv lt b a.
Proof. unfold key_equiv. apply andb_comm. Qed.

Lemma lt_equiv_r a b c :
  lt a b = true -> key_equiv lt b c = true -> lt a c = true.
Proof.
  intros Hab [Hbc Hcb]%key_equiv_iff.
  destruct (lt_cotrans _ _ c Hab) as [H | H]; [exact H | congruence].
Qed.

Lemma lt_equiv_l a b c :
  key_equiv lt a b = true -> lt b c = true -> lt a c = true.
Proof.
  intros [Hab Hba]%key_equiv_iff Hbc.
  destruct (lt_cotrans _ _ a Hbc) as [H | H]; [congruence | exact H].
Qed.

Lemma key_equiv_trans a b c :
  key_equiv lt a b = true -> key_equiv lt b c = true ->
  key_equiv lt a c = true.
Proof.
  intros Hab Hbc. apply key_equiv_iff. split.
  - destruct (lt a c) eqn:E; [|reflexivity].
    rewrite key_equiv_sym in Hbc.
    pose proof (lt_equiv_r _ _ _ E Hbc) as H.
    apply key_equiv_iff in Hab. destruct Hab. congruence.
  - destruct (lt c a) eqn:E; [|reflexivity].
    pose proof (lt_equiv_r _ _ _ E Hab) as H.
    apply key_equiv_iff in Hbc. destruct Hbc. congruence.
Qed.

Lemma smap_below_elem k m k' v :
  smap_below lt k m -> (k', v) ∈ m -> lt k k' = true.
Proof.
  induction m as [|[k0 v0] m IH]; simpl; intros Hb Hin.
  - by apply elem_of_nil in Hin.
  - destruct Hb as [H1 H2].
    apply elem_of_cons in Hin as [[= -> ->] | Hin]; auto.
Qed.

Lemma smap_below_intro k m :
  (forall k' v, (k', v) ∈ m -> lt k k' = true) -> smap_below lt k m.
Proof.
  induction m as [|[k0 v0] m IH]; simpl; intros H; [exact I|].
  split.
  - apply (H k0 v0). apply elem_of_cons. by left.
  - apply IH. intros k' v Hin. apply (H k' v). apply elem_of_cons. by right.
Qed.

Lemma smap_below_trans k k' m :
  lt k k' = true -> smap_below lt k' m -> smap_below lt k m.
Proof.
  intros Hlt Hb. apply smap_below_intro. intros k0 v Hin.
  exact (lt_trans _ _ _ Hlt (smap_below_elem _ _ _ _ Hb Hin)).
Qed.

(** *** find *)

Lemma smap_find_Some_elem k m v :
  smap_find lt k m = Some v ->
  exists k', (k', v) ∈ m /\ key_equiv lt k k' = true.
Proof.
  induction m as [|[k0 v0] m IH]; simpl; [discriminate|].
  destruct (lt k0 k) eqn:E1.
  - intros H. destruct (IH H) as (k' & Hin & Heq).
    exists k'. split; [apply elem_of_cons; by right | exact Heq].
  - destruct (lt k k0) eqn:E2; [discriminate|].
    intros [= ->]. exists k0. split; [apply elem_of_cons; by left|].
    apply key_equiv_iff. done.
Qed.

Lemma smap_find_below k k' m :
  smap_below lt k' m -> lt k' k = false -> smap_find lt k m = None.
Proof.
  induction m as [|[k0 v0] m IH]; simpl; [done|].
  intros [H1 H2] Hk.
  destruct (lt k0 k) eqn:E1.
  - rewrite (lt_trans _ _ _ H1 E1) in Hk. discriminate.
  - destruct (lt k k0) eqn:E2; [done|].
    destruct (lt_cotrans _ _ k H1); congruence.
Qed.

Lemma smap_find_elem k k' m v :
  smap_sorted lt m -> (k', v) ∈ m -> key_equiv lt k k' = true ->
  smap_find lt k m = Some v.
Proof.
  induction m as [|[k0 v0] m IH]; simpl; intros Hs Hin Heq.
  - by apply elem_of_nil in Hin.
  - destruct Hs as [Hb Hs].
    apply elem_of_cons in Hin as [[= -> ->] | Hin].
    + apply key_equiv_iff in Heq as [-> ->]. done.
    + pose proof (smap_below_elem _ _ _ _ Hb Hin) as Hlt.
      rewrite key_equiv_sym in Heq.
      rewrite (lt_equiv_r _ _ _ Hlt Heq). by apply IH; [| |rewrite key_equiv_sym].
Qed.

Lemma smap_find_None_elem k k' m v :
  smap_sorted lt m -> smap_find lt k m = None -> (k', v) ∈ m ->
  key_equiv lt k k' = false.
Proof.
  intros Hs Hf Hin. destruct (key_equiv lt k k') eqn:E; [|done].
  rewrite (smap_find_elem _ _ _ _ Hs Hin E) in Hf. discriminate.
Qed.

(** Two nodes of a map with the same key are the same node. *)
Lemma smap_sorted_unique m k1 v1 k2 v2 :
  smap_sorted lt m -> (k1, v1) ∈ m -> (k2, v2) ∈ m ->
  key_equiv lt k1 k2 = true -> k1 = k2 /\ v1 = v2.
Proof.
  induction m as [|[k0 v0] m IH]; simpl; intros Hs H1 H2 Heq.
  - by apply elem_of_nil in H1.
  - destruct Hs as [Hb Hs].
    apply elem_of_cons in H1 as [[= -> ->] | H1];
      apply elem_of_cons in H2 as [[= -> ->] | H2]; auto.
    + pose proof (smap_below_elem _ _ _ _ Hb H2) as Hlt.
      apply key_equiv_iff in Heq. destruct Heq. congruence.
    + pose proof (smap_below_elem _ _ _ _ Hb H1) as Hlt.
      apply key_equiv_iff in Heq. destruct Heq. congruence.
Qed.

(** *** operator[] *)

Lemma smap_find_subscript k d f m :
  smap_find lt k (smap_subscript lt k d f m)
  = Some (f (default d (smap_find lt k m))).
Proof.
  induction m as [|[k0 v0] m IH]; simpl.
  - by rewrite lt_irrefl.
  - destruct (lt k0 k) eqn:E1; simpl.
    + by rewrite E1.
    + destruct (lt k k0) eqn:E2; simpl.
      * by rewrite lt_irrefl.
      * by rewrite E1, E2.
Qed.

Lemma smap_find_subscript_ne k k' d f m :
  key_equiv lt k k' = false ->
  smap_find lt k' (smap_subscript lt k d f m) = smap_find lt k' m.
Proof.
  intros Hne. induction m as [|[k0 v0] m IH]; simpl.
  - destruct (lt k k') eqn:E1; [done|].
    destruct (lt k' k) eqn:E2; [done|].
    unfold key_equiv in Hne. rewrite E1, E2 in Hne. discriminate.
  - destruct (lt k0 k) eqn:E1; simpl.
    + by rewrite IH.
    + destruct (lt k k0) eqn:E2; simpl.
      * destruct (lt k k') eqn:E3; [done|].
        destruct (lt k' k) eqn:E4.
        -- rewrite (lt_trans _ _ _ E4 E2).
           by rewrite (lt_asym _ _ (lt_trans _ _ _ E4 E2)).
        -- unfold key_equiv in Hne. rewrite E3, E4 in Hne. discriminate.
      * destruct (lt k0 k') eqn:E3; [done|].
        destruct (lt k' k0) eqn:E4; [done|].
        exfalso.
        assert (key_equiv lt k k' = true); [|congruence].
        apply (key_equiv_trans _ k0); apply key_equiv_iff; done.
Qed.

Lemma smap_below_subscript k0 k d f m :
  smap_below lt k0 m -> lt k0 k = true ->
  smap_below lt k0 (smap_subscript lt k d f m).
Proof.
  induction m as [|[k1 v1] m IH]; simpl; intros Hb Hlt; [done|].
  destruct Hb as [H1 H2].
  destruct (lt k1 k); simpl; [auto|].
  destruct (lt k k1); simpl; auto.
Qed.

Lemma smap_sorted_subscript k d f m :
  smap_sorted lt m -> smap_sorted lt (smap_subscript lt k d f m).
Proof.
  induction m as [|[k1 v1] m IH]; simpl; intros Hs; [done|].
  destruct Hs as [Hb Hs].
  destruct (lt k1 k) eqn:E1; simpl.
  - split; [by apply smap_below_subscript | by apply IH].
  - destruct (lt k k1) eqn:E2; simpl; [|done].
    repeat split; try done. by apply (smap_below_trans _ k1).
Qed.

(** The nodes after [m[k]] was touched: the node of [k] holds [f] of
    its former value (of [dflt] when it is new), the others are the
    former ones. *)
Lemma smap_elem_subscript k d f m k' v' :
  smap_sorted lt m ->
  (k', v') ∈ smap_subscript lt k d f m <->
    ((k', v') ∈ m /\ key_equiv lt k k' = false)
    \/ (exists v, (k', v) ∈ m /\ key_equiv lt k k' = true /\ v' = f v)
    \/ (smap_find lt k m = None /\ k' = k /\ v' = f d).
Proof.
  induction m as [|[k0 v0] m IH]; simpl; intros Hs.
  - rewrite list_elem_of_singleton. setoid_rewrite elem_of_nil.
    naive_solver.
  - destruct Hs as [Hb Hs]. specialize (IH Hs).
    destruct (lt k0 k) eqn:E1.
    + assert (key_equiv lt k k0 = false) as Hk0.
      { unfold key_equiv. by rewrite E1, andb_false_r. }
      rewrite elem_of_cons, IH. setoid_rewrite elem_of_cons.
      naive_solver congruence.
    + destruct (lt k k0) eqn:E2.
      * assert (forall k1 v1, (k1, v1) ∈ (k0, v0) :: m ->
                  key_equiv lt k k1 = false) as Hne.
        { intros k1 v1 [[= -> ->] | Hin]%elem_of_cons.
          - unfold key_equiv. by rewrite E2.
          - pose proof (smap_below_elem _ _ _ _ Hb Hin) as H.
            unfold key_equiv. by rewrite (lt_trans _ _ _ E2 H). }
        rewrite elem_of_cons. split.
        -- intros [[= -> ->] | Hin]; [auto|]. left. split; [done|].
           by eapply Hne.
        -- intros [[H1 H2] | [(v & H1 & H2 & H3) | (_ & -> & ->)]];
             [by right | | by left].
           rewrite (Hne _ _ H1) in H2. discriminate.
      * assert (forall k1 v1, (k1, v1) ∈ m -> key_equiv lt k k1 = false)
          as Hne.
        { intros k1 v1 Hin.
          pose proof (smap_below_elem _ _ _ _ Hb Hin) as H.
          assert (lt k k1 = true) as Hlt.
          { apply (lt_equiv_l _ k0); [by apply key_equiv_iff | done]. }
          unfold key_equiv. by rewrite Hlt. }
        assert (key_equiv lt k k0 = true) as Hk0 by by apply key_equiv_iff.
        setoid_rewrite elem_of_cons. split.
        -- intros [[= -> ->] | Hin]; [naive_solver|].
           left. split; [by right | by eapply Hne].
        -- intros [[[[= -> ->] | H1] H2] | [(v & [[= -> ->] | H1] & H2 & H3) | (? & _)]];
             first [ congruence | by auto
                   | rewrite (Hne _ _ H1) in H2; discriminate | by left; subst ].
Qed.

(** *** find, then mutate or erase *)

Lemma smap_below_visit k0 k g m :
  smap_below lt k0 m -> smap_below lt k0 (smap_visit lt k g m).
Proof.
  induction m as [|[k1 v1] m IH]; simpl; intros Hb; [done|].
  destruct Hb as [H1 H2].
  destruct (lt k1 k); simpl; [auto|].
  destruct (lt k k1); simpl; [auto|].
  destruct (g v1); simpl; auto.
Qed.

Lemma smap_sorted_visit k g m :
  smap_sorted lt m -> smap_sorted lt (smap_visit lt k g m).
Proof.
  induction m as [|[k1 v1] m IH]; simpl; intros Hs; [done|].
  destruct Hs as [Hb Hs].
  destruct (lt k1 k); simpl.
  - split; [by apply smap_below_visit | by apply IH].
  - destruct (lt k k1); simpl; [done|].
    destruct (g v1); simpl; done.
Qed.

Lemma smap_elem_visit k g m k' v' :
  smap_sorted lt m ->
  (k', v') ∈ smap_visit lt k g m <->
    ((k', v') ∈ m /\ key_equiv lt k k' = false)
    \/ (exists v, (k', v) ∈ m /\ key_equiv lt k k' = true /\ g v = Some v').
Proof.
  induction m as [|[k0 v0] m IH]; simpl; intros Hs.
  - setoid_rewrite elem_of_nil. naive_solver.
  - destruct Hs as [Hb Hs]. specialize (IH Hs).
    destruct (lt k0 k) eqn:E1.
    + assert (key_equiv lt k k0 = false) as Hk0.
      { unfold key_equiv. by rewrite E1, andb_false_r. }
      rewrite elem_of_cons, IH. setoid_rewrite elem_of_cons.
      naive_solver congruence.
    + destruct (lt k k0) eqn:E2.
      * assert (forall k1 v1, (k1, v1) ∈ (k0, v0) :: m ->
                  key_equiv lt k k1 = false) as Hne.
        { intros k1 v1 [[= -> ->] | Hin]%elem_of_cons.
          - unfold key_equiv. by rewrite E2.
          - pose proof (smap_below_elem _ _ _ _ Hb Hin) as H.
            unfold key_equiv. by rewrite (lt_trans _ _ _ E2 H). }
        split.
        -- intros Hin. left. split; [done | by eapply Hne].
        -- intros [[H1 H2] | (v & H1 & H2 & H3)]; [done|].
           rewrite (Hne _ _ H1) in H2. discriminate.
      * assert (forall k1 v1, (k1, v1) ∈ m -> key_equiv lt k k1 = false)
          as Hne.
        { intros k1 v1 Hin.
          pose proof (smap_below_elem _ _ _ _ Hb Hin) as H.
          assert (lt k k1 = true) as Hlt.
          { apply (lt_equiv_l _ k0); [by apply key_equiv_iff | done]. }
          unfold key_equiv. by rewrite Hlt. }
        assert (key_equiv lt k k0 = true) as Hk0 by by apply key_equiv_iff.
        destruct (g v0) as [w|] eqn:Eg; setoid_rewrite elem_of_cons; split.
        -- intros [[= -> ->] | Hin]; [naive_solver|].
           left. split; [by right | by eapply Hne].
        -- intros [[[[= -> ->] | H1] H2] | (v & [[= -> ->] | H1] & H2 & H3)].
           ++ congruence.
           ++ by right.
           ++ left. congruence.
           ++ rewrite (Hne _ _ H1) in H2. discriminate.
        -- intros Hin. left. split; [by right | by eapply Hne].
        -- intros [[[[= -> ->] | H1] H2] | (v & [[= -> ->] | H1] & H2 & H3)].
           ++ congruence.
           ++ done.
           ++ congruence.
           ++ rewrite (Hne _ _ H1) in H2. discriminate.
Qed.
End StdMapFacts.

(** ** Risk gate *)

Section RiskFacts.
Implicit Types (rm : RiskManager) (order : Order).

(** The loop adds [|new_pos|] only when the order's symbol already has
    an entry in [positions_]. *)
Lemma global_total_pos_split (positions : gmap Symbol Quantity) sym new_pos :
  global_total_pos positions sym new_pos
  = map_fold (fun _ pos total => total + Z.abs pos) 0 (delete sym positions)
    + (match positions !! sym with Some _ => Z.abs new_pos | None => 0 end).
Proof.
  unfold global_total_pos.
  match goal with |- map_fold ?f _ _ = _ => set (F := f) end.
  induction positions as [|i x m Hi IH] using map_ind.
  - rewrite delete_empty, !map_fold_empty, lookup_empty. lia.
  - rewrite (map_fold_insert_L F);
      [|intros; unfold F; repeat case_decide; lia|done].
    rewrite IH. unfold F. destruct (decide (i = sym)) as [->|Hne].
    + rewrite delete_insert_eq, lookup_insert_eq, Hi.
      rewrite (delete_id m sym Hi). lia.
    + rewrite delete_insert_ne, lookup_insert_ne by done.
      rewrite map_fold_insert_L; [lia|intros; lia|].
      by rewrite lookup_delete_ne.
Qed.

Lemma spec_global_position_eq rm order :
  spec_global_position rm order
  = global_total_pos (positions_ rm) (symbol order)
      (getPosition rm (symbol order)
       + direction (side order) * quantity order)
    + (match positions_ rm !! symbol order with
       | Some _ => 0
       | None => Z.abs (getPosition rm (symbol order)
                        + direction (side order) * quantity order)
       end).
Proof.
  unfold spec_global_position. rewrite global_total_pos_split.
  destruct (positions_ rm !! symbol order); lia.
Qed.

(** With a recorded position for the order's symbol the code computes
    the specified sum. *)
Lemma global_total_pos_recorded rm order :
  is_Some (positions_ rm !! symbol order) ->
  global_total_pos (positions_ rm) (symbol order)
    (getPosition rm (symbol order) + direction (side order) * quantity order)
  = spec_global_position rm order.
Proof.
  intros [p Hp]. rewrite spec_global_position_eq, Hp. lia.
Qed.
End RiskFacts.

(** C2 (the code departs from the claim).  With a global position limit
    of 100 and no position recorded yet, a buy of 500 gives the specified
    sum 500 > 100, and [checkPositionLimit] still passes the order: its
    loop runs over the recorded positions only and never adds the order's
    own [|new_pos|]. *)
Theorem C2_global_position_skips_unrecorded_symbol :
  spec_global_position GlobalPositionCase.rm0 GlobalPositionCase.order0 = 500
  /\ global_position_limit_ GlobalPositionCase.rm0 = 100
  /\ global_total_pos (positions_ GlobalPositionCase.rm0) "AAPL" 500 = 0
  /\ checkPositionLimit GlobalPositionCase.rm0 GlobalPositionCase.order0
     = risk_pass.
Proof. vm_compute. repeat split; reflexivity. Qed.

Section NotionalFacts.
Implicit Types (rm : RiskManager) (order : Order).

(** When the hypothetical exposure of the order's symbol has the
    magnitude of its recorded one, the loop of the global notional check
    computes the total exposure. *)
Lemma global_total_exposure_same (exposures : gmap Symbol Q) sym new_exposure :
  (forall exp, exposures !! sym = Some exp ->
               (Qabs new_exposure == Qabs exp)%Q) ->
  (global_total_exposure exposures sym new_exposure
   == map_fold (fun _ exp total => (total + Qabs exp)%Q) 0%Q exposures)%Q.
Proof.
  intros Hsame. unfold global_total_exposure. rewrite !map_fold_foldr.
  assert (forall s e, (s, e) ∈ map_to_list exposures ->
                      exposures !! s = Some e) as Hin.
  { intros s e. apply elem_of_map_to_list. }
  induction (map_to_list exposures) as [|[s e] l IH]; simpl.
  - reflexivity.
  - assert (forall s' e', (s', e') ∈ l -> exposures !! s' = Some e') as Hl.
    { intros s' e' H. apply Hin. apply elem_of_cons. by right. }
    specialize (IH Hl).
    case_decide as Hs; (apply Qplus_comp; [exact IH|]); [|reflexivity].
    subst s. apply Hsame. apply Hin. apply elem_of_cons. by left.
Qed.

Lemma market_new_exposure rm order :
  (price order == 0)%Q ->
  (getNotionalExposure rm (symbol order)
   + inject_Z (direction (side order))
     * (price order * inject_Z (quantity order))
   == getNotionalExposure rm (symbol order))%Q.
Proof. intros ->. ring. Qed.
End NotionalFacts.

(** C10.  A Market order carries price 0, so its notional contribution
    [price * quantity] is 0 and the hypothetical exposure is the current
    one; when the current exposure of its symbol is within the per-symbol
    limit and, if a global limit is set, the total exposure is within the
    global limit, [checkNotionalLimit] passes the order whatever its
    quantity and side. *)
Theorem C10_market_order_passes_notional (rm : RiskManager) (order : Order) :
  type order = Market ->
  (price order == 0)%Q ->
  (Qabs (getNotionalExposure rm (symbol order))
   <= getNotionalLimit rm (symbol order))%Q ->
  ((0 < global_notional_limit_ rm)%Q ->
   (getTotalNotionalExposure rm <= global_notional_limit_ rm)%Q) ->
  (price order * inject_Z (quantity order) == 0)%Q
  /\ checkNotionalLimit rm order = risk_pass.
Proof.
  intros _ Hprice Hsym Hglobal. split; [rewrite Hprice; ring|].
  unfold checkNotionalLimit.
  pose proof (market_new_exposure rm order Hprice) as Hnew.
  assert (Qltb (getNotionalLimit rm (symbol order))
            (Qabs (getNotionalExposure rm (symbol order)
                   + inject_Z (direction (side order))
                     * (price order * inject_Z (quantity order)))) = false)
    as ->.
  { apply Qltb_ge. rewrite Hnew. exact Hsym. }
  destruct (Qltb 0 (global_notional_limit_ rm)) eqn:Eg; [|reflexivity].
  simpl. apply Qltb_lt in Eg.
  match goal with |- (if ?c then _ else _) = _ =>
    assert (c = false) as ->; [|reflexivity] end.
  apply Qltb_ge. rewrite global_total_exposure_same.
  - exact (Hglobal Eg).
  - intros exp Hexp. rewrite Hnew. unfold getNotionalExposure.
    rewrite Hexp. reflexivity.
Qed.

(** ** Matching engine *)

Section EngineFacts.
Implicit Types (e : MatchingEngine) (rm : RiskManager) (order : Order).

Lemma checkOrderRate_positions now rm :
  positions_ (snd (checkOrderRate now rm)) = positions_ rm
  /\ notional_exposures_ (snd (checkOrderRate now rm))
     = notional_exposures_ rm.
Proof.
  unfold checkOrderRate.
  destruct (order_rate_limit_ rm =? 0)%N; [done|].
  destruct (1 <=? _); simpl;
    match goal with |- context [if ?c then _ else _] => destruct c end;
    done.
Qed.

(** [checkOrder] touches the rate window only. *)
Lemma checkOrder_positions now rm order :
  positions_ (snd (checkOrder now rm order)) = positions_ rm
  /\ notional_exposures_ (snd (checkOrder now rm order))
     = notional_exposures_ rm.
Proof.
  unfold checkOrder.
  pose proof (checkOrderRate_positions now rm) as H.
  destruct (checkOrderRate now rm) as [rate_check rm1]. simpl in H.
  repeat match goal with
         | |- context [if negb ?c then _ else _] => destruct c; simpl
         end; exact H.
Qed.

Lemma getOrCreateOrderBook_insert (books : gmap Symbol OrderBook) sym :
  <[sym := fst (getOrCreateOrderBook books sym)]>
    (snd (getOrCreateOrderBook books sym))
  = snd (getOrCreateOrderBook books sym).
Proof.
  unfold getOrCreateOrderBook. destruct (books !! sym) eqn:E; simpl.
  - by apply insert_id.
  - by rewrite insert_insert_eq.
Qed.

(** An order with nothing left to fill goes through [matchOrder]
    untouched. *)
Lemma matchOrder_nothing_remaining fill_cb total_fills book order :
  remaining_qty order <= 0 ->
  matchOrder fill_cb total_fills book order
  = Some (mkMatchResult [] book order total_fills []).
Proof.
  intros H. unfold matchOrder.
  assert ((0 <? remaining_qty order) = false) as -> by lia.
  simpl. assert ((0 <? remaining_qty order) = false) as -> by lia. done.
Qed.

(** The limit of a Market sell never closes the gate. *)
Lemma market_sell_gate_open order level :
  type order = Market -> side order = Sell ->
  price_gate (side order) (effective_limit order) level = false.
Proof.
  intros Ht Hs. unfold price_gate, effective_limit. rewrite Ht, Hs. done.
Qed.

(** The limit of a Market buy closes the gate exactly at the levels
    priced above 1e12. *)
Lemma market_buy_gate order level :
  type order = Market -> side order = Buy ->
  price_gate (side order) (effective_limit order) level = true
  <-> (1e12 < level_price level)%Q.
Proof.
  intros Ht Hs. unfold price_gate, effective_limit. rewrite Ht, Hs.
  change (Qltb 0 1e12) with true. simpl. apply Qltb_lt.
Qed.
End EngineFacts.

(** C8.  When the configured risk gate rejects the order, [submitOrder]
    returns no fills.  The order callback, if one is installed, receives
    exactly one event, the submitted order with status [Rejected] and
    every other field as submitted; without an order callback nothing is
    delivered.  No order book is created or changed, the positions and
    notional exposures of the risk manager are as they were,
    [total_orders_] has gone up by one (modulo 2^64) and [total_fills_]
    is unchanged. *)
Theorem C8_risk_rejection (now : Timestamp) (e : MatchingEngine)
    (rm : RiskManager) (order : Order) :
  risk_manager_ e = Some rm ->
  passed (fst (checkOrder now rm order)) = false ->
  exists e' rm',
    submitOrder now e order
    = Some ([],
            (if order_callback_ e
             then [OrderEvent
                     (mkOrder (id order) (symbol order) (side order)
                        (type order) (price order) (quantity order)
                        (filled_qty order) Rejected (timestamp order))]
             else []),
            e')
    /\ order_books_ e' = order_books_ e
    /\ risk_manager_ e' = Some rm'
    /\ positions_ rm' = positions_ rm
    /\ notional_exposures_ rm' = notional_exposures_ rm
    /\ total_orders_ e' = ((total_orders_ e + 1) mod 2 ^ 64)%N
    /\ total_fills_ e' = total_fills_ e.
Proof.
  intros Hrm Hrej. unfold submitOrder. rewrite Hrm.
  pose proof (checkOrder_positions now rm order) as [Hp Hn].
  destruct (checkOrder now rm order) as [result rm'] eqn:E.
  simpl in *. rewrite Hrej. simpl.
  assert (notifyOrder (order_callback_ e) (reject order)
          = if order_callback_ e
            then [OrderEvent
                    (mkOrder (id order) (symbol order) (side order)
                       (type order) (price order) (quantity order)
                       (filled_qty order) Rejected (timestamp order))]
            else []) as -> by (unfold notifyOrder; by destruct order).
  eexists _, rm'. split; [reflexivity|].
  by do 5 (split; [done|]).
Qed.

(** C4, as stated, fails: with the order callback installed and no risk
    gate, an order for quantity 0 is notified with status [New]. *)
Lemma C4_zero_quantity_not_rejected :
  invalid_parameters ZeroQuantityCase.order0
  /\ ~ submit_rejects 0 ZeroQuantityCase.e0 ZeroQuantityCase.order0.
Proof.
  split; [left; simpl; lia|].
  intros (events & e' & Hsub & Hst).
  vm_compute in Hsub. injection Hsub as <- _.
  specialize (Hst ZeroQuantityCase.order0).
  assert (status ZeroQuantityCase.order0 = Rejected) as H.
  { apply Hst. apply elem_of_cons. by left. }
  discriminate H.
Qed.

(** C4, amended.  An order with no remaining quantity (zero or negative
    quantity) that the risk gate, if any, lets through yields no fills and
    is notified exactly as it was submitted, its status unchanged; the
    only change to the books is that an empty book is created for a
    symbol that had none, and the fill counter and the risk positions are
    unchanged. *)
Theorem C4_nothing_to_fill_passes_through (now : Timestamp)
    (e : MatchingEngine) (order : Order) :
  remaining_qty order <= 0 ->
  (forall rm, risk_manager_ e = Some rm ->
              passed (fst (checkOrder now rm order)) = true) ->
  exists e',
    submitOrder now e order
    = Some ([], notifyOrder (order_callback_ e) order, e')
    /\ order_books_ e'
       = snd (getOrCreateOrderBook (order_books_ e) (symbol order))
    /\ total_orders_ e' = incr64 (total_orders_ e)
    /\ total_fills_ e' = total_fills_ e
    /\ (forall rm, risk_manager_ e = Some rm ->
        exists rm', risk_manager_ e' = Some rm'
                    /\ positions_ rm' = positions_ rm
                    /\ notional_exposures_ rm' = notional_exposures_ rm).
Proof.
  intros Hrem Hrisk. unfold submitOrder.
  pose proof (getOrCreateOrderBook_insert (order_books_ e) (symbol order))
    as Hins.
  destruct (getOrCreateOrderBook (order_books_ e) (symbol order))
    as [book books] eqn:Eb. simpl in Hins.
  destruct (risk_manager_ e) as [rm|] eqn:Erm.
  - specialize (Hrisk rm eq_refl).
    pose proof (checkOrder_positions now rm order) as [Hp Hn].
    destruct (checkOrder now rm order) as [result rm'] eqn:E.
    simpl in *. rewrite Hrisk. simpl.
    rewrite matchOrder_nothing_remaining by done. simpl.
    eexists. repeat split; try done.
    intros rm0 [= <-]. exists rm'. done.
  - simpl. rewrite matchOrder_nothing_remaining by done. simpl.
    eexists. repeat split; done.
Qed.

(** An order with a negative price is not refused either: its limit
    does not arm the price gate, so it trades at the resting price. *)
Example negative_price_buy_is_matched :
  invalid_parameters NegativePriceCase.order0
  /\ (e ← NegativePriceCase.e0;
      r ← submitOrder 0 e NegativePriceCase.order0;
      Some (Scenario.brief <$> (r.1.1 : list Fill)))
     = Some [(150%Q, 100)].
Proof. split; [right; reflexivity | vm_compute; reflexivity]. Qed.

(** C5 (the code departs from the claim).  A Market buy of 100 against a
    resting sell of 100 at 2e12 is handed the limit 1e12, is stopped by
    the price gate, gets no fill and is cancelled; the sell stays at the
    top of the book. *)
Theorem C5_market_buy_stopped_above_sentinel :
  effective_limit MarketBuyCase.market_buy = 1e12%Q
  /\ (e ← MarketBuyCase.e0; book ← getOrderBook e "AAPL"; getBestAsk book)
     = Some (2e12%Q, 100)
  /\ (e ← MarketBuyCase.e0;
      r ← submitOrder 0 e MarketBuyCase.market_buy;
      Some (r.1.1, r.1.2, getOrderBook r.2 "AAPL" ≫= getBestAsk))
     = Some ([], [OrderEvent (cancel MarketBuyCase.market_buy)],
             Some (2e12%Q, 100)).
Proof. vm_compute. repeat split; reflexivity. Qed.

(** ** Orders and levels *)

Lemma apply_fill_id q o : id (apply_fill q o) = id o.
Proof. reflexivity. Qed.

Lemma apply_fill_price q o : price (apply_fill q o) = price o.
Proof. reflexivity. Qed.

Lemma apply_fill_remaining q o :
  remaining_qty (apply_fill q o) = remaining_qty o - q.
Proof. unfold remaining_qty. simpl. lia. Qed.

Lemma is_filled_apply_fill q o :
  is_filled (apply_fill q o) = (remaining_qty o <=? q).
Proof.
  unfold is_filled, remaining_qty. simpl.
  destruct (Z.leb_spec (quantity o) (filled_qty o + q));
    destruct (Z.leb_spec (quantity o - filled_qty o) q); lia.
Qed.

Lemma sum_remaining_app l1 l2 :
  sum_remaining (l1 ++ l2) = sum_remaining l1 + sum_remaining l2.
Proof. induction l1 as [|o l1 IH]; simpl; lia. Qed.

Section Nodes.
Implicit Types (oid : OrderId) (o : Order) (l : list Order).

Lemma level_node_Some oid level o :
  level_node oid level = Some o -> o ∈ orders level /\ id o = oid.
Proof.
  unfold level_node. induction (orders level) as [|o' l IH]; simpl;
    [discriminate|].
  destruct (N.eqb_spec (id o') oid) as [Heq | Hne].
  - intros [= ->]. split; [apply elem_of_cons; by left | done].
  - intros H. destruct (IH H). split; [apply elem_of_cons; by right | done].
Qed.

Lemma level_node_elem oid level o :
  NoDup (id <$> orders level) -> o ∈ orders level -> id o = oid ->
  level_node oid level = Some o.
Proof.
  unfold level_node. induction (orders level) as [|o' l IH]; simpl;
    intros Hnd Hin Hid.
  - by apply elem_of_nil in Hin.
  - apply NoDup_cons in Hnd as [Hnotin Hnd].
    apply elem_of_cons in Hin as [-> | Hin].
    + subst oid. by rewrite N.eqb_refl.
    + destruct (N.eqb_spec (id o') oid) as [Heq | Hne]; [|by apply IH].
      exfalso. apply Hnotin. apply list_elem_of_fmap. exists o.
      split; [congruence | done].
Qed.

Lemma erase_node_elem oid l o : o ∈ erase_node oid l -> o ∈ l.
Proof.
  induction l as [|o' l IH]; simpl; [done|].
  destruct (id o' =? oid)%N; rewrite !elem_of_cons; [auto|].
  intros [-> | H]; auto.
Qed.

Lemma erase_node_keeps oid l o :
  o ∈ l -> id o <> oid -> o ∈ erase_node oid l.
Proof.
  induction l as [|o' l IH]; simpl; [done|].
  intros [-> | Hin]%elem_of_cons Hne.
  - destruct (N.eqb_spec (id o') oid); [done|]. apply elem_of_cons. by left.
  - destruct (N.eqb_spec (id o') oid); [done|].
    apply elem_of_cons. right. by apply IH.
Qed.

Lemma erase_node_NoDup oid l :
  NoDup (id <$> l) -> NoDup (id <$> erase_node oid l).
Proof.
  induction l as [|o' l IH]; simpl; [done|].
  intros [Hnotin Hnd]%NoDup_cons.
  destruct (N.eqb_spec (id o') oid); [done|].
  simpl. apply NoDup_cons. split; [|by apply IH].
  intros (o & Hid & Hin)%list_elem_of_fmap. apply Hnotin.
  apply list_elem_of_fmap. exists o. split; [done|].
  by eapply erase_node_elem.
Qed.

Lemma erase_node_gone oid l o :
  NoDup (id <$> l) -> o ∈ erase_node oid l -> id o <> oid.
Proof.
  induction l as [|o' l IH]; simpl; [by intros _ H%elem_of_nil|].
  intros [Hnotin Hnd]%NoDup_cons.
  destruct (N.eqb_spec (id o') oid) as [Heq | Hne].
  - intros Hin Hid. apply Hnotin. apply list_elem_of_fmap.
    exists o. split; [congruence | done].
  - intros [-> | Hin]%elem_of_cons; [done | by apply IH].
Qed.

Lemma erase_node_sum oid level o :
  level_node oid level = Some o ->
  sum_remaining (erase_node oid (orders level))
  = sum_remaining (orders level) - remaining_qty o.
Proof.
  unfold level_node. induction (orders level) as [|o' l IH]; simpl;
    [discriminate|].
  destruct (N.eqb_spec (id o') oid).
  - intros [= ->]. lia.
  - intros H. simpl. rewrite (IH H). lia.
Qed.

Lemma node_set_quantity_ids oid q l :
  id <$> node_set_quantity oid q l = id <$> l.
Proof.
  induction l as [|o' l IH]; simpl; [done|].
  destruct (id o' =? oid)%N; csimpl; [done | by rewrite IH].
Qed.

Lemma node_set_quantity_nil oid q l :
  node_set_quantity oid q l = [] -> l = [].
Proof. destruct l as [|o' l]; simpl; [done|]. by destruct (id o' =? oid)%N. Qed.

Lemma node_set_quantity_elem oid q l o :
  o ∈ node_set_quantity oid q l ->
  exists o0, o0 ∈ l /\ id o = id o0 /\ price o = price o0.
Proof.
  induction l as [|o' l IH]; simpl; [by intros H%elem_of_nil|].
  destruct (id o' =? oid)%N.
  - intros [-> | Hin]%elem_of_cons.
    + exists o'. split; [apply elem_of_cons; by left | done].
    + exists o. split; [apply elem_of_cons; by right | done].
  - intros [-> | Hin]%elem_of_cons.
    + exists o'. split; [apply elem_of_cons; by left | done].
    + destruct (IH Hin) as (o0 & H1 & H2). exists o0.
      split; [apply elem_of_cons; by right | done].
Qed.

Lemma node_set_quantity_keeps oid q l o0 :
  o0 ∈ l -> exists o, o ∈ node_set_quantity oid q l /\ id o = id o0.
Proof.
  induction l as [|o' l IH]; simpl; [by intros H%elem_of_nil|].
  intros [-> | Hin]%elem_of_cons.
  - destruct (id o' =? oid)%N; eexists; (split; [apply elem_of_cons; by left|]);
      done.
  - destruct (id o' =? oid)%N.
    + exists o0. split; [apply elem_of_cons; by right | done].
    + destruct (IH Hin) as (o & H1 & H2). exists o.
      split; [apply elem_of_cons; by right | done].
Qed.

Lemma node_set_quantity_sum oid q level o :
  level_node oid level = Some o ->
  sum_remaining (node_set_quantity oid q (orders level))
  = sum_remaining (orders level) + (q - quantity o).
Proof.
  unfold level_node. induction (orders level) as [|o' l IH]; simpl;
    [discriminate|].
  destruct (N.eqb_spec (id o') oid).
  - intros [= ->]. simpl. unfold remaining_qty. simpl. lia.
  - intros H. simpl. rewrite (IH H). lia.
Qed.

Lemma node_set_quantity_node oid q level o :
  level_node oid level = Some o ->
  List.find (fun o' => N.eqb (id o') oid)
    (node_set_quantity oid q (orders level))
  = Some (set_quantity q o).
Proof.
  unfold level_node. induction (orders level) as [|o' l IH]; simpl;
    [discriminate|].
  destruct (N.eqb_spec (id o') oid) as [Heq | Hne].
  - intros [= ->]. simpl. subst oid. by rewrite N.eqb_refl.
  - intros H. simpl. destruct (N.eqb_spec (id o') oid); [done | by apply IH].
Qed.
End Nodes.

(** ** Books *)

Section SetSide.
Implicit Types (b : OrderBook) (s : Side).

Lemma side_levels_set_side s lv ids lk b :
  side_levels s (set_side s lv ids lk b) = lv.
Proof. by destruct s. Qed.

Lemma side_levels_set_side_ne s s' lv ids lk b :
  s' <> s -> side_levels s' (set_side s lv ids lk b) = side_levels s' b.
Proof. by destruct s, s'. Qed.

Lemma order_lookup_set_side s lv ids lk b :
  order_lookup_ (set_side s lv ids lk b) = lk.
Proof. by destruct s. Qed.

Lemma set_side_same s b :
  set_side s (side_levels s b) (side_orders s b) (order_lookup_ b) b = b.
Proof. by destruct s, b. Qed.

Lemma opposite_ne s : opposite s <> s.
Proof. by destruct s. Qed.
End SetSide.

Lemma new_OrderBook_wf sym : book_wf (new_OrderBook sym).
Proof.
  split.
  - by intros [].
  - intros [] k level H; by apply elem_of_nil in H.
  - intros [] k level H; by apply elem_of_nil in H.
  - intros [] k level H; by apply elem_of_nil in H.
  - intros [] k level o H; by apply elem_of_nil in H.
  - intros oid loc H. simpl in H. by rewrite lookup_empty in H.
Qed.

(** In a well-formed book an id designates one order. *)
Lemma wf_unique b s1 k1 L1 o1 s2 k2 L2 o2 :
  book_wf b ->
  (k1, L1) ∈ side_levels s1 b -> o1 ∈ orders L1 ->
  (k2, L2) ∈ side_levels s2 b -> o2 ∈ orders L2 ->
  id o1 = id o2 ->
  s1 = s2 /\ k1 = k2 /\ L1 = L2 /\ o1 = o2.
Proof.
  intros Hwf H1 Ho1 H2 Ho2 Hid.
  destruct (wf_indexed b Hwf _ _ _ _ H1 Ho1) as [Hl1 He1].
  destruct (wf_indexed b Hwf _ _ _ _ H2 Ho2) as [Hl2 He2].
  rewrite Hid, Hl2 in Hl1. injection Hl1 as <- Hp.
  rewrite Hp in He2.
  assert (key_equiv (side_lt s2) k1 k2 = true) as Hk.
  { apply (key_equiv_trans _ _ (price o1)); [|done].
    by rewrite key_equiv_sym. }
  destruct (smap_sorted_unique _ _ _ _ _ _ (wf_sorted b Hwf s2) H1 H2 Hk)
    as [-> ->].
  repeat split.
  pose proof (wf_level_ids b Hwf _ _ _ H2) as Hnd.
  clear -Hnd Ho1 Ho2 Hid.
  induction (orders L2) as [|o l IH]; [by apply elem_of_nil in Ho1|].
  simpl in Hnd. apply NoDup_cons in Hnd as [Hnotin Hnd].
  apply elem_of_cons in Ho1 as [-> | Ho1];
    apply elem_of_cons in Ho2 as [-> | Ho2]; auto.
  - exfalso. apply Hnotin. apply list_elem_of_fmap. by exists o2.
  - exfalso. apply Hnotin. apply list_elem_of_fmap. by exists o1.
Qed.

(** The index entry of a resting order leads back to it. *)
Lemma wf_getOrder b s k level o :
  book_wf b -> (k, level) ∈ side_levels s b -> o ∈ orders level ->
  getOrder b (id o) = Some o.
Proof.
  intros Hwf Hin Ho.
  destruct (wf_indexed b Hwf _ _ _ _ Hin Ho) as [Hl He].
  unfold getOrder. rewrite Hl. simpl.
  rewrite (smap_find_elem _ _ _ _ _ (wf_sorted b Hwf s) Hin He).
  apply level_node_elem; [by eapply wf_level_ids | done | done].
Qed.

Lemma getOrder_Some b oid o :
  getOrder b oid = Some o ->
  exists loc k level,
    order_lookup_ b !! oid = Some loc
    /\ smap_find (side_lt (loc_side loc)) (loc_price loc)
         (side_levels (loc_side loc) b) = Some level
    /\ (k, level) ∈ side_levels (loc_side loc) b
    /\ key_equiv (side_lt (loc_side loc)) (loc_price loc) k = true
    /\ level_node oid level = Some o.
Proof.
  unfold getOrder. destruct (order_lookup_ b !! oid) as [loc|]; [|done].
  destruct (smap_find _ _ _) as [level|] eqn:Ef; [|done].
  intros Hn. destruct (smap_find_Some_elem _ _ _ _ Ef) as (k & Hin & He).
  by exists loc, k, level.
Qed.

(** In a well-formed book every indexed id resolves. *)
Lemma wf_lookup_getOrder b oid loc :
  book_wf b -> order_lookup_ b !! oid = Some loc ->
  exists o, getOrder b oid = Some o
            /\ loc = mkLoc (loc_side loc) (price o).
Proof.
  intros Hwf Hl.
  destruct (wf_located b Hwf _ _ Hl) as (k & level & o & Hin & Ho & Hid).
  exists o. subst oid. split; [by eapply wf_getOrder|].
  destruct (wf_indexed b Hwf _ _ _ _ Hin Ho) as [Hl' _].
  rewrite Hl in Hl'. injection Hl' as ->. by destruct loc.
Qed.

(** *** addOrder keeps the book well formed *)

Lemma level_push_back_ok order level :
  total_quantity level = sum_remaining (orders level) ->
  level_ok (level_push_back order level).
Proof.
  intros Ht. split; simpl.
  - rewrite sum_remaining_app, Ht. simpl. lia.
  - by destruct (orders level).
Qed.

Lemma addOrder_accepted b order :
  fst (addOrder b order) = true ->
  isValidOrder order = true
  /\ order_lookup_ b !! id order = None
  /\ snd (addOrder b order)
     = set_side (side order)
         (smap_subscript (side_lt (side order)) (price order) new_PriceLevel
            (level_push_back order) (side_levels (side order) b))
         ({[id order]} ∪ side_orders (side order) b)
         (<[id order := mkLoc (side order) (price order)]> (order_lookup_ b))
         b.
Proof.
  unfold addOrder. destruct (isValidOrder order); simpl; [|done].
  destruct (decide (is_Some (order_lookup_ b !! id order))) as [Hs | Hn];
    simpl; [done|].
  intros _. split; [done|]. split; [|done]. by apply eq_None_not_Some.
Qed.

Lemma addOrder_refused b order :
  fst (addOrder b order) = false -> snd (addOrder b order) = b.
Proof.
  unfold addOrder. destruct (isValidOrder order); simpl; [|done].
  by destruct (decide (is_Some (order_lookup_ b !! id order))).
Qed.

Lemma addOrder_wf b order : book_wf b -> book_wf (snd (addOrder b order)).
Proof.
  intros Hwf. destruct (fst (addOrder b order)) eqn:Eacc;
    [|by rewrite addOrder_refused].
  destruct (addOrder_accepted _ _ Eacc) as (_ & Hfresh & ->).
  set (s := side order).
  assert (forall s' k L o, (k, L) ∈ side_levels s' b -> o ∈ orders L ->
            id o <> id order) as Hnot.
  { intros s' k L o Hin Ho Hid.
    destruct (wf_indexed b Hwf _ _ _ _ Hin Ho) as [Hl _].
    rewrite Hid in Hl. congruence. }
  match goal with |- book_wf (set_side _ ?lv ?ids ?lk _) =>
    set (lv' := lv); set (ids' := ids); set (lk' := lk) end.
  assert (forall s' k L, (k, L) ∈ side_levels s' (set_side s lv' ids' lk' b) ->
            (k, L) ∈ side_levels s' b
            \/ (s' = s /\ key_equiv (side_lt s) (price order) k = true
                /\ exists L0, L = level_push_back order L0
                     /\ ((k, L0) ∈ side_levels s b
                         \/ (L0 = new_PriceLevel /\ k = price order))))
    as Hmem.
  { intros s' k L. destruct (decide (s' = s)) as [-> | Hne].
    - rewrite side_levels_set_side. unfold lv'.
      rewrite smap_elem_subscript by (apply _ || apply (wf_sorted b Hwf)).
      intros [[H _] | [(L0 & H1 & H2 & ->) | (H1 & -> & ->)]]; [by left | |].
      + right. repeat split; [done|]. exists L0. auto.
      + right. repeat split; [apply key_equiv_refl; apply _|].
        exists new_PriceLevel. auto.
    - rewrite side_levels_set_side_ne by done. by left. }
  split.
  - intros s'. destruct (decide (s' = s)) as [-> | Hne].
    + rewrite side_levels_set_side. apply smap_sorted_subscript; [apply _|].
      apply (wf_sorted b Hwf).
    + rewrite side_levels_set_side_ne by done. apply (wf_sorted b Hwf).
  - intros s' k L [Hin | (-> & He & L0 & -> & [Hin | [-> ->]])]%Hmem.
    + by eapply wf_level_ok.
    + apply level_push_back_ok. by eapply wf_level_ok.
    + by apply level_push_back_ok.
  - intros s' k L [Hin | (-> & He & L0 & -> & [Hin | [-> ->]])]%Hmem.
    + by eapply wf_level_price.
    + simpl. destruct (wf_level_ok b Hwf _ _ _ Hin) as [_ Hne].
      destruct (orders L0); [done|]. by eapply wf_level_price.
    + done.
  - intros s' k L [Hin | (-> & He & L0 & -> & [Hin | [-> ->]])]%Hmem.
    + by eapply wf_level_ids.
    + simpl. rewrite fmap_app. apply NoDup_app. split; [by eapply wf_level_ids|].
      split; [|apply NoDup_singleton].
      intros i (o & -> & Ho)%list_elem_of_fmap [= Hid]%list_elem_of_singleton.
      by eapply Hnot.
    + apply NoDup_singleton.
  - intros s' k L o Hin Ho. rewrite order_lookup_set_side. unfold lk'.
    apply Hmem in Hin as [Hin | (-> & He & L0 & -> & Hin)].
    + rewrite lookup_insert_ne by (apply not_eq_sym; by eapply Hnot).
      by eapply wf_indexed.
    + simpl in Ho. apply elem_of_app in Ho as [Ho | ->%list_elem_of_singleton].
      * destruct Hin as [Hin | [-> ->]]; [|by apply elem_of_nil in Ho].
        rewrite lookup_insert_ne by (apply not_eq_sym; by eapply Hnot).
        by eapply wf_indexed.
      * by rewrite lookup_insert_eq.
  - intros oid loc. rewrite order_lookup_set_side. unfold lk'.
    destruct (decide (id order = oid)) as [<- | Hne].
    + rewrite lookup_insert_eq. intros [= <-]. simpl.
      rewrite side_levels_set_side. unfold lv'.
      pose proof (smap_find_subscript (side_lt s) (price order) new_PriceLevel
                    (level_push_back order) (side_levels s b)) as Hf.
      destruct (smap_find_Some_elem _ _ _ _ Hf) as (k & Hin & He).
      eexists k, _, order. split; [exact Hin|]. split; [|done].
      simpl. apply elem_of_app. right. by apply list_elem_of_singleton.
    + rewrite lookup_insert_ne by done. intros Hl.
      destruct (wf_located b Hwf _ _ Hl) as (k & L & o & Hin & Ho & Hid).
      destruct (decide (loc_side loc = s)) as [Hs | Hns].
      * rewrite Hs in *. rewrite side_levels_set_side. unfold lv'.
        destruct (key_equiv (side_lt s) (price order) k) eqn:He.
        -- exists k, (level_push_back order L), o. split.
           ++ apply smap_elem_subscript; [apply _ | apply (wf_sorted b Hwf)|].
              right. left. by exists L.
           ++ split; [|done]. simpl. apply elem_of_app. by left.
        -- exists k, L, o. split; [|done].
           apply smap_elem_subscript; [apply _ | apply (wf_sorted b Hwf)|].
           by left.
      * rewrite side_levels_set_side_ne by done. by exists k, L, o.
Qed.

(** *** cancelOrder keeps the book well formed *)

Lemma level_excise_node oid level o :
  level_node oid level = Some o ->
  level_excise oid level
  = match erase_node oid (orders level) with
    | [] => None
    | _ :: _ =>
        Some (mkPriceLevel (level_price level)
                (total_quantity level - remaining_qty o)
                (erase_node oid (orders level)))
    end.
Proof.
  intros H. unfold level_excise. rewrite H.
  by destruct (erase_node oid (orders level)).
Qed.

Lemma level_excise_Some oid level o level' :
  level_node oid level = Some o ->
  level_excise oid level = Some level' ->
  level' = mkPriceLevel (level_price level)
             (total_quantity level - remaining_qty o)
             (erase_node oid (orders level))
  /\ erase_node oid (orders level) <> [].
Proof.
  intros H. rewrite (level_excise_node _ _ _ H).
  destruct (erase_node oid (orders level)); [done|]. by intros [= <-].
Qed.

Lemma cancelOrder_found b oid loc :
  order_lookup_ b !! oid = Some loc ->
  cancelOrder b oid
  = (true,
     set_side (loc_side loc)
       (smap_visit (side_lt (loc_side loc)) (loc_price loc)
          (level_excise oid) (side_levels (loc_side loc) b))
       (side_orders (loc_side loc) b ∖ {[oid]})
       (delete oid (order_lookup_ b)) b).
Proof. intros H. unfold cancelOrder. by rewrite H. Qed.

Lemma cancelOrder_unknown b oid :
  order_lookup_ b !! oid = None -> cancelOrder b oid = (false, b).
Proof. intros H. unfold cancelOrder. by rewrite H. Qed.

Lemma cancelOrder_wf b oid : book_wf b -> book_wf (snd (cancelOrder b oid)).
Proof.
  intros Hwf. destruct (order_lookup_ b !! oid) as [loc|] eqn:Hl;
    [|by rewrite cancelOrder_unknown].
  rewrite (cancelOrder_found _ _ _ Hl). simpl.
  destruct (wf_located b Hwf _ _ Hl) as (k & L & o & Hin & Ho & Hid).
  destruct (wf_indexed b Hwf _ _ _ _ Hin Ho) as [Hl' He].
  rewrite Hid, Hl in Hl'. injection Hl' as ->. simpl in *.
  set (s := loc_side loc) in *.
  pose proof (wf_sorted b Hwf s) as Hsorted.
  pose proof (wf_level_ids b Hwf _ _ _ Hin) as Hnd.
  assert (level_node oid L = Some o) as Hnode by by apply level_node_elem.
  match goal with |- book_wf (set_side _ ?lv ?ids ?lk _) =>
    set (lv' := lv); set (ids' := ids); set (lk' := lk) end.
  assert (forall s' k' L',
            (k', L') ∈ side_levels s' (set_side s lv' ids' lk' b) ->
            ((k', L') ∈ side_levels s' b
             /\ forall o', o' ∈ orders L' -> id o' <> oid)
            \/ (s' = s /\ k' = k /\ level_excise oid L = Some L'))
    as Hmem.
  { intros s' k' L'. destruct (decide (s' = s)) as [-> | Hne].
    - rewrite side_levels_set_side. unfold lv'.
      rewrite smap_elem_visit by (apply _ || done).
      intros [[H Hk] | (L0 & H1 & H2 & H3)].
      + left. split; [done|]. intros o' Ho' Hid'.
        destruct (wf_unique b _ _ _ _ _ _ _ _ Hwf H Ho' Hin Ho)
          as (_ & -> & _); congruence.
      + right.
        assert (key_equiv (side_lt s) k' k = true) as Hk.
        { apply (key_equiv_trans _ _ (price o)); [|done].
          by rewrite key_equiv_sym. }
        destruct (smap_sorted_unique _ _ _ _ _ _ Hsorted H1 Hin Hk)
          as [-> ->]. done.
    - rewrite side_levels_set_side_ne by done. intros H. left.
      split; [done|]. intros o' Ho' Hid'.
      destruct (wf_unique b _ _ _ _ _ _ _ _ Hwf H Ho' Hin Ho)
        as (-> & _); congruence. }
  split.
  - intros s'. destruct (decide (s' = s)) as [-> | Hne].
    + rewrite side_levels_set_side. by apply smap_sorted_visit.
    + rewrite side_levels_set_side_ne by done. apply (wf_sorted b Hwf).
  - intros s' k' L' [[H _] | (-> & -> & Hex)]%Hmem; [by eapply wf_level_ok|].
    destruct (level_excise_Some _ _ _ _ Hnode Hex) as [-> Hne].
    split; simpl; [|done].
    rewrite (erase_node_sum _ _ _ Hnode).
    destruct (wf_level_ok b Hwf _ _ _ Hin) as [-> _]. done.
  - intros s' k' L' [[H _] | (-> & -> & Hex)]%Hmem; [by eapply wf_level_price|].
    destruct (level_excise_Some _ _ _ _ Hnode Hex) as [-> Hne]. simpl.
    by eapply wf_level_price.
  - intros s' k' L' [[H _] | (-> & -> & Hex)]%Hmem; [by eapply wf_level_ids|].
    destruct (level_excise_Some _ _ _ _ Hnode Hex) as [-> Hne]. simpl.
    by apply erase_node_NoDup.
  - intros s' k' L' o' [[H Hids] | (-> & -> & Hex)]%Hmem Ho';
      rewrite order_lookup_set_side; unfold lk'.
    + rewrite lookup_delete_ne by (apply not_eq_sym; by apply Hids).
      by eapply wf_indexed.
    + destruct (level_excise_Some _ _ _ _ Hnode Hex) as [-> Hne].
      simpl in Ho'.
      rewrite lookup_delete_ne
        by (apply not_eq_sym; by eapply erase_node_gone).
      eapply wf_indexed; [done | exact Hin | by eapply erase_node_elem].
  - intros oid' loc'. rewrite order_lookup_set_side. unfold lk'.
    destruct (decide (oid = oid')) as [<- | Hne];
      [by rewrite lookup_delete_eq|].
    rewrite lookup_delete_ne by done. intros Hl'.
    destruct (wf_located b Hwf _ _ Hl') as (k' & L' & o' & Hin' & Ho' & Hid').
    destruct (decide (loc_side loc' = s)) as [Hs | Hns].
    + rewrite Hs in *. rewrite side_levels_set_side. unfold lv'.
      destruct (key_equiv (side_lt s) (price o) k') eqn:He'.
      * assert (key_equiv (side_lt s) k' k = true) as Hk.
        { apply (key_equiv_trans _ _ (price o)); [|done].
          by rewrite key_equiv_sym. }
        destruct (smap_sorted_unique _ _ _ _ _ _ Hsorted Hin' Hin Hk)
          as [-> ->].
        assert (o' ∈ erase_node oid (orders L)) as Hsurv.
        { apply erase_node_keeps; [done | congruence]. }
        pose proof (level_excise_node _ _ _ Hnode) as Hex.
        destruct (erase_node oid (orders L)) as [|o1 l1] eqn:Eer;
          [by apply elem_of_nil in Hsurv|].
        eexists k, _, o'. split.
        -- apply smap_elem_visit; [apply _ | done|]. right.
           exists L. split; [done|]. split; [done | exact Hex].
        -- done.
      * exists k', L', o'. split; [|done].
        apply smap_elem_visit; [apply _ | done|]. by left.
    + rewrite side_levels_set_side_ne by done. by exists k', L', o'.
Qed.

(** *** modifyOrder keeps the book well formed *)

Lemma modify_in_place_wf b oid loc old nq :
  book_wf b ->
  order_lookup_ b !! oid = Some loc ->
  getOrder b oid = Some old ->
  book_wf
    (set_side (loc_side loc)
       (smap_subscript (side_lt (loc_side loc)) (loc_price loc) new_PriceLevel
          (level_requantify oid nq (nq - quantity old))
          (side_levels (loc_side loc) b))
       (side_orders (loc_side loc) b) (order_lookup_ b) b).
Proof.
  intros Hwf Hl Hget.
  destruct (getOrder_Some _ _ _ Hget)
    as (loc0 & k & L & Hl0 & Hfind & Hin & He & Hnode).
  rewrite Hl in Hl0. injection Hl0 as <-.
  set (s := loc_side loc) in *.
  pose proof (wf_sorted b Hwf s) as Hsorted.
  match goal with |- book_wf (set_side _ ?lv _ _ _) => set (lv' := lv) end.
  assert (forall s' k' L',
            (k', L') ∈ side_levels s'
                         (set_side s lv' (side_orders s b) (order_lookup_ b) b) ->
            (k', L') ∈ side_levels s' b
            \/ (s' = s /\ k' = k
                /\ L' = level_requantify oid nq (nq - quantity old) L))
    as Hmem.
  { intros s' k' L'. destruct (decide (s' = s)) as [-> | Hne].
    - rewrite side_levels_set_side. unfold lv'.
      rewrite smap_elem_subscript by (apply _ || done).
      intros [[H _] | [(L0 & H1 & H2 & ->) | (H1 & _)]]; [by left | |congruence].
      right.
      assert (key_equiv (side_lt s) k' k = true) as Hk.
      { apply (key_equiv_trans _ _ (loc_price loc)); [|done].
        by rewrite key_equiv_sym. }
      by destruct (smap_sorted_unique _ _ _ _ _ _ Hsorted H1 Hin Hk)
        as [-> ->].
    - rewrite side_levels_set_side_ne by done. by left. }
  split.
  - intros s'. destruct (decide (s' = s)) as [-> | Hne].
    + rewrite side_levels_set_side. unfold lv'.
      apply smap_sorted_subscript; [apply _ | done].
    + rewrite side_levels_set_side_ne by done. apply (wf_sorted b Hwf).
  - intros s' k' L' [H | (-> & -> & ->)]%Hmem; [by eapply wf_level_ok|].
    destruct (wf_level_ok b Hwf _ _ _ Hin) as [Ht Hne].
    split; simpl.
    + rewrite (node_set_quantity_sum _ _ _ _ Hnode), Ht. done.
    + intros H%node_set_quantity_nil. done.
  - intros s' k' L' [H | (-> & -> & ->)]%Hmem; [by eapply wf_level_price|].
    simpl. by eapply wf_level_price.
  - intros s' k' L' [H | (-> & -> & ->)]%Hmem; [by eapply wf_level_ids|].
    simpl. rewrite node_set_quantity_ids. by eapply wf_level_ids.
  - intros s' k' L' o' [H | (-> & -> & ->)]%Hmem Ho';
      rewrite order_lookup_set_side; [by eapply wf_indexed|].
    simpl in Ho'.
    destruct (node_set_quantity_elem _ _ _ _ Ho') as (o0 & Ho0 & -> & ->).
    by eapply wf_indexed.
  - intros oid' loc'. rewrite order_lookup_set_side. intros Hl'.
    destruct (wf_located b Hwf _ _ Hl') as (k' & L' & o' & Hin' & Ho' & Hid').
    destruct (decide (loc_side loc' = s)) as [Hs | Hns].
    + rewrite Hs in *. rewrite side_levels_set_side. unfold lv'.
      destruct (key_equiv (side_lt s) (loc_price loc) k') eqn:He'.
      * assert (key_equiv (side_lt s) k' k = true) as Hk.
        { apply (key_equiv_trans _ _ (loc_price loc)); [|done].
          by rewrite key_equiv_sym. }
        destruct (smap_sorted_unique _ _ _ _ _ _ Hsorted Hin' Hin Hk)
          as [-> ->].
        destruct (node_set_quantity_keeps oid nq _ _ Ho') as (o1 & Ho1 & Hid1).
        eexists k, _, o1. split.
        -- apply smap_elem_subscript; [apply _ | done|]. right. left.
           by exists L.
        -- split; [exact Ho1 | congruence].
      * exists k', L', o'. split; [|done].
        apply smap_elem_subscript; [apply _ | done|]. by left.
    + rewrite side_levels_set_side_ne by done. by exists k', L', o'.
Qed.

Lemma modifyOrder_wf now b oid new_price new_quantity :
  book_wf b -> book_wf (snd (modifyOrder now b oid new_price new_quantity)).
Proof.
  intros Hwf. unfold modifyOrder.
  destruct (order_lookup_ b !! oid) as [loc|] eqn:Hl; [|done].
  destruct (getOrder b oid) as [old|] eqn:Hget; [|done].
  destruct (Qltb 0 new_price && negb (Qeq_bool new_price (loc_price loc))).
  - apply addOrder_wf. by apply cancelOrder_wf.
  - destruct ((0 <? new_quantity) && negb (new_quantity =? quantity old));
      [|done].
    simpl. by apply modify_in_place_wf.
Qed.

(** ** executeFill against the specified algorithm *)

Section MatchRefinement.
Variables (sym : Symbol) (aggressor_side : Side) (aggressor_id : OrderId).

Lemma st_after_nil st : st_after st [] (m_remaining st) [] = st.
Proof. destruct st. unfold st_after. simpl. by rewrite app_nil_r. Qed.

Lemma st_after_st_after st f1 r1 e1 f2 r2 e2 :
  st_after (st_after st f1 r1 e1) f2 r2 e2
  = st_after st (f1 ++ f2) r2 (e1 ++ e2).
Proof.
  unfold st_after. simpl. by rewrite app_assoc, !foldl_app.
Qed.

(** A head order that is not filled completely leaves nothing of the
    request. *)
Lemma partial_fill_exhausts remaining P :
  is_filled (apply_fill (Z.min remaining (remaining_qty P)) P) = false ->
  Z.min remaining (remaining_qty P) = remaining.
Proof. rewrite is_filled_apply_fill. lia. Qed.

(** The inner loop computes [spec_consume]; fuel equal to the number of
    orders of the level is enough. *)
Lemma match_level_spec fuel level st :
  (length (orders level) <= fuel)%nat ->
  match_level fuel sym aggressor_side aggressor_id level st
  = let c := spec_consume sym aggressor_side aggressor_id
               (level_price level) (m_remaining st) (orders level) in
    Some (mkPriceLevel (level_price level)
            (total_quantity level - (m_remaining st - sp_remaining c))
            (sp_rest c),
          st_after st (sp_fills c) (sp_remaining c) (sp_evicted c)).
Proof.
  revert level st. induction fuel as [|fuel IH]; intros [p t os] st Hfuel;
    simpl in Hfuel.
  - destruct os; [|simpl in Hfuel; lia]. simpl.
    rewrite st_after_nil, Z.sub_diag, Z.sub_0_r.
    by destruct (0 <? m_remaining st).
  - destruct os as [|P later]; simpl.
    { rewrite st_after_nil, Z.sub_diag, Z.sub_0_r.
      by destruct (0 <? m_remaining st). }
    destruct (0 <? m_remaining st) eqn:Erem; simpl.
    2:{ by rewrite st_after_nil, Z.sub_diag, Z.sub_0_r. }
    set (q := Z.min (m_remaining st) (remaining_qty P)).
    destruct (is_filled (apply_fill q P)) eqn:Efilled.
    + rewrite IH by (simpl in *; lia). unfold st_after. simpl.
      rewrite <- app_assoc. simpl. do 3 f_equal. lia.
    + pose proof (partial_fill_exhausts _ _ Efilled) as Hq. fold q in Hq.
      destruct fuel as [|fuel]; simpl;
        replace (m_remaining st - q) with 0 by lia; simpl.
      all: unfold st_after; simpl; do 3 f_equal; lia.
Qed.

(** A level that keeps orders after [spec_consume] has exhausted the
    request. *)
Lemma spec_consume_exhausts L_price remaining os :
  0 < remaining ->
  sp_rest (spec_consume sym aggressor_side aggressor_id L_price remaining os)
  <> [] ->
  sp_remaining
    (spec_consume sym aggressor_side aggressor_id L_price remaining os) <= 0.
Proof.
  revert remaining. induction os as [|P later IH]; intros remaining Hpos;
    simpl; [done|].
  assert ((0 <? remaining) = true) as -> by lia.
  destruct (is_filled _) eqn:Efilled; simpl.
  - intros Hrest.
    destruct (Z.ltb_spec 0 (remaining - Z.min remaining (remaining_qty P)))
      as [Hlt | Hle]; [by apply IH|].
    destruct later; simpl in *; [done|].
    assert ((0 <? remaining - Z.min remaining (remaining_qty P)) = false)
      as Hf by lia.
    rewrite Hf. simpl. lia.
  - intros _. rewrite (partial_fill_exhausts _ _ Efilled). lia.
Qed.

Lemma price_gate_spec limit_price level :
  price_gate aggressor_side limit_price level
  = bool_decide (spec_gate_stops aggressor_side limit_price
                   (level_price level)).
Proof.
  unfold price_gate, spec_gate_stops.
  destruct (Qltb 0 limit_price) eqn:E0; simpl.
  - apply Qltb_lt in E0. destruct aggressor_side.
    + destruct (Qltb limit_price (level_price level)) eqn:E1.
      * apply Qltb_lt in E1. symmetry. by apply bool_decide_eq_true.
      * apply Qltb_ge in E1. symmetry. apply bool_decide_eq_false.
        intros [_ H]. by apply Qlt_not_le in H.
    + destruct (Qltb (level_price level) limit_price) eqn:E1.
      * apply Qltb_lt in E1. symmetry. by apply bool_decide_eq_true.
      * apply Qltb_ge in E1. symmetry. apply bool_decide_eq_false.
        intros [_ H]. by apply Qlt_not_le in H.
  - apply Qltb_ge in E0. symmetry. apply bool_decide_eq_false.
    intros [H _]. by apply Qlt_not_le in H.
Qed.

(** The outer loop computes [spec_match]; fuel equal to the number of
    levels is enough. *)
Lemma match_levels_spec limit_price fuel levels st :
  (length levels <= fuel)%nat ->
  match_levels fuel sym aggressor_side aggressor_id limit_price levels st
  = let m := spec_match sym aggressor_side aggressor_id limit_price
               (m_remaining st) levels in
    Some (sp_rest m,
          st_after st (sp_fills m) (sp_remaining m) (sp_evicted m)).
Proof.
  revert levels st. induction fuel as [|fuel IH]; intros levels st Hfuel.
  - destruct levels; [|simpl in Hfuel; lia]. simpl.
    rewrite st_after_nil. by destruct (0 <? m_remaining st).
  - destruct levels as [|[k level] worse]; simpl.
    { rewrite st_after_nil. by destruct (0 <? m_remaining st). }
    destruct (0 <? m_remaining st) eqn:Erem; simpl;
      [|by rewrite st_after_nil].
    rewrite price_gate_spec.
    destruct (decide (spec_gate_stops aggressor_side limit_price
                        (level_price level))) as [Hgate | Hgate].
    { rewrite bool_decide_eq_true_2 by done. by rewrite st_after_nil. }
    rewrite bool_decide_eq_false_2 by done.
    rewrite match_level_spec by done. simpl.
    pose proof (spec_consume_exhausts (level_price level) (m_remaining st)
                  (orders level)) as Hex.
    destruct (sp_rest (spec_consume sym aggressor_side aggressor_id
                         (level_price level) (m_remaining st)
                         (orders level))) as [|o1 l1] eqn:Erest.
    + rewrite IH by (simpl in Hfuel; lia). simpl.
      by rewrite st_after_st_after.
    + assert (sp_remaining
                (spec_consume sym aggressor_side aggressor_id
                   (level_price level) (m_remaining st) (orders level)) <= 0)
        as Hdone by (apply Hex; [lia | done]).
      destruct fuel as [|fuel]; simpl;
        match goal with |- context [0 <? ?r] =>
          assert ((0 <? r) = false) as -> by lia end; done.
Qed.
End MatchRefinement.

Lemma executeFill_spec b aggressor_side qty limit_price aggressor_id :
  executeFill b aggressor_side qty limit_price aggressor_id
  = let m := spec_match (symbol_ b) aggressor_side aggressor_id limit_price
               qty (side_levels (opposite aggressor_side) b) in
    Some (sp_fills m, spec_book b aggressor_side m).
Proof.
  unfold executeFill. rewrite match_levels_spec by done. reflexivity.
Qed.

(** [executeFill] never runs out of fuel. *)
Lemma executeFill_total b aggressor_side qty limit_price aggressor_id :
  is_Some (executeFill b aggressor_side qty limit_price aggressor_id).
Proof. rewrite executeFill_spec. by eexists. Qed.

(** *** What the matching leaves behind *)

Section MatchShape.
Variables (sym : Symbol) (aggressor_side : Side) (aggressor_id : OrderId).

(** [spec_consume] evicts a prefix of the level and keeps the rest, the
    first kept order possibly filled in part. *)
Lemma spec_consume_shape L_price remaining os :
  let c := spec_consume sym aggressor_side aggressor_id L_price remaining os
  in
  exists gone rest0,
    os = gone ++ rest0
    /\ sp_evicted c = id <$> gone
    /\ order_key <$> sp_rest c = order_key <$> rest0
    /\ sum_remaining (sp_rest c)
       = sum_remaining os - (remaining - sp_remaining c).
Proof.
  revert remaining. induction os as [|P later IH]; intros remaining; simpl.
  - exists [], []. repeat split. simpl. lia.
  - destruct (0 <? remaining) eqn:Erem; simpl.
    2:{ exists [], (P :: later). repeat split. simpl. lia. }
    destruct (is_filled _) eqn:Efilled; simpl.
    + destruct (IH (remaining - Z.min remaining (remaining_qty P)))
        as (gone & rest0 & -> & He & Hk & Hs).
      exists (P :: gone), rest0. repeat split.
      * simpl. by rewrite He.
      * done.
      * rewrite Hs. rewrite is_filled_apply_fill in Efilled. lia.
    + exists [], (P :: later). repeat split.
      rewrite apply_fill_remaining. lia.
Qed.

Lemma spec_match_shape limit_price remaining levels :
  let m := spec_match sym aggressor_side aggressor_id limit_price
             remaining levels in
  exists gone kept Eh,
    levels = gone ++ kept
    /\ sp_evicted m = (id <$> level_orders gone) ++ Eh
    /\ ((sp_rest m = kept /\ Eh = [])
        \/ exists k Lh tail done rest0 Lh',
             kept = (k, Lh) :: tail
             /\ sp_rest m = (k, Lh') :: tail
             /\ orders Lh = done ++ rest0
             /\ Eh = id <$> done
             /\ level_price Lh' = level_price Lh
             /\ total_quantity Lh' - sum_remaining (orders Lh')
                = total_quantity Lh - sum_remaining (orders Lh)
             /\ orders Lh' <> []
             /\ order_key <$> orders Lh' = order_key <$> rest0).
Proof.
  revert remaining. induction levels as [|[k L] worse IH]; intros remaining;
    simpl.
  - exists [], [], []. repeat split. by left.
  - destruct (0 <? remaining) eqn:Erem; simpl.
    2:{ exists [], ((k, L) :: worse), []. repeat split. by left. }
    destruct (decide (spec_gate_stops _ _ _)); simpl.
    { exists [], ((k, L) :: worse), []. repeat split. by left. }
    destruct (spec_consume_shape (level_price L) remaining (orders L))
      as (done & rest0 & Hos & He & Hk & Hs).
    destruct (sp_rest (spec_consume _ _ _ _ _ (orders L))) as [|o1 l1]
      eqn:Erest; simpl.
    + destruct rest0; [|done]. rewrite app_nil_r in Hos.
      destruct (IH (sp_remaining
                      (spec_consume sym aggressor_side aggressor_id
                         (level_price L) remaining (orders L))))
        as (gone & kept & Eh & -> & He' & Hcase).
      exists ((k, L) :: gone), kept, Eh. split; [done|]. split; [|done].
      rewrite He, He'. unfold level_orders. rewrite bind_cons. simpl.
      by rewrite fmap_app, Hos, app_assoc.
    + exists [], ((k, L) :: worse), (id <$> done). repeat split; [done|].
      right. eexists k, L, worse, done, rest0, _.
      repeat split; try done. cbn [total_quantity orders]. rewrite Hs. lia.
Qed.
End MatchShape.

Lemma lookup_foldl_delete {A} (lk : gmap OrderId A) (E : list OrderId) i :
  foldl (fun lk i => delete i lk) lk E !! i
  = if decide (i ∈ E) then None else lk !! i.
Proof.
  revert lk. induction E as [|e E IH]; intros lk; simpl.
  - done.
  - rewrite IH. repeat case_decide; try done.
    + exfalso. match goal with H : _ ∉ _ :: _ |- _ => apply H end.
      apply elem_of_cons. by right.
    + match goal with H : _ ∈ _ :: _ |- _ =>
        apply elem_of_cons in H as [-> | H]; [|done] end.
      by rewrite lookup_delete_eq.
    + rewrite lookup_delete_ne; [done|]. intros ->.
      match goal with H : _ ∉ _ :: _ |- _ => apply H end.
      apply elem_of_cons. by left.
Qed.

Lemma smap_sorted_app {K V} (lt : K -> K -> bool) (l1 l2 : list (K * V)) :
  smap_sorted lt (l1 ++ l2) ->
  smap_sorted lt l1 /\ smap_sorted lt l2
  /\ forall k1 v1 k2 v2, (k1, v1) ∈ l1 -> (k2, v2) ∈ l2 -> lt k1 k2 = true.
Proof.
  induction l1 as [|[k v] l1 IH]; simpl.
  - intros H. repeat split; [done|]. intros k1 v1 k2 v2 H1.
    by apply elem_of_nil in H1.
  - intros [Hb Hs]. destruct (IH Hs) as (H1 & H2 & H3).
    assert (forall k' v', (k', v') ∈ l1 ++ l2 -> lt k k' = true) as Hall.
    { clear -Hb. induction (l1 ++ l2) as [|[k0 v0] l IHl]; simpl in *.
      - intros k' v' H. by apply elem_of_nil in H.
      - destruct Hb as [Hk Hb]. intros k' v' [[= -> ->] | H]%elem_of_cons;
          [done | by eapply IHl]. }
    repeat split; try done.
    + clear -Hall. induction l1 as [|[k0 v0] l1 IHl]; simpl; [done|].
      split.
      * apply (Hall k0 v0). apply elem_of_cons. by left.
      * apply IHl. intros k' v' H. apply (Hall k' v').
        rewrite <- app_comm_cons. apply elem_of_cons. by right.
    + intros k1 v1 k2 v2 [[= -> ->] | Hin1]%elem_of_cons Hin2.
      * apply (Hall k2 v2). apply elem_of_app. by right.
      * by eapply H3.
Qed.

Lemma level_orders_elem levels o :
  o ∈ level_orders levels <->
  exists k level, (k, level) ∈ levels /\ o ∈ orders level.
Proof.
  unfold level_orders. rewrite list_elem_of_bind. split.
  - intros ([k level] & Ho & Hin). by exists k, level.
  - intros (k & level & Hin & Ho). by exists (k, level).
Qed.

(** *** executeFill keeps the book well formed *)

(** One side of a well-formed book is replaced by levels that hold what
    is left of its orders once the ids [E] are evicted. *)
Lemma wf_after_eviction b s lv' ids' (E : list OrderId) :
  book_wf b ->
  smap_sorted (side_lt s) lv' ->
  (forall i, i ∈ E ->
     exists k0 L0 o0,
       (k0, L0) ∈ side_levels s b /\ o0 ∈ orders L0 /\ id o0 = i) ->
  (forall k' L', (k', L') ∈ lv' ->
     exists L0,
       (k', L0) ∈ side_levels s b
       /\ level_price L' = level_price L0
       /\ level_ok L'
       /\ NoDup (id <$> orders L')
       /\ forall o', o' ∈ orders L' ->
            exists o0, o0 ∈ orders L0 /\ id o' = id o0
                       /\ price o' = price o0 /\ id o0 ∉ E) ->
  (forall k0 L0 o0,
     (k0, L0) ∈ side_levels s b -> o0 ∈ orders L0 -> id o0 ∉ E ->
     exists L' o', (k0, L') ∈ lv' /\ o' ∈ orders L' /\ id o' = id o0) ->
  book_wf (set_side s lv' ids'
             (foldl (fun lk i => delete i lk) (order_lookup_ b) E) b).
Proof.
  intros Hwf Hsorted HE Hmem Hsurv. split.
  - intros s'. destruct (decide (s' = s)) as [-> | Hne].
    + by rewrite side_levels_set_side.
    + rewrite side_levels_set_side_ne by done. apply (wf_sorted b Hwf).
  - intros s' k' L'. destruct (decide (s' = s)) as [-> | Hne].
    + rewrite side_levels_set_side. intros (L0 & _ & _ & H & _)%Hmem. done.
    + rewrite side_levels_set_side_ne by done. by eapply wf_level_ok.
  - intros s' k' L'. destruct (decide (s' = s)) as [-> | Hne].
    + rewrite side_levels_set_side. intros (L0 & Hin & -> & _)%Hmem.
      by eapply wf_level_price.
    + rewrite side_levels_set_side_ne by done. by eapply wf_level_price.
  - intros s' k' L'. destruct (decide (s' = s)) as [-> | Hne].
    + rewrite side_levels_set_side. intros (L0 & _ & _ & _ & H & _)%Hmem. done.
    + rewrite side_levels_set_side_ne by done. by eapply wf_level_ids.
  - intros s' k' L' o'. rewrite order_lookup_set_side, lookup_foldl_delete.
    destruct (decide (s' = s)) as [-> | Hne].
    + rewrite side_levels_set_side.
      intros (L0 & Hin & _ & _ & _ & Hos)%Hmem Ho'.
      destruct (Hos _ Ho') as (o0 & Ho0 & -> & -> & Hnot).
      rewrite decide_False by done. by eapply wf_indexed.
    + rewrite side_levels_set_side_ne by done. intros Hin Ho'.
      case_decide as Hev; [|by eapply wf_indexed].
      destruct (HE _ Hev) as (k0 & L0 & o0 & Hin0 & Ho0 & Hid).
      destruct (wf_unique b _ _ _ _ _ _ _ _ Hwf Hin0 Ho0 Hin Ho' Hid)
        as (-> & _). done.
  - intros oid loc. rewrite order_lookup_set_side, lookup_foldl_delete.
    case_decide as Hev; [done|]. intros Hl.
    destruct (wf_located b Hwf _ _ Hl) as (k0 & L0 & o0 & Hin & Ho & Hid).
    destruct (decide (loc_side loc = s)) as [Hs | Hns].
    + rewrite Hs in *. rewrite side_levels_set_side. subst oid.
      destruct (Hsurv _ _ _ Hin Ho Hev) as (L' & o' & H1 & H2 & H3).
      by exists k0, L', o'.
    + rewrite side_levels_set_side_ne by done. by exists k0, L0, o0.
Qed.

Lemma order_key_elem (l l' : list Order) o :
  order_key <$> l = order_key <$> l' -> o ∈ l ->
  exists o', o' ∈ l' /\ id o = id o' /\ price o = price o'.
Proof.
  intros Hk Ho.
  assert (order_key o ∈ order_key <$> l') as Hin.
  { rewrite <- Hk. by apply list_elem_of_fmap_2. }
  apply list_elem_of_fmap in Hin as (o' & [= H1 H2] & Ho'). by exists o'.
Qed.

Lemma order_key_ids (l l' : list Order) :
  order_key <$> l = order_key <$> l' -> id <$> l = id <$> l'.
Proof.
  intros Hk.
  change (id <$> l) with ((fst ∘ order_key) <$> l).
  change (id <$> l') with ((fst ∘ order_key) <$> l').
  by rewrite !list_fmap_compose, Hk.
Qed.

Lemma spec_book_wf b aggressor_side aggressor_id limit_price qty :
  book_wf b ->
  book_wf (spec_book b aggressor_side
             (spec_match (symbol_ b) aggressor_side aggressor_id limit_price
                qty (side_levels (opposite aggressor_side) b))).
Proof.
  intros Hwf. unfold spec_book. set (s := opposite aggressor_side).
  destruct (spec_match_shape (symbol_ b) aggressor_side aggressor_id
              limit_price qty (side_levels s b))
    as (gone & kept & Eh & HL & HE & Hcase).
  pose proof (wf_sorted b Hwf s) as Hsorted. rewrite HL in Hsorted.
  destruct (smap_sorted_app _ _ _ Hsorted) as (Hsg & Hsk & Hgk).
  rewrite HE.
  (* an id evicted with a level that is gone is not the id of an order of
     a level that is kept *)
  assert (forall i k' L' o',
            i ∈ id <$> level_orders gone -> (k', L') ∈ kept ->
            o' ∈ orders L' -> id o' <> i) as Hgone.
  { intros i k' L' o' (e & -> & He)%list_elem_of_fmap Hin Ho' Hid.
    apply level_orders_elem in He as (kg & Lg & Hg & He).
    assert ((kg, Lg) ∈ side_levels s b) as Hg'.
    { rewrite HL. apply elem_of_app. by left. }
    assert ((k', L') ∈ side_levels s b) as Hin'.
    { rewrite HL. apply elem_of_app. by right. }
    destruct (wf_unique b _ _ _ _ _ _ _ _ Hwf Hin' Ho' Hg' He Hid)
      as (_ & -> & _).
    pose proof (Hgk _ _ _ _ Hg Hin) as Hlt.
    by rewrite (lt_irrefl (lt := side_lt s)) in Hlt. }
  assert (forall i, i ∈ id <$> level_orders gone ->
            exists k0 L0 o0,
              (k0, L0) ∈ side_levels s b /\ o0 ∈ orders L0 /\ id o0 = i)
    as HEgone.
  { intros i (e & -> & He)%list_elem_of_fmap.
    apply level_orders_elem in He as (kg & Lg & Hg & He).
    exists kg, Lg, e. split; [|done]. rewrite HL. apply elem_of_app. by left. }
  assert (forall k0 L0 o0, (k0, L0) ∈ gone -> o0 ∈ orders L0 ->
            id o0 ∈ id <$> level_orders gone) as Hgone_in.
  { intros k0 L0 o0 Hin Ho. apply list_elem_of_fmap_2.
    apply level_orders_elem. by exists k0, L0. }
  destruct Hcase as [[-> ->] | (k & Lh & tail & done & rest0 & Lh' & -> & ->
                                 & Hos & -> & Hprice & Htotal & Hne & Hkey)].
  - rewrite app_nil_r. apply wf_after_eviction; try done.
    + intros k' L' Hin. exists L'. split.
      { rewrite HL. apply elem_of_app. by right. }
      assert ((k', L') ∈ side_levels s b) as Hin'.
      { rewrite HL. apply elem_of_app. by right. }
      split; [done|]. split; [by eapply wf_level_ok|].
      split; [by eapply wf_level_ids|].
      intros o' Ho'. exists o'. repeat split; try done.
      intros Hev. by eapply Hgone.
    + intros k0 L0 o0 Hin Ho Hev. rewrite HL in Hin.
      apply elem_of_app in Hin as [Hin | Hin].
      * exfalso. apply Hev. by eapply Hgone_in.
      * by exists L0, o0.
  - assert ((k, Lh) ∈ side_levels s b) as Hh.
    { rewrite HL. apply elem_of_app. right. apply elem_of_cons. by left. }
    pose proof (wf_level_ids b Hwf _ _ _ Hh) as Hnd.
    rewrite Hos, fmap_app in Hnd.
    apply NoDup_app in Hnd as (Hnd1 & Hdisj & Hnd2).
    destruct Hsk as [Hbelow Hstail].
    apply wf_after_eviction; try done.
    + intros i [Hi | Hi]%elem_of_app; [by apply HEgone|].
      apply list_elem_of_fmap in Hi as (e & -> & He).
      exists k, Lh, e. repeat split; [done|]. rewrite Hos.
      apply elem_of_app. by left.
    + intros k' L' [[= -> ->] | Hin]%elem_of_cons.
      * exists Lh. split; [done|]. split; [done|].
        destruct (wf_level_ok b Hwf _ _ _ Hh) as [Ht _].
        split; [split; [lia | done]|].
        split; [by rewrite (order_key_ids _ _ Hkey)|].
        intros o' Ho'.
        destruct (order_key_elem _ _ _ Hkey Ho') as (o0 & Ho0 & Hid & Hp).
        exists o0. repeat split; try done.
        { rewrite Hos. apply elem_of_app. by right. }
        intros [Hev | Hev]%elem_of_app.
        -- eapply (Hgone _ k Lh o0); [exact Hev | | | done].
           ++ apply elem_of_cons. by left.
           ++ rewrite Hos. apply elem_of_app. by right.
        -- apply (Hdisj _ Hev). by apply list_elem_of_fmap_2.
      * assert ((k', L') ∈ side_levels s b) as Hin'.
        { rewrite HL. apply elem_of_app. right. apply elem_of_cons. by right. }
        exists L'. split; [done|]. split; [done|].
        split; [by eapply wf_level_ok|]. split; [by eapply wf_level_ids|].
        intros o' Ho'. exists o'. repeat split; try done.
        intros [Hev | Hev]%elem_of_app.
        -- eapply (Hgone _ k' L' o'); [exact Hev | | done | done].
           apply elem_of_cons. by right.
        -- apply list_elem_of_fmap in Hev as (e & Hid & He).
           assert (e ∈ orders Lh) as He'.
           { rewrite Hos. apply elem_of_app. by left. }
           destruct (wf_unique b _ _ _ _ _ _ _ _ Hwf Hin' Ho' Hh He' Hid)
             as (_ & -> & _).
           pose proof (smap_below_elem _ _ _ _ _ Hbelow Hin) as Hlt.
           by rewrite (lt_irrefl (lt := side_lt s)) in Hlt.
    + intros k0 L0 o0 Hin Ho Hev. rewrite HL in Hin.
      apply elem_of_app in Hin as [Hin | [[= -> ->] | Hin]%elem_of_cons].
      * exfalso. apply Hev. apply elem_of_app. left. by eapply Hgone_in.
      * rewrite Hos in Ho. apply elem_of_app in Ho as [Ho | Ho].
        -- exfalso. apply Hev. apply elem_of_app. right.
           by apply list_elem_of_fmap_2.
        -- symmetry in Hkey.
           destruct (order_key_elem _ _ _ Hkey Ho) as (o' & Ho' & Hid & Hp).
           exists Lh', o'. split; [apply elem_of_cons; by left | done].
      * exists L0, o0. split; [apply elem_of_cons; by right | done].
Qed.

Lemma executeFill_wf b aggressor_side qty limit_price aggressor_id r :
  book_wf b ->
  executeFill b aggressor_side qty limit_price aggressor_id = Some r ->
  book_wf (snd r).
Proof.
  intros Hwf. rewrite executeFill_spec. intros [= <-]. simpl.
  by apply spec_book_wf.
Qed.

(** Every reachable book is well formed. *)
Lemma reachable_wf b : reachable b -> book_wf b.
Proof.
  induction 1.
  - apply new_OrderBook_wf.
  - by apply addOrder_wf.
  - by apply cancelOrder_wf.
  - by apply modifyOrder_wf.
  - by eapply executeFill_wf.
Qed.

(** *** Price priority of the fills *)

Section Priority.
Variables (sym : Symbol) (aggressor_side : Side) (aggressor_id : OrderId).

Lemma at_least_as_good_lt p q :
  side_lt (opposite aggressor_side) q p = false
  <-> at_least_as_good aggressor_side p q.
Proof. destruct aggressor_side; simpl; apply Qltb_ge. Qed.

Lemma best_first_app l1 l2 :
  best_first aggressor_side l1 -> best_first aggressor_side l2 ->
  (forall p q, p ∈ l1 -> q ∈ l2 -> at_least_as_good aggressor_side p q) ->
  best_first aggressor_side (l1 ++ l2).
Proof.
  induction l1 as [|p l1 IH]; simpl; [done|].
  intros [Hp H1] H2 Hcross. split.
  - apply Forall_app. split; [done|]. apply Forall_forall. intros q Hq.
    apply Hcross; [apply elem_of_cons; by left | done].
  - apply IH; [done | done|]. intros p' q Hp' Hq.
    apply Hcross; [apply elem_of_cons; by right | done].
Qed.

Lemma best_first_constant p l :
  Forall (fun q => q = p) l -> best_first aggressor_side l.
Proof.
  induction l as [|q l IH]; simpl; [done|].
  intros [-> Hl]%Forall_cons. split; [|by apply IH].
  eapply Forall_impl; [exact Hl|]. intros q ->. simpl.
  destruct aggressor_side; simpl; apply Qle_refl.
Qed.

(** Every fill of a level is priced at the level's price. *)
Lemma spec_consume_fill_prices L_price remaining os :
  Forall (fun q => q = L_price)
    (fill_price <$> sp_fills (spec_consume sym aggressor_side aggressor_id
                                L_price remaining os)).
Proof.
  revert remaining. induction os as [|P later IH]; intros remaining; simpl;
    [done|].
  destruct (0 <? remaining); simpl; [|done].
  destruct (is_filled _); simpl.
  - apply Forall_cons. split; [done | apply IH].
  - by apply Forall_cons.
Qed.

(** Every fill is priced at the price of a level that the gate lets
    through. *)
Lemma spec_match_fill_levels limit_price remaining levels f :
  f ∈ sp_fills (spec_match sym aggressor_side aggressor_id limit_price
                  remaining levels) ->
  exists k level,
    (k, level) ∈ levels /\ fill_price f = level_price level
    /\ ~ spec_gate_stops aggressor_side limit_price (level_price level).
Proof.
  revert remaining. induction levels as [|[k L] worse IH]; intros remaining;
    simpl; [by intros H%elem_of_nil|].
  destruct (0 <? remaining); simpl; [|by intros H%elem_of_nil].
  destruct (decide (spec_gate_stops _ _ _)) as [Hgate | Hgate]; simpl;
    [by intros H%elem_of_nil|].
  pose proof (spec_consume_fill_prices (level_price L) remaining (orders L))
    as Hp.
  assert (forall f, f ∈ sp_fills (spec_consume sym aggressor_side aggressor_id
                                     (level_price L) remaining (orders L)) ->
            exists k' level,
              (k', level) ∈ (k, L) :: worse
              /\ fill_price f = level_price level
              /\ ~ spec_gate_stops aggressor_side limit_price
                     (level_price level)) as Hhead.
  { intros f' Hf'. exists k, L. split; [apply elem_of_cons; by left|].
    split; [|done]. rewrite Forall_forall in Hp. apply Hp.
    by apply list_elem_of_fmap_2. }
  destruct (sp_rest _); simpl; [|by apply Hhead].
  intros [Hf | Hf]%elem_of_app; [by apply Hhead|].
  destruct (IH _ Hf) as (k' & level & Hin & H1 & H2).
  exists k', level. split; [apply elem_of_cons; by right | done].
Qed.

(** On a map in comparator order whose levels are filed under their own
    price, the fills come best price first. *)
Lemma spec_match_best_first limit_price remaining levels :
  smap_sorted (side_lt (opposite aggressor_side)) levels ->
  (forall k level, (k, level) ∈ levels -> level_price level = k) ->
  best_first aggressor_side
    (fill_price <$> sp_fills (spec_match sym aggressor_side aggressor_id
                                limit_price remaining levels)).
Proof.
  revert remaining. induction levels as [|[k L] worse IH]; intros remaining;
    simpl; [done|].
  intros [Hbelow Hsorted] Hkeys.
  destruct (0 <? remaining); simpl; [|done].
  destruct (decide (spec_gate_stops _ _ _)); simpl; [done|].
  pose proof (spec_consume_fill_prices (level_price L) remaining (orders L))
    as Hp.
  destruct (sp_rest _); simpl; [|by eapply best_first_constant].
  rewrite fmap_app. apply best_first_app.
  - by eapply best_first_constant.
  - apply IH; [done|]. intros k' level Hin. apply Hkeys.
    apply elem_of_cons. by right.
  - intros p q Hp' (f & -> & Hf)%list_elem_of_fmap.
    rewrite Forall_forall in Hp. rewrite (Hp _ Hp').
    destruct (spec_match_fill_levels _ _ _ _ Hf) as (k' & level & Hin & -> & _).
    rewrite (Hkeys k L) by (apply elem_of_cons; by left).
    rewrite (Hkeys k' level) by (apply elem_of_cons; by right).
    apply at_least_as_good_lt. apply (lt_asym (side_lt _)).
    by eapply smap_below_elem.
Qed.
End Priority.

(** ** The per-side id tables *)

Lemma side_orders_set_side s lv ids lk b :
  side_orders s (set_side s lv ids lk b) = ids.
Proof. by destruct s. Qed.

Lemma side_orders_set_side_ne s s' lv ids lk b :
  s' <> s -> side_orders s' (set_side s lv ids lk b) = side_orders s' b.
Proof. by destruct s, s'. Qed.

Lemma elem_of_foldl_difference (S : gset OrderId) (E : list OrderId) i :
  i ∈ foldl (fun ids j => ids ∖ {[j]}) S E <-> i ∈ S /\ i ∉ E.
Proof.
  revert S. induction E as [|e E IH]; intros S; simpl.
  - split; [intros H; split; [done | apply not_elem_of_nil] | by intros [H _]].
  - rewrite IH, elem_of_difference, elem_of_singleton, not_elem_of_cons.
    tauto.
Qed.

(** Every id [spec_match] evicts is the id of an order of the levels it
    was given. *)
Lemma spec_consume_evicted_elem sym side aid p remaining os i :
  i ∈ sp_evicted (spec_consume sym side aid p remaining os) ->
  exists o, o ∈ os /\ id o = i.
Proof.
  revert remaining. induction os as [|P later IH]; intros remaining; simpl;
    [by intros H%elem_of_nil|].
  destruct (0 <? remaining); simpl; [|by intros H%elem_of_nil].
  destruct (is_filled _); simpl; [|by intros H%elem_of_nil].
  intros [-> | H]%elem_of_cons.
  - exists P. split; [apply elem_of_cons; by left | done].
  - destruct (IH _ H) as (o & Ho & Hid). exists o.
    split; [apply elem_of_cons; by right | done].
Qed.

Lemma spec_match_evicted_elem sym side aid limit remaining levels i :
  i ∈ sp_evicted (spec_match sym side aid limit remaining levels) ->
  exists k level o, (k, level) ∈ levels /\ o ∈ orders level /\ id o = i.
Proof.
  revert remaining. induction levels as [|[k L] worse IH]; intros remaining;
    simpl; [by intros H%elem_of_nil|].
  destruct (0 <? remaining); simpl; [|by intros H%elem_of_nil].
  destruct (decide (spec_gate_stops _ _ _)); simpl;
    [by intros H%elem_of_nil|].
  assert (forall i,
            i ∈ sp_evicted (spec_consume sym side aid (level_price L)
                              remaining (orders L)) ->
            exists k' level o,
              (k', level) ∈ (k, L) :: worse /\ o ∈ orders level /\ id o = i)
    as Hhead.
  { intros j (o & Ho & Hid)%spec_consume_evicted_elem.
    exists k, L, o. split; [apply elem_of_cons; by left | done]. }
  destruct (sp_rest _); simpl; [|by apply Hhead].
  intros [H | H]%elem_of_app; [by apply Hhead|].
  destruct (IH _ H) as (k' & level & o & Hin & Ho & Hid).
  exists k', level, o. split; [apply elem_of_cons; by right | done].
Qed.

Lemma addOrder_ids_ok b order :
  book_ids_ok b -> book_ids_ok (snd (addOrder b order)).
Proof.
  intros Hok. destruct (fst (addOrder b order)) eqn:Eacc;
    [|by rewrite addOrder_refused].
  destruct (addOrder_accepted _ _ Eacc) as (_ & Hfresh & ->).
  intros s' i. rewrite order_lookup_set_side.
  destruct (decide (s' = side order)) as [-> | Hne].
  - rewrite side_orders_set_side, elem_of_union, elem_of_singleton, (Hok _ i).
    destruct (decide (i = id order)) as [-> | Hi].
    + rewrite lookup_insert_eq. split; [by eexists | by left].
    + rewrite lookup_insert_ne by done. naive_solver.
  - rewrite side_orders_set_side_ne by done. rewrite (Hok _ i).
    destruct (decide (i = id order)) as [-> | Hi].
    + rewrite lookup_insert_eq, Hfresh. naive_solver.
    + by rewrite lookup_insert_ne.
Qed.

Lemma cancelOrder_ids_ok b oid :
  book_ids_ok b -> book_ids_ok (snd (cancelOrder b oid)).
Proof.
  intros Hok. destruct (order_lookup_ b !! oid) as [loc|] eqn:Hl;
    [|by rewrite cancelOrder_unknown].
  rewrite (cancelOrder_found _ _ _ Hl). simpl.
  intros s' i. rewrite order_lookup_set_side.
  destruct (decide (s' = loc_side loc)) as [-> | Hne].
  - rewrite side_orders_set_side, elem_of_difference, elem_of_singleton,
      (Hok _ i).
    destruct (decide (i = oid)) as [-> | Hi].
    + rewrite lookup_delete_eq. naive_solver.
    + rewrite lookup_delete_ne by done. naive_solver.
  - rewrite side_orders_set_side_ne by done. rewrite (Hok _ i).
    destruct (decide (i = oid)) as [-> | Hi].
    + rewrite lookup_delete_eq, Hl. destruct loc. naive_solver.
    + by rewrite lookup_delete_ne.
Qed.

Lemma modifyOrder_ids_ok now b oid new_price new_quantity :
  book_ids_ok b ->
  book_ids_ok (snd (modifyOrder now b oid new_price new_quantity)).
Proof.
  intros Hok. unfold modifyOrder.
  destruct (order_lookup_ b !! oid) as [loc|] eqn:Hl; [|done].
  destruct (getOrder b oid) as [old|] eqn:Hget; [|done].
  destruct (Qltb 0 new_price && negb (Qeq_bool new_price (loc_price loc))).
  - apply addOrder_ids_ok. by apply cancelOrder_ids_ok.
  - destruct ((0 <? new_quantity) && negb (new_quantity =? quantity old));
      [|done].
    simpl. intros s' i. rewrite order_lookup_set_side.
    destruct (decide (s' = loc_side loc)) as [-> | Hne].
    + rewrite side_orders_set_side. apply Hok.
    + rewrite side_orders_set_side_ne by done. apply Hok.
Qed.

Lemma executeFill_ids_ok b aggressor_side qty limit_price aggressor_id r :
  book_wf b -> book_ids_ok b ->
  executeFill b aggressor_side qty limit_price aggressor_id = Some r ->
  book_ids_ok (snd r).
Proof.
  intros Hwf Hok. rewrite executeFill_spec. intros [= <-]. simpl.
  unfold spec_book. set (s := opposite aggressor_side).
  set (m := spec_match _ _ _ _ _ _).
  intros s' i. rewrite order_lookup_set_side, lookup_foldl_delete.
  destruct (decide (s' = s)) as [-> | Hne].
  - rewrite side_orders_set_side, elem_of_foldl_difference, (Hok _ i).
    case_decide; naive_solver.
  - rewrite side_orders_set_side_ne by done. rewrite (Hok _ i).
    case_decide as Hev; [|done].
    apply spec_match_evicted_elem in Hev as (k & level & o & Hin & Ho & <-).
    destruct (wf_indexed b Hwf _ _ _ _ Hin Ho) as [Hl _].
    rewrite Hl. naive_solver.
Qed.

Lemma reachable_ids_ok b : reachable b -> book_ids_ok b.
Proof.
  induction 1 as [sym | | | | b side qty lim aid r Hreach IH Hexec].
  - intros s i. destruct s; simpl; rewrite lookup_empty; set_solver.
  - by apply addOrder_ids_ok.
  - by apply cancelOrder_ids_ok.
  - by apply modifyOrder_ids_ok.
  - eapply executeFill_ids_ok; [by apply reachable_wf | done | done].
Qed.

(** ** Counting the resting orders *)

Lemma wf_side_ids_NoDup b s :
  book_wf b -> NoDup (id <$> level_orders (side_levels s b)).
Proof.
  intros Hwf.
  pose proof (wf_sorted b Hwf s) as Hsorted.
  assert (forall k level, (k, level) ∈ side_levels s b ->
            NoDup (id <$> orders level)) as Hnd
    by (intros; by eapply wf_level_ids).
  assert (forall k1 L1 o1 k2 L2 o2,
            (k1, L1) ∈ side_levels s b -> o1 ∈ orders L1 ->
            (k2, L2) ∈ side_levels s b -> o2 ∈ orders L2 ->
            id o1 = id o2 -> k1 = k2) as Huniq.
  { intros k1 L1 o1 k2 L2 o2 H1 Ho1 H2 Ho2 Hid.
    by destruct (wf_unique b _ _ _ _ _ _ _ _ Hwf H1 Ho1 H2 Ho2 Hid)
      as (_ & -> & _). }
  clear Hwf. induction (side_levels s b) as [|[k L] levels IH]; [constructor|].
  destruct Hsorted as [Hbelow Hsorted].
  unfold level_orders. rewrite bind_cons, fmap_app. simpl.
  apply NoDup_app. split; [|split].
  - apply (Hnd k). apply elem_of_cons. by left.
  - intros i (o1 & -> & Ho1)%list_elem_of_fmap (o2 & Hid & Ho2)%list_elem_of_fmap.
    apply level_orders_elem in Ho2 as (k2 & L2 & Hin2 & Ho2).
    assert (k = k2) as <-.
    { eapply (Huniq k L o1 k2 L2 o2); try done.
      - apply elem_of_cons. by left.
      - apply elem_of_cons. by right. }
    pose proof (smap_below_elem _ _ _ _ _ Hbelow Hin2) as Hlt.
    by rewrite (lt_irrefl (lt := side_lt s)) in Hlt.
  - apply IH; [done | |].
    + intros k' level Hin. apply (Hnd k'). apply elem_of_cons. by right.
    + intros k1 L1 o1 k2 L2 o2 H1 Ho1 H2 Ho2.
      apply (Huniq k1 L1 o1 k2 L2 o2); try done; apply elem_of_cons; by right.
Qed.

Lemma side_orders_resting b s :
  book_wf b -> book_ids_ok b ->
  side_orders s b = list_to_set (id <$> level_orders (side_levels s b)).
Proof.
  intros Hwf Hok. apply set_eq. intros i.
  rewrite elem_of_list_to_set, list_elem_of_fmap, (Hok s i). split.
  - intros [p Hl].
    destruct (wf_located b Hwf _ _ Hl) as (k & level & o & Hin & Ho & Hid).
    exists o. split; [done|]. apply level_orders_elem. by exists k, level.
  - intros (o & -> & (k & level & Hin & Ho)%level_orders_elem).
    destruct (wf_indexed b Hwf _ _ _ _ Hin Ho) as [Hl _]. by eexists.
Qed.

Lemma side_orders_count b s :
  book_wf b -> book_ids_ok b ->
  size (side_orders s b) = length (level_orders (side_levels s b)).
Proof.
  intros Hwf Hok. rewrite (side_orders_resting b s Hwf Hok).
  rewrite size_list_to_set by by apply wf_side_ids_NoDup.
  by rewrite length_fmap.
Qed.

Lemma lookup_count b :
  book_ids_ok b ->
  size (order_lookup_ b) = (size (bid_orders_ b) + size (ask_orders_ b))%nat.
Proof.
  intros Hok. rewrite <- size_dom, <- size_union.
  - f_equal. apply set_eq. intros i.
    rewrite elem_of_dom, elem_of_union, (Hok Buy i), (Hok Sell i). split.
    + intros [[[] p] Hl]; [left | right]; by exists p.
    + intros [[p Hl] | [p Hl]]; by eexists.
  - intros i [p1 H1]%(Hok Buy i) [p2 H2]%(Hok Sell i). congruence.
Qed.

(** ** More on std::map *)

Section StdMapMore.
Context {K V : Type} (lt : K -> K -> bool) `{!StrictWeak lt}.
Implicit Types (k : K) (v : V) (m : list (K * V)).

(** Undoing at [k] what was done at [m[k]] gives the map back. *)
Lemma smap_visit_subscript k d f g m :
  g (f d) = None ->
  (forall k' v, (k', v) ∈ m -> g (f v) = Some v) ->
  smap_visit lt k g (smap_subscript lt k d f m) = m.
Proof.
  intros Hd. induction m as [|[k0 v0] m IH]; simpl; intros Hm.
  - by rewrite lt_irrefl, Hd.
  - destruct (lt k0 k) eqn:E1; simpl.
    + rewrite E1, IH; [done|]. intros k' v Hin. apply (Hm k').
      apply elem_of_cons. by right.
    + destruct (lt k k0) eqn:E2; simpl.
      * by rewrite lt_irrefl, Hd.
      * rewrite E1, E2, (Hm k0 v0); [done|]. apply elem_of_cons. by left.
Qed.

(** A visit whose body leaves every value alone leaves the map alone. *)
Lemma smap_visit_id k g m :
  (forall k' v, (k', v) ∈ m -> g v = Some v) -> smap_visit lt k g m = m.
Proof.
  induction m as [|[k0 v0] m IH]; simpl; intros Hm; [done|].
  destruct (lt k0 k).
  - rewrite IH; [done|]. intros k' v Hin. apply (Hm k').
    apply elem_of_cons. by right.
  - destruct (lt k k0); [done|].
    rewrite (Hm k0 v0); [done|]. apply elem_of_cons. by left.
Qed.

Lemma smap_find_visit k g m :
  smap_sorted lt m ->
  smap_find lt k (smap_visit lt k g m) = smap_find lt k m ≫= g.
Proof.
  induction m as [|[k0 v0] m IH]; simpl; intros Hs; [done|].
  destruct Hs as [Hb Hs].
  destruct (lt k0 k) eqn:E1; simpl.
  - rewrite E1. by apply IH.
  - destruct (lt k k0) eqn:E2; simpl.
    + by rewrite E1, E2.
    + destruct (g v0) as [v'|]; simpl.
      * by rewrite E1, E2.
      * by apply (smap_find_below lt k k0).
Qed.

Lemma smap_find_visit_ne k k' g m :
  smap_sorted lt m -> key_equiv lt k k' = false ->
  smap_find lt k' (smap_visit lt k g m) = smap_find lt k' m.
Proof.
  intros Hs Hne. induction m as [|[k0 v0] m IH]; simpl; [done|].
  destruct Hs as [Hb Hs].
  destruct (lt k0 k) eqn:E1; simpl.
  - by rewrite IH.
  - destruct (lt k k0) eqn:E2; simpl; [done|].
    assert (key_equiv lt k0 k' = false) as Hk0.
    { destruct (key_equiv lt k0 k') eqn:E; [|done].
      rewrite <- Hne. symmetry. apply (key_equiv_trans lt _ k0); [|done].
      by apply key_equiv_iff. }
    destruct (g v0) as [v'|]; simpl; [|].
    + destruct (lt k0 k') eqn:E3; [done|].
      destruct (lt k' k0) eqn:E4; [done|].
      unfold key_equiv in Hk0. by rewrite E3, E4 in Hk0.
    + destruct (lt k0 k') eqn:E3; [done|].
      destruct (lt k' k0) eqn:E4.
      * apply (smap_find_below lt k' k0); [done|]. by apply lt_asym.
      * unfold key_equiv in Hk0. by rewrite E3, E4 in Hk0.
Qed.

(** Equivalent keys find the same node. *)
Lemma smap_find_equiv k k' m :
  key_equiv lt k k' = true -> smap_find lt k' m = smap_find lt k m.
Proof.
  intros He. pose proof He as [H1 H2]%key_equiv_iff.
  induction m as [|[k0 v0] m IH]; simpl; [done|].
  destruct (lt k0 k') eqn:E1.
  - rewrite key_equiv_sym in He. by rewrite (lt_equiv_r lt _ _ _ E1 He).
  - destruct (lt k0 k) eqn:E3.
    { by rewrite (lt_equiv_r lt _ _ _ E3 He) in E1. }
    destruct (lt k' k0) eqn:E2.
    + by rewrite (lt_equiv_l lt _ _ _ He E2).
    + destruct (lt k k0) eqn:E4; [|done].
      rewrite key_equiv_sym in He. by rewrite (lt_equiv_l lt _ _ _ He E4) in E2.
Qed.

(** The head of a map in comparator order is its least key. *)
Lemma smap_sorted_head k v m k' v' :
  smap_sorted lt ((k, v) :: m) -> (k', v') ∈ (k, v) :: m ->
  lt k' k = false.
Proof.
  intros [Hb _] [[= -> ->] | Hin]%elem_of_cons.
  - apply lt_irrefl.
  - apply lt_asym; [done|]. by eapply smap_below_elem.
Qed.

(** Nodes further along a map in comparator order have greater keys. *)
Lemma smap_sorted_lookup m i j k1 v1 k2 v2 :
  smap_sorted lt m -> (i < j)%nat ->
  m !! i = Some (k1, v1) -> m !! j = Some (k2, v2) -> lt k1 k2 = true.
Proof.
  revert i j. induction m as [|[k0 v0] m IH]; intros i j Hs Hij; [done|].
  destruct Hs as [Hb Hs]. destruct j as [|j]; [lia|].
  destruct i as [|i]; simpl.
  - intros [= -> ->] Hj. eapply smap_below_elem; [done|].
    by eapply list_elem_of_lookup_2.
  - apply IH; [done | lia].
Qed.
End StdMapMore.

Section StdMapImage.
Context {K V W : Type} (lt : K -> K -> bool) `{!StrictWeak lt}.

(** Touching the value of a present key with a function that keeps the
    image [h] keeps the keys and the images of the map. *)
Lemma smap_subscript_image (h : V -> W) (k : K) d f (m : list (K * V)) v0 :
  smap_find lt k m = Some v0 ->
  (forall v, h (f v) = h v) ->
  (fun kv => (kv.1, h kv.2)) <$> smap_subscript lt k d f m
  = (fun kv => (kv.1, h kv.2)) <$> m.
Proof.
  intros Hfind Hh. induction m as [|[k0 v] m IH]; simpl in *; [done|].
  destruct (lt k0 k); csimpl.
  - by rewrite IH.
  - destruct (lt k k0); [done|]. csimpl. by rewrite Hh.
Qed.
End StdMapImage.

(** ** More on the order book *)

Lemma set_side_set_side s lv ids lk lv' ids' lk' b :
  set_side s lv' ids' lk' (set_side s lv ids lk b) = set_side s lv' ids' lk' b.
Proof. by destruct s. Qed.

Lemma level_node_app_fresh (l : list Order) o :
  (forall o', o' ∈ l -> id o' <> id o) ->
  List.find (fun o' => N.eqb (id o') (id o)) (l ++ [o]) = Some o.
Proof.
  induction l as [|o1 l IH]; simpl; intros Hl.
  - by rewrite N.eqb_refl.
  - destruct (N.eqb_spec (id o1) (id o)) as [Heq | Hne].
    + exfalso. apply (Hl o1); [apply elem_of_cons; by left | done].
    + apply IH. intros o' Ho'. apply Hl. apply elem_of_cons. by right.
Qed.

Lemma erase_node_app_fresh (l : list Order) o :
  (forall o', o' ∈ l -> id o' <> id o) ->
  erase_node (id o) (l ++ [o]) = l.
Proof.
  induction l as [|o1 l IH]; simpl; intros Hl.
  - by rewrite N.eqb_refl.
  - destruct (N.eqb_spec (id o1) (id o)) as [Heq | Hne].
    + exfalso. apply (Hl o1); [apply elem_of_cons; by left | done].
    + rewrite IH; [done|]. intros o' Ho'. apply Hl. apply elem_of_cons.
      by right.
Qed.

Lemma level_node_erase_ne oid oid' (l : list Order) :
  oid' <> oid ->
  List.find (fun o => N.eqb (id o) oid') (erase_node oid l)
  = List.find (fun o => N.eqb (id o) oid') l.
Proof.
  intros Hne. induction l as [|o l IH]; simpl; [done|].
  destruct (N.eqb_spec (id o) oid) as [Heq | Hneq]; simpl.
  - destruct (N.eqb_spec (id o) oid'); [congruence | done].
  - by rewrite IH.
Qed.

Lemma level_node_excise_ne oid oid' level :
  oid' <> oid ->
  level_excise oid level ≫= level_node oid' = level_node oid' level.
Proof.
  intros Hne. unfold level_excise.
  destruct (level_node oid level) as [o|] eqn:Hn; [|done].
  pose proof (level_node_erase_ne oid oid' (orders level) Hne) as He.
  unfold level_node at 2. rewrite <- He.
  by destruct (erase_node oid (orders level)).
Qed.

(** After a cancel the other ids resolve as before. *)
Lemma getOrder_cancel_ne b oid oid' :
  book_wf b -> oid' <> oid ->
  getOrder (snd (cancelOrder b oid)) oid' = getOrder b oid'.
Proof.
  intros Hwf Hne. destruct (order_lookup_ b !! oid) as [loc|] eqn:Hl;
    [|by rewrite cancelOrder_unknown].
  rewrite (cancelOrder_found _ _ _ Hl). simpl. unfold getOrder.
  rewrite order_lookup_set_side, lookup_delete_ne by done.
  destruct (order_lookup_ b !! oid') as [loc'|]; [|done].
  destruct (decide (loc_side loc' = loc_side loc)) as [Hs | Hs].
  - rewrite Hs, side_levels_set_side.
    pose proof (wf_sorted b Hwf (loc_side loc)) as Hsorted.
    destruct (key_equiv (side_lt (loc_side loc)) (loc_price loc)
                (loc_price loc')) eqn:He.
    + rewrite (smap_find_equiv _ _ _ _ He).
      rewrite (smap_find_equiv _ _ _ (side_levels (loc_side loc) b) He).
      rewrite smap_find_visit by (apply _ || done).
      destruct (smap_find _ _ _) as [level|]; simpl; [|done].
      pose proof (level_node_excise_ne oid oid' level Hne) as Hx.
      by destruct (level_excise oid level).
    + by rewrite smap_find_visit_ne by (apply _ || done).
  - by rewrite side_levels_set_side_ne.
Qed.

Lemma find_app_fresh (l : list Order) o oid :
  id o <> oid ->
  List.find (fun o' => N.eqb (id o') oid) (l ++ [o])
  = List.find (fun o' => N.eqb (id o') oid) l.
Proof.
  intros Hne. induction l as [|o1 l IH]; simpl.
  - by destruct (N.eqb_spec (id o) oid).
  - by destruct (N.eqb (id o1) oid).
Qed.

Lemma find_node_set_quantity_ne oid oid' q (l : list Order) :
  oid' <> oid ->
  List.find (fun o => N.eqb (id o) oid') (node_set_quantity oid q l)
  = List.find (fun o => N.eqb (id o) oid') l.
Proof.
  intros Hne. induction l as [|o l IH]; simpl; [done|].
  destruct (N.eqb_spec (id o) oid) as [Heq | Hneq]; simpl.
  - by destruct (N.eqb_spec (id o) oid'); [congruence|].
  - by rewrite IH.
Qed.

(** After an add the other ids resolve as before. *)
Lemma getOrder_add_ne b order oid' :
  oid' <> id order ->
  getOrder (snd (addOrder b order)) oid' = getOrder b oid'.
Proof.
  intros Hne. destruct (fst (addOrder b order)) eqn:Eacc;
    [|by rewrite addOrder_refused].
  destruct (addOrder_accepted _ _ Eacc) as (_ & _ & ->).
  unfold getOrder.
  rewrite order_lookup_set_side, lookup_insert_ne by done.
  destruct (order_lookup_ b !! oid') as [loc'|]; [|done].
  destruct (decide (loc_side loc' = side order)) as [Hs | Hs].
  - rewrite Hs, side_levels_set_side.
    destruct (key_equiv (side_lt (side order)) (price order)
                (loc_price loc')) eqn:He.
    + rewrite (smap_find_equiv _ _ _ _ He).
      rewrite (smap_find_equiv _ _ _ (side_levels (side order) b) He).
      rewrite smap_find_subscript by apply _.
      unfold level_node.
      destruct (smap_find _ _ _) as [level|]; simpl.
      * by apply find_app_fresh.
      * by destruct (N.eqb_spec (id order) oid'); [congruence|].
    + by rewrite smap_find_subscript_ne by (apply _ || done).
  - by rewrite side_levels_set_side_ne.
Qed.

Lemma requeued_id now o new_price new_quantity :
  id (requeued now o new_price new_quantity) = id o
  /\ side (requeued now o new_price new_quantity) = side o
  /\ price (requeued now o new_price new_quantity) = new_price.
Proof. unfold requeued. by destruct (0 <? new_quantity). Qed.

(** After a modify the other ids resolve as before. *)
Lemma getOrder_modify_ne now b oid new_price new_quantity oid' :
  book_wf b -> oid' <> oid ->
  getOrder (snd (modifyOrder now b oid new_price new_quantity)) oid'
  = getOrder b oid'.
Proof.
  intros Hwf Hne. unfold modifyOrder.
  destruct (order_lookup_ b !! oid) as [loc|] eqn:Hl; [|done].
  destruct (getOrder b oid) as [o|] eqn:Hget; [|done].
  destruct (getOrder_Some _ _ _ Hget) as (_ & _ & L0 & _ & _ & _ & _ & Hn).
  destruct (level_node_Some _ _ _ Hn) as [_ Hid].
  destruct (Qltb 0 new_price && negb (Qeq_bool new_price (loc_price loc))).
  - rewrite getOrder_add_ne; [by apply getOrder_cancel_ne|].
    destruct (requeued_id now o new_price new_quantity) as (-> & _).
    congruence.
  - destruct ((0 <? new_quantity) && negb (new_quantity =? quantity o));
      [|done].
    simpl. unfold getOrder. rewrite order_lookup_set_side.
    destruct (order_lookup_ b !! oid') as [loc'|]; [|done].
    destruct (decide (loc_side loc' = loc_side loc)) as [Hs | Hs].
    + rewrite Hs, side_levels_set_side.
      destruct (key_equiv (side_lt (loc_side loc)) (loc_price loc)
                  (loc_price loc')) eqn:He.
      * rewrite (smap_find_equiv _ _ _ _ He).
        rewrite (smap_find_equiv _ _ _ (side_levels (loc_side loc) b) He).
        rewrite smap_find_subscript by apply _.
        unfold level_node.
        destruct (smap_find _ _ _) as [level|]; simpl.
        -- by apply find_node_set_quantity_ne.
        -- done.
      * by rewrite smap_find_subscript_ne by (apply _ || done).
    + by rewrite side_levels_set_side_ne.
Qed.

(** *** What matching trades, and with whom *)

Lemma fills_quantity_app f1 f2 :
  fills_quantity (f1 ++ f2) = fills_quantity f1 + fills_quantity f2.
Proof. induction f1 as [|f f1 IH]; simpl; lia. Qed.

Lemma level_orders_cons k L levels :
  level_orders ((k, L) :: levels) = orders L ++ level_orders levels.
Proof. reflexivity. Qed.

Section MatchQuantities.
Variables (sym : Symbol) (aggressor_side : Side) (aggressor_id : OrderId).
#[local] Arguments level_orders : simpl never.

Lemma spec_consume_traded L_price remaining os :
  let c := spec_consume sym aggressor_side aggressor_id L_price remaining os
  in fills_quantity (sp_fills c) = remaining - sp_remaining c.
Proof.
  revert remaining. induction os as [|P later IH]; intros remaining; simpl.
  - lia.
  - destruct (0 <? remaining); simpl; [|lia].
    destruct (is_filled _); simpl; [|lia].
    rewrite IH. lia.
Qed.

(** A level that keeps orders has taken all that was asked for. *)
Lemma spec_consume_stop L_price remaining os :
  let c := spec_consume sym aggressor_side aggressor_id L_price remaining os
  in 0 < sp_remaining c -> sp_rest c = [].
Proof.
  revert remaining. induction os as [|P later IH]; intros remaining; simpl.
  - done.
  - destruct (Z.ltb_spec 0 remaining) as [Hpos | Hle]; simpl; [|lia].
    rewrite is_filled_apply_fill.
    destruct (Z.leb_spec (remaining_qty P)
                (Z.min remaining (remaining_qty P))); simpl.
    + apply IH.
    + lia.
Qed.

Lemma spec_consume_served L_price remaining os i f :
  let c := spec_consume sym aggressor_side aggressor_id L_price remaining os
  in
  sp_fills c !! i = Some f ->
  exists o,
    os !! i = Some o
    /\ fill_against sym aggressor_side aggressor_id f o
    /\ ((S i < length (sp_fills c))%nat \/ sp_rest c = [] ->
        fill_quantity f = remaining_qty o).
Proof.
  revert remaining i. induction os as [|P later IH]; intros remaining i;
    simpl; [done|].
  destruct (0 <? remaining); simpl; [|done].
  rewrite is_filled_apply_fill.
  destruct (Z.leb_spec (remaining_qty P) (Z.min remaining (remaining_qty P)))
    as [Hfull | Hpart]; simpl.
  - destruct i as [|i]; simpl.
    + intros [= <-]. exists P. split; [done|]. split.
      * repeat split. simpl. lia.
      * intros _. simpl. lia.
    + intros Hf. destruct (IH _ _ Hf) as (o & Ho & Hag & Hex).
      exists o. split; [done|]. split; [done|].
      intros [Hlt | Hrest]; apply Hex; [left; lia | by right].
  - destruct i as [|i]; simpl; [|done].
    intros [= <-]. exists P. split; [done|]. split.
    + repeat split. simpl. lia.
    + intros [Hlt | Hrest]; [lia | done].
Qed.

Lemma spec_consume_all_served L_price remaining os :
  let c := spec_consume sym aggressor_side aggressor_id L_price remaining os
  in sp_rest c = [] -> length (sp_fills c) = length os.
Proof.
  revert remaining. induction os as [|P later IH]; intros remaining; simpl;
    [done|].
  destruct (0 <? remaining); simpl; [|done].
  destruct (is_filled _); simpl; [|done].
  intros H. by rewrite IH.
Qed.

Lemma spec_match_traded limit_price remaining levels :
  let m := spec_match sym aggressor_side aggressor_id limit_price
             remaining levels in
  fills_quantity (sp_fills m) = remaining - sp_remaining m
  /\ sum_remaining (level_orders (sp_rest m))
     = sum_remaining (level_orders levels) - (remaining - sp_remaining m).
Proof.
  revert remaining. induction levels as [|[k L] worse IH]; intros remaining;
    simpl.
  - split; simpl; lia.
  - destruct (0 <? remaining); simpl; [|split; lia].
    destruct (decide (spec_gate_stops _ _ _)); simpl; [split; lia|].
    pose proof (spec_consume_traded (level_price L) remaining (orders L))
      as Hc.
    destruct (spec_consume_shape sym aggressor_side aggressor_id
                (level_price L) remaining (orders L))
      as (_ & _ & _ & _ & _ & Hs).
    simpl in Hc.
    destruct (sp_rest (spec_consume _ _ _ _ _ (orders L))) as [|o1 l1]
      eqn:Erest; simpl.
    + destruct (IH (sp_remaining
                      (spec_consume sym aggressor_side aggressor_id
                         (level_price L) remaining (orders L))))
        as [Hm Hr].
      rewrite fills_quantity_app, level_orders_cons, sum_remaining_app.
      simpl in Hs. split; lia.
    + split; [lia|]. rewrite !level_orders_cons, !sum_remaining_app.
      cbn [orders]. simpl in Hs. simpl. lia.
Qed.

(** Matching stops with something left to trade only when the passive
    side is used up or its best level is beyond the limit. *)
Lemma spec_match_stop limit_price remaining levels :
  let m := spec_match sym aggressor_side aggressor_id limit_price
             remaining levels in
  0 < sp_remaining m ->
  match sp_rest m with
  | [] => True
  | (_, best) :: _ =>
      spec_gate_stops aggressor_side limit_price (level_price best)
  end.
Proof.
  revert remaining. induction levels as [|[k L] worse IH]; intros remaining;
    simpl; [done|].
  destruct (Z.ltb_spec 0 remaining); simpl; [|lia].
  destruct (decide (spec_gate_stops _ _ _)); simpl; [done|].
  pose proof (spec_consume_stop (level_price L) remaining (orders L)) as Hc.
  simpl in Hc.
  destruct (sp_rest (spec_consume _ _ _ _ _ (orders L))) as [|o1 l1]
    eqn:Erest; simpl.
  - apply IH.
  - intros Hpos. by specialize (Hc Hpos).
Qed.

Lemma spec_match_served limit_price remaining levels i f :
  let m := spec_match sym aggressor_side aggressor_id limit_price
             remaining levels in
  sp_fills m !! i = Some f ->
  exists o,
    level_orders levels !! i = Some o
    /\ fill_against sym aggressor_side aggressor_id f o
    /\ ((S i < length (sp_fills m))%nat ->
        fill_quantity f = remaining_qty o).
Proof.
  revert remaining i. induction levels as [|[k L] worse IH];
    intros remaining i; simpl; [done|].
  destruct (0 <? remaining); simpl; [|done].
  destruct (decide (spec_gate_stops _ _ _)); simpl; [done|].
  pose proof (spec_consume_served (level_price L) remaining (orders L))
    as Hserved.
  pose proof (spec_consume_all_served (level_price L) remaining (orders L))
    as Hall.
  simpl in Hserved, Hall.
  rewrite level_orders_cons.
  destruct (sp_rest (spec_consume _ _ _ _ _ (orders L))) as [|o1 l1]
    eqn:Erest; simpl.
  - specialize (Hall eq_refl).
    intros Hf. apply lookup_app_Some in Hf as [Hf | [Hge Hf]].
    + destruct (Hserved _ _ Hf) as (o & Ho & Hag & Hex).
      exists o. split; [by apply lookup_app_l_Some|]. split; [done|].
      intros _. apply Hex. by right.
    + destruct (IH _ _ Hf) as (o & Ho & Hag & Hex).
      exists o. split; [|split; [done|]].
      * rewrite lookup_app_r by lia. by rewrite <- Hall.
      * rewrite length_app. intros Hlt. apply Hex. lia.
  - intros Hf. destruct (Hserved _ _ Hf) as (o & Ho & Hag & Hex).
    exists o. split; [by apply lookup_app_l_Some|]. split; [done|].
    intros Hlt. apply Hex. by left.
Qed.
End MatchQuantities.

(** Matching leaves the aggressor's own side alone. *)
Lemma spec_book_own_side b aggressor_side m :
  side_levels aggressor_side (spec_book b aggressor_side m)
  = side_levels aggressor_side b
  /\ side_orders aggressor_side (spec_book b aggressor_side m)
     = side_orders aggressor_side b
  /\ symbol_ (spec_book b aggressor_side m) = symbol_ b.
Proof.
  unfold spec_book. split; [|split].
  - apply side_levels_set_side_ne. by destruct aggressor_side.
  - apply side_orders_set_side_ne. by destruct aggressor_side.
  - by destruct aggressor_side.
Qed.

Section MatchBounds.
Variables (sym : Symbol) (aggressor_side : Side) (aggressor_id : OrderId).

Lemma spec_consume_left L_price remaining os :
  0 <= remaining ->
  0 <= sp_remaining (spec_consume sym aggressor_side aggressor_id L_price
                       remaining os).
Proof.
  revert remaining. induction os as [|P later IH]; intros remaining Hrem;
    simpl; [done|].
  destruct (0 <? remaining); simpl; [|done].
  destruct (is_filled _); simpl; [apply IH|]; lia.
Qed.

Lemma spec_match_left limit_price remaining levels :
  0 <= remaining ->
  0 <= sp_remaining (spec_match sym aggressor_side aggressor_id limit_price
                       remaining levels).
Proof.
  revert remaining. induction levels as [|[k L] worse IH];
    intros remaining Hrem; simpl; [done|].
  destruct (0 <? remaining); simpl; [|done].
  destruct (decide (spec_gate_stops _ _ _)); simpl; [done|].
  pose proof (spec_consume_left (level_price L) remaining (orders L) Hrem).
  destruct (sp_rest _); simpl; [by apply IH | done].
Qed.

(** Nothing is traded when nothing is asked for or nobody is there. *)
Lemma spec_match_idle limit_price remaining levels :
  remaining <= 0 \/ levels = [] ->
  spec_match sym aggressor_side aggressor_id limit_price remaining levels
  = mkMatched [] remaining levels [].
Proof.
  intros [Hle | ->]; [|done].
  destruct levels as [|[k L] worse]; simpl; [done|].
  by destruct (Z.ltb_spec 0 remaining); [lia|].
Qed.
End MatchBounds.

(** *** The passive queue after a match *)

Lemma wf_getOrder_iff b oid o :
  book_wf b ->
  getOrder b oid = Some o
  <-> exists s, o ∈ level_orders (side_levels s b) /\ id o = oid.
Proof.
  intros Hwf. split.
  - intros Hget.
    destruct (getOrder_Some _ _ _ Hget)
      as (loc & k & level & _ & _ & Hin & _ & Hn).
    destruct (level_node_Some _ _ _ Hn) as [Ho Hid].
    exists (loc_side loc). split; [|done].
    apply level_orders_elem. by exists k, level.
  - intros (s & Ho & <-). apply level_orders_elem in Ho as (k & L & Hin & Ho).
    by eapply wf_getOrder.
Qed.

Lemma queue_after_app_done fc os fm q2 :
  length fc = length os -> queue_after fc os = [] ->
  queue_after (fc ++ fm) (os ++ q2) = queue_after fm q2.
Proof.
  revert os. induction fc as [|f fc IH]; intros [|o os]; simpl; try done.
  intros [= Hlen]. destruct (is_filled _); [by apply IH | done].
Qed.

Lemma queue_after_app_more fc os q2 :
  (length fc <= length os)%nat ->
  queue_after fc (os ++ q2) = queue_after fc os ++ q2.
Proof.
  revert os. induction fc as [|f fc IH]; intros [|o os]; simpl; try done.
  all: intros Hlen; try lia.
  destruct (is_filled _); [apply IH; lia | done].
Qed.

Lemma queue_after_ids fills queue o :
  o ∈ queue_after fills queue -> id o ∈ id <$> queue.
Proof.
  assert (forall q : list Order, o ∈ q -> id o ∈ id <$> q) as Hin.
  { intros q H. apply list_elem_of_fmap. by exists o. }
  revert queue. induction fills as [|f fills IH]; intros [|o0 queue];
    try apply Hin.
  csimpl. destruct (is_filled (apply_fill (fill_quantity f) o0)).
  - intros H. apply elem_of_cons. right. by apply IH.
  - intros [-> | H]%elem_of_cons; apply elem_of_cons; [by left | right].
    apply list_elem_of_fmap. by exists o.
Qed.

Section QueueAfter.
Variables (sym : Symbol) (aggressor_side : Side) (aggressor_id : OrderId).

Lemma spec_consume_queue_after L_price remaining os :
  let c := spec_consume sym aggressor_side aggressor_id L_price remaining os
  in sp_rest c = queue_after (sp_fills c) os
     /\ (length (sp_fills c) <= length os)%nat.
Proof.
  revert remaining. induction os as [|P later IH]; intros remaining; simpl;
    [done|].
  destruct (0 <? remaining); simpl; [|split; [done | lia]].
  destruct (is_filled _) eqn:E; simpl; rewrite E.
  - destruct (IH (remaining - Z.min remaining (remaining_qty P))) as [H1 H2].
    split; [done | lia].
  - split; [done | lia].
Qed.

Lemma spec_match_queue_after limit_price remaining levels :
  let m := spec_match sym aggressor_side aggressor_id limit_price
             remaining levels in
  level_orders (sp_rest m) = queue_after (sp_fills m) (level_orders levels).
Proof.
  revert remaining. induction levels as [|[k L] worse IH]; intros remaining;
    [done|].
  rewrite level_orders_cons. cbn [spec_match].
  destruct (0 <? remaining); [|done].
  destruct (decide (spec_gate_stops _ _ _)); [done|].
  destruct (spec_consume_queue_after (level_price L) remaining (orders L))
    as [Hq Hlen].
  pose proof (spec_consume_all_served sym aggressor_side aggressor_id
                (level_price L) remaining (orders L)) as Hall.
  cbn zeta in Hq, Hlen, Hall. cbn zeta.
  destruct (sp_rest (spec_consume _ _ _ _ _ (orders L))) as [|o1 l1]
    eqn:Erest; cbn [sp_rest sp_fills].
  - rewrite queue_after_app_done; [apply IH | by apply Hall | done].
  - rewrite level_orders_cons. cbn [orders snd].
    rewrite queue_after_app_more by done. by rewrite <- Hq.
Qed.
End QueueAfter.

(** Fills that are served from the front of the queue, as [executeFill]
    serves them. *)
Lemma queue_after_untouched fills queue o :
  (forall i f, fills !! i = Some f ->
     exists o0, queue !! i = Some o0 /\ fill_counter_order_id f = id o0) ->
  id o ∉ fill_counter_order_id <$> fills ->
  o ∈ queue_after fills queue <-> o ∈ queue.
Proof.
  revert queue. induction fills as [|f fills IH]; intros queue Hserved Hid.
  - by destruct queue.
  - destruct (Hserved 0%nat f eq_refl) as (o0 & Hq & Hc).
    destruct queue as [|o0' queue]; [done|]. injection Hq as ->.
    apply not_elem_of_cons in Hid as [Hne Hid]. simpl.
    assert (o ∈ queue_after fills queue <-> o ∈ queue) as Hrec.
    { apply IH; [|done]. intros i f' Hf'. exact (Hserved (S i) f' Hf'). }
    rewrite Hc in Hne.
    destruct (is_filled _); rewrite !elem_of_cons.
    + rewrite Hrec. split; [by right|]. intros [-> | H]; done.
    + split; (intros [-> | H]; [done | by right]).
Qed.

Lemma queue_after_served fills queue i f o :
  (forall i f, fills !! i = Some f ->
     exists o0, queue !! i = Some o0
                /\ ((S i < length fills)%nat ->
                    fill_quantity f = remaining_qty o0)) ->
  NoDup (id <$> queue) ->
  fills !! i = Some f -> queue !! i = Some o ->
  (remaining_qty o <= fill_quantity f ->
   forall o', o' ∈ queue_after fills queue -> id o' <> id o)
  /\ (fill_quantity f < remaining_qty o ->
      apply_fill (fill_quantity f) o ∈ queue_after fills queue).
Proof.
  revert queue i. induction fills as [|f0 fills IH]; intros queue i Hserved Hnd;
    [done|].
  destruct queue as [|o0 queue]; [done|].
  rewrite fmap_cons in Hnd. apply NoDup_cons in Hnd as [Hfresh Hnd]. simpl.
  rewrite is_filled_apply_fill.
  destruct i as [|i]; simpl.
  - intros [= ->] [= ->].
    destruct (Z.leb_spec (remaining_qty o) (fill_quantity f)); split;
      try lia.
    + intros _ o' Ho' Heq. apply Hfresh. rewrite <- Heq.
      by eapply queue_after_ids.
    + intros _. apply elem_of_cons. by left.
  - intros Hf Ho.
    destruct (Hserved 0%nat f0 eq_refl) as (o0' & [= <-] & Hfull).
    rewrite Hfull.
    2:{ apply lookup_lt_Some in Hf. simpl. lia. }
    rewrite Z.leb_refl. apply (IH queue i); [|done..].
    intros j f' Hf'. destruct (Hserved (S j) f' Hf') as (o1 & Hq & Hfull').
    exists o1. split; [done|]. intros Hlt. apply Hfull'. simpl. lia.
Qed.

(** ** More on the matching engine *)

Lemma filled_order_facts order fills :
  let o := filled_order order fills in
  id o = id order /\ symbol o = symbol order /\ side o = side order
  /\ type o = type order /\ price o = price order
  /\ quantity o = quantity order
  /\ remaining_qty o = remaining_qty order - fills_quantity fills.
Proof.
  unfold filled_order. revert order.
  induction fills as [|f fills IH]; intros order; simpl.
  - repeat split; try done; lia.
  - destruct (IH (apply_fill (fill_quantity f) order))
      as (H1 & H2 & H3 & H4 & H5 & H6 & H7).
    rewrite H1, H2, H3, H4, H5, H6, H7, apply_fill_remaining.
    repeat split; try done; lia.
Qed.

Lemma foldl_incr64 {A} (n : N) (l : list A) :
  foldl (fun n _ => incr64 n) n l = ((n + N.of_nat (length l)) mod 2 ^ 64)%N
  \/ (l = [] /\ foldl (fun n _ => incr64 n) n l = n).
Proof.
  destruct l as [|a l]; [by right|]. left. revert n a.
  induction l as [|a' l IH]; intros n a.
  - simpl; unfold incr64; f_equal; lia.
  - change (foldl (fun n _ => incr64 n) n (a :: a' :: l))
      with (foldl (fun n _ => incr64 n) (incr64 n) (a' :: l)).
    rewrite (IH (incr64 n) a'). unfold incr64.
    rewrite N.Div0.add_mod_idemp_l; f_equal; simpl length; lia.
Qed.

(** [matchOrder] in one piece: the fills and the book of [executeFill],
    then the remainder of a Limit order offered to [addOrder], the
    remainder of any other order cancelled. *)
Lemma matchOrder_result fill_cb total_fills book order :
  exists fills book1,
    (if 0 <? remaining_qty order
     then executeFill book (side order) (remaining_qty order)
            (effective_limit order) (id order) = Some (fills, book1)
     else fills = [] /\ book1 = book)
    /\ matchOrder fill_cb total_fills book order
       = Some (mkMatchResult fills
                 (if 0 <? remaining_qty (filled_order order fills)
                  then match type order with
                       | Limit =>
                           snd (addOrder book1 (filled_order order fills))
                       | _ => book1
                       end
                  else book1)
                 (if 0 <? remaining_qty (filled_order order fills)
                  then match type order with
                       | Limit => filled_order order fills
                       | _ => cancel (filled_order order fills)
                       end
                  else filled_order order fills)
                 (foldl (fun n _ => incr64 n) total_fills fills)
                 (fills ≫= notifyFill fill_cb)).
Proof.
  unfold matchOrder. destruct (0 <? remaining_qty order) eqn:Erem.
  - destruct (executeFill_total book (side order) (remaining_qty order)
                (effective_limit order) (id order)) as [[fills book1] E].
    exists fills, book1. split; [done|]. rewrite E. simpl.
    fold (filled_order order fills).
    destruct (filled_order_facts order fills) as (_ & _ & _ & Ht & _).
    rewrite Ht.
    destruct (0 <? remaining_qty (filled_order order fills)); [|done].
    by destruct (type order).
  - exists [], book. split; [done|]. simpl. unfold filled_order. simpl.
    rewrite Erem. done.
Qed.

Lemma matchOrder_total fill_cb total_fills book order :
  is_Some (matchOrder fill_cb total_fills book order).
Proof.
  destruct (matchOrder_result fill_cb total_fills book order)
    as (fills & book1 & _ & ->).
  by eexists.
Qed.

Lemma submitOrder_total now e order : is_Some (submitOrder now e order).
Proof.
  unfold submitOrder.
  destruct (negb _); [by eexists|].
  destruct (getOrCreateOrderBook _ _) as [book books].
  destruct (matchOrder_total (fill_callback_ e) (total_fills_ e) book order)
    as [r ->].
  by eexists.
Qed.

(** *** Keys of the levels *)

Lemma addOrder_keys b order s k L :
  book_wf b ->
  (k, L) ∈ side_levels s (snd (addOrder b order)) ->
  (exists L0, (k, L0) ∈ side_levels s b)
  \/ (fst (addOrder b order) = true /\ s = side order /\ k = price order).
Proof.
  intros Hwf. destruct (fst (addOrder b order)) eqn:Eacc.
  2:{ rewrite addOrder_refused by done. intros H. left. by exists L. }
  destruct (addOrder_accepted _ _ Eacc) as (_ & _ & ->).
  destruct (decide (s = side order)) as [-> | Hne].
  - rewrite side_levels_set_side.
    intros [[H _] | [(v & H & _) | (_ & -> & _)]]%smap_elem_subscript;
      [| | | apply _ | apply (wf_sorted b Hwf)].
    + left. by exists L.
    + left. by exists v.
    + by right.
  - rewrite side_levels_set_side_ne by done. intros H. left. by exists L.
Qed.

Lemma cancelOrder_keys b oid s k L :
  book_wf b ->
  (k, L) ∈ side_levels s (snd (cancelOrder b oid)) ->
  exists L0, (k, L0) ∈ side_levels s b.
Proof.
  intros Hwf. destruct (order_lookup_ b !! oid) as [loc|] eqn:Hl.
  2:{ rewrite cancelOrder_unknown by done. intros H. by exists L. }
  rewrite (cancelOrder_found _ _ _ Hl). simpl.
  destruct (decide (s = loc_side loc)) as [-> | Hne].
  - rewrite side_levels_set_side.
    intros [[H _] | (v & H & _)]%smap_elem_visit;
      [| | apply _ | apply (wf_sorted b Hwf)].
    + by exists L.
    + by exists v.
  - rewrite side_levels_set_side_ne by done. intros H. by exists L.
Qed.

Lemma spec_match_keys sym aggressor_side aggressor_id limit_price remaining
    levels k L :
  (k, L) ∈ sp_rest (spec_match sym aggressor_side aggressor_id limit_price
                      remaining levels) ->
  exists L0, (k, L0) ∈ levels.
Proof.
  destruct (spec_match_shape sym aggressor_side aggressor_id limit_price
              remaining levels) as (gone & kept & Eh & -> & _ & Hcase).
  destruct Hcase as [[-> _] | (k0 & Lh & tail & done & rest0 & Lh' & -> & ->
                                & _)].
  - intros H. exists L. apply elem_of_app. by right.
  - intros [[= -> ->] | H]%elem_of_cons.
    + exists Lh. apply elem_of_app. right. apply elem_of_cons. by left.
    + exists L. apply elem_of_app. right. apply elem_of_cons. by right.
Qed.

(** With something left to trade, every level that remains on the
    passive side is beyond the limit. *)
Lemma spec_match_all_gated sym aggressor_side aggressor_id limit_price
    remaining levels k L :
  let m := spec_match sym aggressor_side aggressor_id limit_price
             remaining levels in
  smap_sorted (side_lt (opposite aggressor_side)) (sp_rest m) ->
  (forall k L, (k, L) ∈ sp_rest m -> level_price L = k) ->
  0 < sp_remaining m ->
  (k, L) ∈ sp_rest m ->
  spec_gate_stops aggressor_side limit_price k.
Proof.
  intros m Hsorted Hprice Hpos Hin.
  pose proof (spec_match_stop sym aggressor_side aggressor_id limit_price
                remaining levels Hpos) as Hstop.
  fold m in Hstop.
  destruct (sp_rest m) as [|[k0 best] rest]; [by apply elem_of_nil in Hin|].
  rewrite (Hprice k0 best) in Hstop by (apply elem_of_cons; by left).
  apply elem_of_cons in Hin as [[= -> ->] | Hin]; [done|].
  destruct Hsorted as [Hbelow _].
  pose proof (smap_below_elem _ _ _ _ _ Hbelow Hin) as Hlt.
  destruct Hstop as [Hlim Hgate]. split; [done|].
  destruct aggressor_side; simpl in Hlt; apply Qltb_lt in Hlt.
  - by eapply Qlt_trans.
  - by eapply Qlt_trans.
Qed.

(** *** Books stay uncrossed *)

Lemma symbol_set_side s lv ids lk b :
  symbol_ (set_side s lv ids lk b) = symbol_ b.
Proof. by destruct s. Qed.

Lemma addOrder_symbol b order : symbol_ (snd (addOrder b order)) = symbol_ b.
Proof.
  unfold addOrder. destruct (negb _); [done|].
  destruct (decide _); [done|]. apply symbol_set_side.
Qed.

Lemma cancelOrder_symbol b oid : symbol_ (snd (cancelOrder b oid)) = symbol_ b.
Proof.
  unfold cancelOrder. destruct (order_lookup_ b !! oid); [|done].
  apply symbol_set_side.
Qed.

Lemma new_OrderBook_uncrossed sym : uncrossed (new_OrderBook sym).
Proof. intros kb Lb ka La H. by apply elem_of_nil in H. Qed.

Lemma cancelOrder_uncrossed b oid :
  book_wf b -> uncrossed b -> uncrossed (snd (cancelOrder b oid)).
Proof.
  intros Hwf Hun kb Lb ka La Hb Ha.
  destruct (cancelOrder_keys b oid Buy kb Lb Hwf Hb) as [Lb0 Hb0].
  destruct (cancelOrder_keys b oid Sell ka La Hwf Ha) as [La0 Ha0].
  exact (Hun _ _ _ _ Hb0 Ha0).
Qed.

(** What [executeFill] hands to the second half of [matchOrder]. *)
Lemma executeFill_book_ok b aggressor_side qty limit_price aggressor_id
    fills b' :
  book_wf b -> uncrossed b ->
  executeFill b aggressor_side qty limit_price aggressor_id
  = Some (fills, b') ->
  symbol_ b' = symbol_ b /\ book_wf b' /\ uncrossed b'
  /\ (fills_quantity fills < qty ->
      forall k L, (k, L) ∈ side_levels (opposite aggressor_side) b' ->
                  spec_gate_stops aggressor_side limit_price k).
Proof.
  intros Hwf Hun Hex.
  assert (book_wf b') as Hwf' by exact (executeFill_wf _ _ _ _ _ _ Hwf Hex).
  revert Hex Hwf'. rewrite executeFill_spec. intros [= <- <-] Hwf'.
  set (m := spec_match (symbol_ b) aggressor_side aggressor_id limit_price
              qty (side_levels (opposite aggressor_side) b)) in *.
  destruct (spec_book_own_side b aggressor_side m) as (Hown & _ & Hsym).
  assert (side_levels (opposite aggressor_side)
            (spec_book b aggressor_side m) = sp_rest m) as Hopp.
  { unfold spec_book. by rewrite side_levels_set_side. }
  split; [done|]. split; [done|]. split.
  - assert (forall s k L,
              (k, L) ∈ side_levels s (spec_book b aggressor_side m) ->
              exists L0, (k, L0) ∈ side_levels s b) as Hkeys.
    { intros s k L Hin.
      assert (s = aggressor_side \/ s = opposite aggressor_side)
        as [-> | ->] by (destruct s, aggressor_side; auto).
      - rewrite Hown in Hin. by exists L.
      - rewrite Hopp in Hin. by eapply spec_match_keys. }
    intros kb Lb ka La Hb Ha.
    destruct (Hkeys Buy _ _ Hb) as [Lb0 Hb0].
    destruct (Hkeys Sell _ _ Ha) as [La0 Ha0].
    exact (Hun _ _ _ _ Hb0 Ha0).
  - intros Hshort k L Hin. rewrite Hopp in Hin.
    destruct (spec_match_traded (symbol_ b) aggressor_side aggressor_id
                limit_price qty (side_levels (opposite aggressor_side) b))
      as [Hf _].
    fold m in Hf.
    apply (spec_match_all_gated (symbol_ b) aggressor_side aggressor_id
             limit_price qty (side_levels (opposite aggressor_side) b) k L).
    + fold m. rewrite <- Hopp. apply (wf_sorted _ Hwf').
    + fold m. rewrite <- Hopp. intros k' L' Hin'.
      by eapply (wf_level_price _ Hwf').
    + fold m. lia.
    + done.
Qed.

Lemma matchOrder_book_ok fill_cb total_fills book order r :
  book_wf book -> uncrossed book ->
  matchOrder fill_cb total_fills book order = Some r ->
  symbol_ (r_book r) = symbol_ book /\ book_wf (r_book r)
  /\ uncrossed (r_book r).
Proof.
  intros Hwf Hun.
  destruct (matchOrder_result fill_cb total_fills book order)
    as (fills & book1 & Hex & ->).
  intros [= <-]. simpl.
  destruct (filled_order_facts order fills)
    as (_ & _ & Hside & _ & Hprice & _ & Hrem).
  cbn zeta in Hside, Hprice, Hrem.
  assert (symbol_ book1 = symbol_ book /\ book_wf book1 /\ uncrossed book1
          /\ (0 < remaining_qty (filled_order order fills) ->
              forall k L,
                (k, L) ∈ side_levels (opposite (side order)) book1 ->
                spec_gate_stops (side order) (effective_limit order) k))
    as (Hsym1 & Hwf1 & Hun1 & Hgate).
  { destruct (Z.ltb_spec 0 (remaining_qty order)) as [Hpos | Hle].
    - destruct (executeFill_book_ok _ _ _ _ _ _ _ Hwf Hun Hex)
        as (H1 & H2 & H3 & H4).
      do 3 (split; [done|]). intros Hleft. apply H4. lia.
    - destruct Hex as [-> ->]. do 3 (split; [done|]).
      unfold filled_order. simpl. lia. }
  destruct (Z.ltb_spec 0 (remaining_qty (filled_order order fills)))
    as [Hleft | _]; [|done].
  destruct (type order) eqn:Htype; try done.
  split; [by rewrite addOrder_symbol|]. split; [by apply addOrder_wf|].
  specialize (Hgate Hleft).
  unfold effective_limit in Hgate. rewrite Htype in Hgate.
  intros kb Lb ka La Hb Ha.
  destruct (addOrder_keys _ _ Buy _ _ Hwf1 Hb)
    as [[Lb0 Hb0] | (_ & Hsb & ->)];
    destruct (addOrder_keys _ _ Sell _ _ Hwf1 Ha)
      as [[La0 Ha0] | (_ & Hsa & ->)].
  - exact (Hun1 _ _ _ _ Hb0 Ha0).
  - rewrite Hside in Hsa. rewrite <- Hsa in Hgate. rewrite Hprice.
    by destruct (Hgate _ _ Hb0).
  - rewrite Hside in Hsb. rewrite <- Hsb in Hgate. rewrite Hprice.
    by destruct (Hgate _ _ Ha0).
  - congruence.
Qed.

(** *** [submitOrder] in one piece *)

Lemma submitOrder_result now e order fills events e' :
  submitOrder now e order = Some (fills, events, e') ->
  total_orders_ e' = incr64 (total_orders_ e)
  /\ fill_callback_ e' = fill_callback_ e
  /\ order_callback_ e' = order_callback_ e
  /\ ((~ risk_accepts now e order
       /\ fills = []
       /\ events = notifyOrder (order_callback_ e) (reject order)
       /\ order_books_ e' = order_books_ e
       /\ total_fills_ e' = total_fills_ e)
      \/ (risk_accepts now e order
          /\ exists r,
               matchOrder (fill_callback_ e) (total_fills_ e)
                 (book_of e (symbol order)) order = Some r
               /\ fills = r_fills r
               /\ events
                  = r_events r ++ notifyOrder (order_callback_ e) (r_order r)
               /\ order_books_ e'
                  = <[symbol order := r_book r]> (order_books_ e)
               /\ total_fills_ e' = r_total_fills r)).
Proof.
  unfold submitOrder, risk_accepts, book_of.
  set (checked := match risk_manager_ e with
                  | Some rm => let (result, rm') := checkOrder now rm order in
                               (passed result, Some rm')
                  | None => (true, None)
                  end).
  assert (fst checked = true <->
          match risk_manager_ e with
          | Some rm => passed (fst (checkOrder now rm order)) = true
          | None => True
          end) as Hchecked.
  { unfold checked. destruct (risk_manager_ e) as [rm|]; [|done].
    by destruct (checkOrder now rm order). }
  destruct (fst checked) eqn:Epass; simpl.
  - destruct (getOrCreateOrderBook (order_books_ e) (symbol order))
      as [book books] eqn:Ebook.
    destruct (matchOrder _ _ book order) as [r|] eqn:Em; [|done].
    simpl. intros [= <- <- <-]. simpl. do 3 (split; [done|]).
    right. split; [by apply Hchecked|]. exists r.
    do 3 (split; [done|]). split; [|done].
    unfold getOrCreateOrderBook in Ebook.
    destruct (order_books_ e !! symbol order); injection Ebook as <- <-;
      [done | by rewrite insert_insert_eq].
  - intros [= <- <- <-]. simpl. do 3 (split; [done|]). left.
    split; [|done]. intros H. apply Hchecked in H. done.
Qed.

Lemma executeFill_symbol b aggressor_side qty limit_price aggressor_id r :
  executeFill b aggressor_side qty limit_price aggressor_id = Some r ->
  symbol_ (snd r) = symbol_ b.
Proof.
  rewrite executeFill_spec. intros [= <-]. simpl.
  by destruct (spec_book_own_side b aggressor_side
                 (spec_match (symbol_ b) aggressor_side aggressor_id
                    limit_price qty
                    (side_levels (opposite aggressor_side) b)))
    as (_ & _ & ->).
Qed.

Lemma matchOrder_wf fill_cb total_fills book order r :
  book_wf book ->
  matchOrder fill_cb total_fills book order = Some r ->
  symbol_ (r_book r) = symbol_ book /\ book_wf (r_book r).
Proof.
  intros Hwf.
  destruct (matchOrder_result fill_cb total_fills book order)
    as (fills & book1 & Hex & ->).
  intros [= <-]. simpl.
  assert (symbol_ book1 = symbol_ book /\ book_wf book1) as [Hsym1 Hwf1].
  { destruct (0 <? remaining_qty order).
    - split; [exact (executeFill_symbol _ _ _ _ _ _ Hex)
             |exact (executeFill_wf _ _ _ _ _ _ Hwf Hex)].
    - by destruct Hex as [_ ->]. }
  destruct (0 <? remaining_qty (filled_order order fills)); [|done].
  destruct (type order); try done.
  split; [by rewrite addOrder_symbol | by apply addOrder_wf].
Qed.

Lemma book_of_wf e sym :
  books_well_formed e -> book_wf (book_of e sym).
Proof.
  intros Hok. unfold book_of, getOrCreateOrderBook.
  destruct (order_books_ e !! sym) as [b|] eqn:E; simpl.
  - by apply (Hok sym).
  - apply new_OrderBook_wf.
Qed.

Lemma book_of_uncrossed e sym :
  all_uncrossed e -> uncrossed (book_of e sym).
Proof.
  intros Hun. unfold book_of, getOrCreateOrderBook.
  destruct (order_books_ e !! sym) as [b|] eqn:E; simpl.
  - by apply (Hun sym).
  - apply new_OrderBook_uncrossed.
Qed.

Lemma new_MatchingEngine_ok :
  books_well_formed new_MatchingEngine /\ all_uncrossed new_MatchingEngine.
Proof.
  split; intros sym b H; unfold getOrderBook in H;
    cbn [order_books_ new_MatchingEngine] in H;
    by rewrite lookup_empty in H.
Qed.

Lemma submitOrder_books_wf now e order r :
  books_well_formed e -> submitOrder now e order = Some r ->
  books_well_formed (snd r).
Proof.
  intros Hok. destruct r as [[fills events] e']. intros Hsub.
  destruct (submitOrder_result _ _ _ _ _ _ Hsub)
    as (_ & _ & _ & [(_ & _ & _ & Hb & _) | (_ & r & Hm & _ & _ & Hb & _)]);
    simpl; intros sym b; unfold getOrderBook; rewrite Hb.
  - apply Hok.
  - pose proof (book_of_wf e (symbol order) Hok) as Hwf.
    destruct (matchOrder_wf _ _ _ _ _ Hwf Hm) as (_ & H2).
    destruct (decide (sym = symbol order)) as [-> | Hne].
    + rewrite lookup_insert_eq. by intros [= <-].
    + rewrite lookup_insert_ne by done. apply Hok.
Qed.

Lemma engine_cancelOrder_books_wf e sym order_id :
  books_well_formed e ->
  books_well_formed (snd (engine_cancelOrder e sym order_id)).
Proof.
  intros Hok. unfold engine_cancelOrder.
  destruct (order_books_ e !! sym) as [book|] eqn:E; [|done].
  pose proof (cancelOrder_wf book order_id (Hok _ _ E)) as H2.
  destruct (cancelOrder book order_id) as [ok book']. simpl in *.
  intros sym' b. unfold getOrderBook. cbn [order_books_].
  destruct (decide (sym' = sym)) as [-> | Hne].
  - rewrite lookup_insert_eq. by intros [= <-].
  - rewrite lookup_insert_ne by done. apply Hok.
Qed.

(** [modifyOrder] keeps the books well formed too; what it does not keep
    is [all_uncrossed]. *)
Lemma engine_modifyOrder_books_wf now e sym order_id new_price
    new_quantity :
  books_well_formed e ->
  books_well_formed
    (snd (engine_modifyOrder now e sym order_id new_price new_quantity)).
Proof.
  intros Hok. unfold engine_modifyOrder.
  destruct (order_books_ e !! sym) as [book|] eqn:E; [|done].
  pose proof (modifyOrder_wf now book order_id new_price new_quantity
                (Hok _ _ E)) as H2.
  destruct (modifyOrder now book order_id new_price new_quantity)
    as [ok book'].
  simpl in *.
  intros sym' b. unfold getOrderBook. cbn [order_books_].
  destruct (decide (sym' = sym)) as [-> | Hne].
  - rewrite lookup_insert_eq. by intros [= <-].
  - rewrite lookup_insert_ne by done. apply Hok.
Qed.

Lemma submitOrder_all_uncrossed now e order r :
  books_well_formed e -> all_uncrossed e ->
  submitOrder now e order = Some r -> all_uncrossed (snd r).
Proof.
  intros Hok Hun. destruct r as [[fills events] e']. intros Hsub.
  destruct (submitOrder_result _ _ _ _ _ _ Hsub)
    as (_ & _ & _ & [(_ & _ & _ & Hb & _) | (_ & r & Hm & _ & _ & Hb & _)]);
    simpl; intros sym b; unfold getOrderBook; rewrite Hb.
  - apply Hun.
  - pose proof (book_of_wf e (symbol order) Hok) as Hwf.
    pose proof (book_of_uncrossed e (symbol order) Hun) as Hun0.
    destruct (matchOrder_book_ok _ _ _ _ _ Hwf Hun0 Hm) as (_ & _ & H3).
    destruct (decide (sym = symbol order)) as [-> | Hne].
    + rewrite lookup_insert_eq. by intros [= <-].
    + rewrite lookup_insert_ne by done. apply Hun.
Qed.

Lemma engine_cancelOrder_all_uncrossed e sym order_id :
  books_well_formed e -> all_uncrossed e ->
  all_uncrossed (snd (engine_cancelOrder e sym order_id)).
Proof.
  intros Hok Hun. unfold engine_cancelOrder.
  destruct (order_books_ e !! sym) as [book|] eqn:E; [|done].
  pose proof (cancelOrder_uncrossed book order_id (Hok _ _ E) (Hun _ _ E))
    as H3.
  destruct (cancelOrder book order_id) as [ok book']. simpl in *.
  intros sym' b. unfold getOrderBook. cbn [order_books_].
  destruct (decide (sym' = sym)) as [-> | Hne].
  - rewrite lookup_insert_eq. by intros [= <-].
  - rewrite lookup_insert_ne by done. apply Hun.
Qed.

(** A run of submissions keeps the books well formed and uncrossed. *)
Lemma run_books_ok e l last fills e' :
  books_well_formed e -> all_uncrossed e ->
  Scenario.run e l last = Some (fills, e') ->
  books_well_formed e' /\ all_uncrossed e'.
Proof.
  revert e last. induction l as [|o l IH]; intros e last Hok Hun; simpl.
  - by intros [= _ <-].
  - destruct (submitOrder 0 e o) as [[[fs ev] e1]|] eqn:E; [|done]. simpl.
    apply IH.
    + exact (submitOrder_books_wf 0 e o _ Hok E).
    + exact (submitOrder_all_uncrossed 0 e o _ Hok Hun E).
Qed.

(** *** The order and the counters after a match *)

Lemma filled_order_filled order fills :
  filled_qty (filled_order order fills)
  = filled_qty order + fills_quantity fills.
Proof.
  destruct (filled_order_facts order fills) as (_ & _ & _ & _ & _ & Hq & Hr).
  unfold remaining_qty in Hr. cbn zeta in Hq. lia.
Qed.

Lemma filled_order_status order fills :
  fills <> [] ->
  let o := filled_order order fills in
  (quantity order <= filled_qty o -> status o = Filled)
  /\ (filled_qty o < quantity order -> 0 < filled_qty o ->
      status o = PartiallyFilled).
Proof.
  destruct fills as [|f0 fills _] using rev_ind; [done|]. intros _.
  unfold filled_order. rewrite foldl_app. simpl.
  fold (filled_order order fills).
  destruct (filled_order_facts order fills) as (_ & _ & _ & _ & _ & Hq & _).
  cbn zeta in Hq. rewrite Hq.
  split; intros H.
  - by destruct (Z.leb_spec (quantity order)
                   (filled_qty (filled_order order fills) + fill_quantity f0));
      [|lia].
  - intros Hpos.
    destruct (Z.leb_spec (quantity order)
                (filled_qty (filled_order order fills) + fill_quantity f0));
      [lia|].
    by destruct (Z.ltb_spec 0
                   (filled_qty (filled_order order fills) + fill_quantity f0));
      [|lia].
Qed.

Lemma bind_notifyFill fill_cb (fills : list Fill) :
  fills ≫= notifyFill fill_cb
  = if fill_cb then FillEvent <$> fills else [].
Proof.
  induction fills as [|f fills IH]; [by destruct fill_cb|].
  rewrite bind_cons, IH. by destruct fill_cb.
Qed.

Lemma matchOrder_fills fill_cb total_fills book order r :
  matchOrder fill_cb total_fills book order = Some r ->
  r_total_fills r = foldl (fun n _ => incr64 n) total_fills (r_fills r)
  /\ r_events r = (if fill_cb then FillEvent <$> r_fills r else [])
  /\ fills_quantity (r_fills r) <= Z.max 0 (remaining_qty order)
  /\ forall f, f ∈ r_fills r ->
       fill_order_id f = id order /\ fill_side f = side order
       /\ fill_symbol f = symbol_ book.
Proof.
  destruct (matchOrder_result fill_cb total_fills book order)
    as (fills & book1 & Hex & ->).
  intros [= <-]. simpl. split; [done|]. split; [apply bind_notifyFill|].
  destruct (Z.ltb_spec 0 (remaining_qty order)) as [Hpos | Hle].
  - rewrite executeFill_spec in Hex. injection Hex as <- <-.
    destruct (spec_match_traded (symbol_ book) (side order) (id order)
                (effective_limit order) (remaining_qty order)
                (side_levels (opposite (side order)) book)) as [Hq _].
    pose proof (spec_match_left (symbol_ book) (side order) (id order)
                  (effective_limit order) (remaining_qty order)
                  (side_levels (opposite (side order)) book)) as Hleft.
    split; [lia|].
    intros f [i Hf]%list_elem_of_lookup_1.
    destruct (spec_match_served _ _ _ _ _ _ _ _ Hf)
      as (o & _ & (H1 & _ & H3 & H4 & _) & _).
    done.
  - destruct Hex as [-> ->]. simpl. split; [lia|].
    by intros f H%elem_of_nil.
Qed.

Lemma incr64_bound n : (incr64 n < 2 ^ 64)%N.
Proof. unfold incr64. by apply N.mod_lt. Qed.

Lemma foldl_incr64_count {A} (n : N) (l : list A) :
  (n < 2 ^ 64)%N ->
  foldl (fun n _ => incr64 n) n l = ((n + N.of_nat (length l)) mod 2 ^ 64)%N.
Proof.
  intros Hn. destruct (foldl_incr64 n l) as [H | [-> H]]; [done|].
  simpl. rewrite N.add_0_r. by rewrite N.mod_small.
Qed.

Lemma addOrder_getOrder b order :
  book_wf b -> fst (addOrder b order) = true ->
  getOrder (snd (addOrder b order)) (id order) = Some order.
Proof.
  intros Hwf Hacc.
  pose proof (addOrder_wf b order Hwf) as Hwf'.
  destruct (addOrder_accepted _ _ Hacc) as (_ & _ & Hb').
  assert (smap_find (side_lt (side order)) (price order)
            (side_levels (side order) (snd (addOrder b order)))
          = Some (level_push_back order
                    (default new_PriceLevel
                       (smap_find (side_lt (side order)) (price order)
                          (side_levels (side order) b))))) as Hfind.
  { rewrite Hb', side_levels_set_side.
    by rewrite smap_find_subscript by apply _. }
  destruct (smap_find_Some_elem _ _ _ _ Hfind) as (k & Hin & _).
  eapply wf_getOrder; [done | exact Hin|].
  simpl. apply elem_of_app. right. by apply list_elem_of_singleton.
Qed.

Lemma wf_getOrder_None b oid :
  book_wf b -> getOrder b oid = None -> order_lookup_ b !! oid = None.
Proof.
  intros Hwf Hget. destruct (order_lookup_ b !! oid) as [loc|] eqn:E; [|done].
  destruct (wf_lookup_getOrder b _ _ Hwf E) as (o & Ho & _). congruence.
Qed.

(** The first half of [matchOrder] never files the aggressor's id. *)
Lemma matchOrder_first_half book order fills book1 :
  book_wf book ->
  (if 0 <? remaining_qty order
   then executeFill book (side order) (remaining_qty order)
          (effective_limit order) (id order) = Some (fills, book1)
   else fills = [] /\ book1 = book) ->
  book_wf book1
  /\ side_levels (side order) book1 = side_levels (side order) book
  /\ (order_lookup_ book !! id order = None ->
      order_lookup_ book1 !! id order = None)
  /\ (0 < remaining_qty order -> fills_quantity fills > 0 -> fills <> []).
Proof.
  intros Hwf Hex. destruct (0 <? remaining_qty order).
  - split; [exact (executeFill_wf _ _ _ _ _ _ Hwf Hex)|].
    rewrite executeFill_spec in Hex. injection Hex as <- <-.
    destruct (spec_book_own_side book (side order)
                (spec_match (symbol_ book) (side order) (id order)
                   (effective_limit order) (remaining_qty order)
                   (side_levels (opposite (side order)) book)))
      as (Hown & _ & _).
    split; [done|]. split.
    + intros Hnone. unfold spec_book. rewrite order_lookup_set_side.
      rewrite lookup_foldl_delete. by case_decide.
    + intros _ Hq Hnil. rewrite Hnil in Hq. simpl in Hq. lia.
  - destruct Hex as [-> ->]. do 3 (split; [done|]).
    intros _ Hq. simpl in Hq. lia.
Qed.

Lemma matchOrder_own_side book order fills book1 :
  (if 0 <? remaining_qty order
   then executeFill book (side order) (remaining_qty order)
          (effective_limit order) (id order) = Some (fills, book1)
   else fills = [] /\ book1 = book) ->
  side_levels (side order) book1 = side_levels (side order) book
  /\ side_orders (side order) book1 = side_orders (side order) book.
Proof.
  destruct (0 <? remaining_qty order).
  - rewrite executeFill_spec. intros [= <- <-].
    destruct (spec_book_own_side book (side order)
                (spec_match (symbol_ book) (side order) (id order)
                   (effective_limit order) (remaining_qty order)
                   (side_levels (opposite (side order)) book)))
      as (Hown & Hids & _).
    done.
  - by intros [-> ->].
Qed.

(** ** The unit tests of [test_order_book.cpp], replayed *)

Module OrderBookTests.
Import Scenario.

Example test_add_order :
  let b := adds book0 [buy 1 150 100; sell 2 151 50] in
  (bidOrderCount b, askOrderCount b, getBestBid b, getBestAsk b,
   getSpread b)
  = (1%nat, 1%nat, Some (150%Q, 100), Some (151%Q, 50),
     Some (151 - 150)%Q).
Proof. vm_compute. reflexivity. Qed.

Example test_cancel_order :
  let b := adds book0 [buy 1 150 100; buy 2 149 200] in
  let r := cancelOrder b 1 in
  (fst r, totalOrderCount (snd r), fst (cancelOrder (snd r) 999),
   getBestBid (snd r))
  = (true, 1%nat, false, Some (149%Q, 200)).
Proof. vm_compute. reflexivity. Qed.

Example test_multiple_price_levels :
  let b := adds book0
             [buy 1 150 100; buy 2 149.5 200; buy 3 149 150; buy 4 150 50] in
  getBidLevels (2 ^ 57) true 5 b
  = inr ((fun kl : Price * PriceLevel => kl.2) <$> bid_levels_ b)
  /\ (fun kl : Price * PriceLevel =>
        (level_price kl.2, total_quantity kl.2, id <$> orders kl.2))
       <$> bid_levels_ b
     = [(150%Q, 150, [1%N; 4%N]); (149.5%Q, 200, [2%N]); (149%Q, 150, [3%N])].
Proof. split; vm_compute; reflexivity. Qed.

Example test_execute_fill :
  let b := adds book0 [sell 1 150 100; sell 2 150.5 200; sell 3 151 150] in
  (fun r : list Fill * OrderBook => (fst r, getBestAsk (snd r)))
    <$> executeFill b Buy 250 151 100
  = Some ([mkFill 100 1 "AAPL" Buy 150 100; mkFill 100 2 "AAPL" Buy 150.5 150],
          Some (150.5%Q, 50)).
Proof. vm_compute. reflexivity. Qed.

Example test_modify_order :
  let b := adds book0 [buy 1 150 100] in
  let r1 := modifyOrder 1 b 1 0 200 in
  let r2 := modifyOrder 2 (snd r1) 1 151 0 in
  (fst r1, (fun o => (quantity o, price o)) <$> getOrder (snd r1) 1,
   fst r2, getBestBid (snd r2))
  = (true, Some (200, 150%Q), true, Some (151%Q, 200)).
Proof. vm_compute. reflexivity. Qed.

Example test_mid_price :
  (getMidPrice book0,
   getMidPrice (adds book0 [buy 1 150 100]),
   (fun m => Qeq_bool m 151)
     <$> getMidPrice (adds book0 [buy 1 150 100; sell 2 152 100]))
  = (None, None, Some true).
Proof. vm_compute. reflexivity. Qed.
End OrderBookTests.

(** ** The unit tests of [test_matching_engine.cpp], replayed *)

Module EngineTests.
Import Scenario.

Example test_limit_order_match :
  (fun r : list Fill * MatchingEngine =>
     (brief <$> fst r, getOrderBook (snd r) "AAPL" ≫= getBestBid))
    <$> run new_MatchingEngine
          [lim 1 "AAPL" Sell 150 100; lim 2 "AAPL" Sell 151 200;
           lim 3 "AAPL" Buy 150.5 150] []
  = Some ([(150%Q, 100)], Some (150.5%Q, 50)).
Proof. vm_compute. reflexivity. Qed.

Example test_market_order :
  (fun r : list Fill * MatchingEngine =>
     (brief <$> fst r, getOrderBook (snd r) "AAPL" ≫= getBestAsk))
    <$> run new_MatchingEngine
          [lim 1 "AAPL" Sell 150 100; lim 2 "AAPL" Sell 151 200;
           new_Order 0 3 "AAPL" Buy Market 0 250] []
  = Some ([(150%Q, 100); (151%Q, 150)], Some (151%Q, 50)).
Proof. vm_compute. reflexivity. Qed.

Example test_ioc_order :
  (fun r : list Fill * MatchingEngine =>
     (brief <$> fst r, bidOrderCount <$> getOrderBook (snd r) "AAPL"))
    <$> run new_MatchingEngine
          [lim 1 "AAPL" Sell 150 50;
           new_Order 0 2 "AAPL" Buy IOC 150 100] []
  = Some ([(150%Q, 50)], Some 0%nat).
Proof. vm_compute. reflexivity. Qed.

Example test_with_risk_manager :
  (fun r : list Fill * MatchingEngine =>
     (fst r, bidOrderCount <$> getOrderBook (snd r) "AAPL"))
    <$> run (setRiskManager
               (setOrderSizeLimit "AAPL" 100 (new_RiskManager 0))
               new_MatchingEngine)
          [lim 1 "AAPL" Buy 150 50; lim 2 "AAPL" Buy 150 200] []
  = Some ([], Some 1%nat).
Proof. vm_compute. reflexivity. Qed.

Example test_statistics :
  (fun r : list Fill * MatchingEngine =>
     (total_orders_ (snd r), total_fills_ (snd r)))
    <$> run new_MatchingEngine
          [lim 1 "AAPL" Sell 150 100; lim 2 "AAPL" Buy 150 100;
           lim 3 "AAPL" Buy 149 50] []
  = Some (3%N, 1%N).
Proof. vm_compute. reflexivity. Qed.
End EngineTests.

(** ** The matching primitive *)

(** C1.  [executeFill] always returns, and what it returns is what the
    specified algorithm yields: the fills of [spec_match] on the opposite
    side's levels taken from [begin()] outward, in that order (within a
    level the head order first, each fill for
    [min(remaining, passive remaining)] at the level's price), and the
    book in which the opposite side is what [spec_match] leaves, the
    filled orders and the emptied levels being gone.  No fill is priced
    at a level the price gate stops, and on a well-formed book the fills
    come best price first. *)
Theorem C1_executeFill_follows_algorithm (b : OrderBook)
    (aggressor_side : Side) (qty : Quantity) (limit_price : Price)
    (aggressor_id : OrderId) :
  let m := spec_match (symbol_ b) aggressor_side aggressor_id limit_price
             qty (side_levels (opposite aggressor_side) b) in
  executeFill b aggressor_side qty limit_price aggressor_id
  = Some (sp_fills m, spec_book b aggressor_side m)
  /\ Forall (fun f => ~ spec_gate_stops aggressor_side limit_price
                         (fill_price f)) (sp_fills m)
  /\ (book_wf b ->
      best_first aggressor_side (fill_price <$> sp_fills m)).
Proof.
  intros m. split; [apply executeFill_spec|]. split.
  - apply Forall_forall. intros f Hf.
    destruct (spec_match_fill_levels _ _ _ _ _ _ _ Hf)
      as (k & level & _ & -> & Hgate).
    exact Hgate.
  - intros Hwf. apply spec_match_best_first.
    + apply (wf_sorted b Hwf).
    + intros k level Hin. by eapply wf_level_price.
Qed.

(** ** The order book *)

Lemma wf_resting b oid :
  book_wf b -> (is_Some (order_lookup_ b !! oid) <-> resting b oid).
Proof.
  intros Hwf. split.
  - intros [loc Hl].
    destruct (wf_located b Hwf _ _ Hl) as (k & level & o & Hin & Ho & Hid).
    by exists (loc_side loc), k, level, o.
  - intros (s & k & level & o & Hin & Ho & <-).
    destruct (wf_indexed b Hwf _ _ _ _ Hin Ho) as [Hl _]. by eexists.
Qed.

Lemma isValidOrder_false order :
  isValidOrder order = false
  <-> remaining_qty order <= 0 \/ (price order < 0)%Q.
Proof.
  unfold isValidOrder. rewrite andb_false_iff, Z.ltb_ge.
  assert (Qle_bool 0 (price order) = false <-> (price order < 0)%Q) as ->;
    [|done].
  rewrite <- (Qltb_lt (price order) 0). unfold Qltb.
  by destruct (Qle_bool 0 (price order)).
Qed.

Lemma addOrder_fst b order :
  fst (addOrder b order)
  = isValidOrder order
    && negb (bool_decide (is_Some (order_lookup_ b !! id order))).
Proof.
  unfold addOrder. destruct (isValidOrder order); simpl; [|done].
  by case_decide; [rewrite bool_decide_eq_true_2|rewrite bool_decide_eq_false_2].
Qed.

(** C7.  On a well-formed book [addOrder] returns false exactly when
    [remaining <= 0], [price < 0] or the id already rests in the book, and
    then returns the book unchanged.  Otherwise the level at the order's
    price on its side holds the former orders followed by the new one (a
    new level holds it alone), its total has grown by the order's
    remaining quantity, the other levels and the other side are as before,
    and the id index has gained the entry of the order. *)
Theorem C7_addOrder (b : OrderBook) (order : Order) :
  book_wf b ->
  let r := addOrder b order in
  let s := side order in
  let old := smap_find (side_lt s) (price order) (side_levels s b) in
  (fst r = false <->
     remaining_qty order <= 0 \/ (price order < 0)%Q
     \/ resting b (id order))
  /\ (fst r = false -> snd r = b)
  /\ (fst r = true ->
      smap_find (side_lt s) (price order) (side_levels s (snd r))
      = Some (mkPriceLevel
                (from_option level_price (price order) old)
                (from_option total_quantity 0 old + remaining_qty order)
                (from_option orders [] old ++ [order]))
      /\ (forall p, key_equiv (side_lt s) (price order) p = false ->
            smap_find (side_lt s) p (side_levels s (snd r))
            = smap_find (side_lt s) p (side_levels s b))
      /\ side_levels (opposite s) (snd r) = side_levels (opposite s) b
      /\ order_lookup_ (snd r)
         = <[id order := mkLoc s (price order)]> (order_lookup_ b)).
Proof.
  intros Hwf r s old. split; [|split].
  - unfold r. rewrite addOrder_fst, andb_false_iff, isValidOrder_false.
    rewrite negb_false_iff, bool_decide_eq_true, (wf_resting b _ Hwf). tauto.
  - apply addOrder_refused.
  - intros Hacc. destruct (addOrder_accepted _ _ Hacc) as (_ & _ & Hr).
    unfold r. rewrite Hr. fold s.
    rewrite side_levels_set_side, order_lookup_set_side.
    rewrite side_levels_set_side_ne by apply opposite_ne.
    repeat split.
    + rewrite smap_find_subscript by apply _. fold old. f_equal.
      destruct old as [level|] eqn:Eold; simpl; [|done].
      unfold level_push_back. f_equal.
      destruct (smap_find_Some_elem _ _ _ _ Eold) as (k & Hin & _).
      destruct (wf_level_ok b Hwf _ _ _ Hin) as [_ Hne].
      by destruct (orders level).
    + intros p Hp. by apply smap_find_subscript_ne; [apply _|].
Qed.

Lemma requeued_invalid_example now o new_price new_quantity :
  0 < new_quantity <= filled_qty o ->
  isValidOrder (requeued now o new_price new_quantity) = false.
Proof.
  intros H. apply isValidOrder_false. left. unfold requeued.
  assert ((0 <? new_quantity) = true) as -> by lia.
  unfold remaining_qty. simpl. lia.
Qed.

(** C9.  A modify of a resting order to a positive price different from
    its current one is the cancel of the order followed by the re-add of
    the re-priced order; when the re-add is refused (as it is for
    [0 < new_quantity <= filled], see [requeued_invalid_example]),
    [modifyOrder] returns false and leaves the book as the cancel left it:
    the id is no longer indexed, [getOrder] finds nothing and no level
    holds the order. *)
Theorem C9_failed_requeue_deletes (now : Timestamp) (b : OrderBook)
    (order_id : OrderId) (new_price : Price) (new_quantity : Quantity)
    (o : Order) :
  book_wf b ->
  getOrder b order_id = Some o ->
  (0 < new_price)%Q ->
  ~ (new_price == price o)%Q ->
  let r := modifyOrder now b order_id new_price new_quantity in
  r = addOrder (snd (cancelOrder b order_id))
        (requeued now o new_price new_quantity)
  /\ (isValidOrder (requeued now o new_price new_quantity) = false ->
      fst r = false
      /\ snd r = snd (cancelOrder b order_id)
      /\ order_lookup_ (snd r) !! order_id = None
      /\ getOrder (snd r) order_id = None
      /\ ~ resting (snd r) order_id).
Proof.
  intros Hwf Hget Hpos Hne r.
  destruct (getOrder_Some _ _ _ Hget) as (loc & _ & _ & Hl & _).
  destruct (wf_lookup_getOrder b _ _ Hwf Hl) as (o' & Hget' & Hloc).
  rewrite Hget in Hget'. injection Hget' as <-.
  assert (r = addOrder (snd (cancelOrder b order_id))
                (requeued now o new_price new_quantity)) as Hr.
  { unfold r, modifyOrder. rewrite Hl, Hget.
    assert (Qltb 0 new_price = true) as -> by by apply Qltb_lt.
    assert (Qeq_bool new_price (loc_price loc) = false) as ->; [|done].
    rewrite Hloc. simpl. destruct (Qeq_bool new_price (price o)) eqn:E; [|done].
    by apply Qeq_bool_iff in E. }
  split; [exact Hr|]. intros Hinv.
  assert (fst r = false) as Hfst.
  { rewrite Hr, addOrder_fst, Hinv. done. }
  assert (snd r = snd (cancelOrder b order_id)) as Hsnd.
  { rewrite Hr. apply addOrder_refused. by rewrite <- Hr. }
  assert (order_lookup_ (snd r) !! order_id = None) as Hgone.
  { rewrite Hsnd, (cancelOrder_found _ _ _ Hl). simpl.
    rewrite order_lookup_set_side. apply lookup_delete_eq. }
  repeat split; try done.
  - unfold getOrder. by rewrite Hgone.
  - intros Hrest. apply (wf_resting (snd r)) in Hrest.
    + rewrite Hgone in Hrest. by destruct Hrest.
    + rewrite Hsnd. by apply cancelOrder_wf.
Qed.

(** C6.  In every reachable book every level of either side caches the
    sum of the remaining quantities of its orders and holds at least one
    order. *)
Theorem C6_levels_consistent (b : OrderBook) :
  reachable b ->
  forall s k level,
    (k, level) ∈ side_levels s b ->
    total_quantity level = sum_remaining (orders level)
    /\ orders level <> [].
Proof.
  intros Hreach s k level Hin.
  exact (wf_level_ok b (reachable_wf b Hreach) s k level Hin).
Qed.

(** A quantity-only modify of an indexed order is always accepted. *)
Lemma modifyOrder_in_place_accepts now b order_id new_price new_quantity
    loc o :
  order_lookup_ b !! order_id = Some loc ->
  getOrder b order_id = Some o ->
  Qltb 0 new_price && negb (Qeq_bool new_price (loc_price loc)) = false ->
  fst (modifyOrder now b order_id new_price new_quantity) = true.
Proof.
  intros Hl Hget Hp. unfold modifyOrder. rewrite Hl, Hget, Hp.
  by destruct ((0 <? new_quantity) && negb (new_quantity =? quantity o)).
Qed.

(** C3 (the code departs from the claim).  A resting buy of 100 with 60
    filled is modified to quantity 50 at an unchanged price:
    [modifyOrder] returns true, the order now has quantity 50 against 60
    filled (remaining -10) and its level caches the total -10; a seller
    matched against it afterwards receives a fill of quantity -10. *)
Theorem C3_modify_below_filled_accepted :
  getOrder FilledBelowCase.b1 1 = Some FilledBelowCase.resting_order
  /\ filled_qty FilledBelowCase.resting_order = 60
  /\ (let r := modifyOrder 0 FilledBelowCase.b1 1 0 50 in
      (fst r,
       (fun o => (quantity o, filled_qty o, remaining_qty o))
         <$> getOrder (snd r) 1,
       getBestBid (snd r),
       fst <$> executeFill (snd r) Sell 10 150 9))
     = (true, Some (50, 60, -10), Some (150%Q, -10),
        Some [mkFill 9 1 "AAPL" Sell 150 (-10)]).
Proof. vm_compute. repeat split; reflexivity. Qed.

(** ** The theorems at concrete inputs *)

Lemma FilledBelowCase_reachable : reachable FilledBelowCase.b1.
Proof.
  assert (FilledBelowCase.fill0
          = Some (default [] (fst <$> FilledBelowCase.fill0),
                  FilledBelowCase.b1)) as H
    by (vm_compute; reflexivity).
  change FilledBelowCase.b1
    with (snd (default [] (fst <$> FilledBelowCase.fill0), FilledBelowCase.b1)).
  eapply reach_executeFill; [|exact H].
  apply (reach_addOrder _ _ (reach_new "AAPL")).
Qed.

Lemma C6_witness :
  reachable FilledBelowCase.b1
  /\ forall s k level,
       (k, level) ∈ side_levels s FilledBelowCase.b1 ->
       total_quantity level = sum_remaining (orders level)
       /\ orders level <> [].
Proof.
  split; [exact FilledBelowCase_reachable|].
  exact (C6_levels_consistent FilledBelowCase.b1 FilledBelowCase_reachable).
Defined.

Lemma C7_witness :
  book_wf FilledBelowCase.b1
  /\ fst (addOrder FilledBelowCase.b1 (Scenario.buy 4 150 50)) = true
  /\ smap_find bid_lt 150%Q (bid_levels_
       (snd (addOrder FilledBelowCase.b1 (Scenario.buy 4 150 50))))
     = Some (mkPriceLevel 150 90
               [FilledBelowCase.resting_order; Scenario.buy 4 150 50])
  /\ fst (addOrder FilledBelowCase.b1 (Scenario.buy 1 151 50)) = false
  /\ snd (addOrder FilledBelowCase.b1 (Scenario.buy 1 151 50))
     = FilledBelowCase.b1.
Proof.
  pose proof (reachable_wf _ FilledBelowCase_reachable) as Hwf.
  split; [exact Hwf|].
  destruct (C7_addOrder FilledBelowCase.b1 (Scenario.buy 4 150 50) Hwf)
    as (_ & _ & Hadd).
  destruct (C7_addOrder FilledBelowCase.b1 (Scenario.buy 1 151 50) Hwf)
    as (_ & Hrefused & _).
  assert (fst (addOrder FilledBelowCase.b1 (Scenario.buy 4 150 50)) = true)
    as Hacc by (vm_compute; reflexivity).
  assert (fst (addOrder FilledBelowCase.b1 (Scenario.buy 1 151 50)) = false)
    as Hrej by (vm_compute; reflexivity).
  split; [exact Hacc|]. split; [exact (proj1 (Hadd Hacc))|].
  split; [exact Hrej | exact (Hrefused Hrej)].
Defined.

Lemma C9_witness :
  book_wf FilledBelowCase.b1
  /\ getOrder FilledBelowCase.b1 1 = Some FilledBelowCase.resting_order
  /\ (0 < 151)%Q
  /\ ~ (151 == price FilledBelowCase.resting_order)%Q
  /\ 0 < 50 <= filled_qty FilledBelowCase.resting_order
  /\ (let r := modifyOrder 5 FilledBelowCase.b1 1 151 50 in
      fst r = false
      /\ snd r = snd (cancelOrder FilledBelowCase.b1 1)
      /\ order_lookup_ (snd r) !! 1%N = None
      /\ getOrder (snd r) 1 = None
      /\ ~ resting (snd r) 1).
Proof.
  pose proof (reachable_wf _ FilledBelowCase_reachable) as Hwf.
  assert (getOrder FilledBelowCase.b1 1 = Some FilledBelowCase.resting_order)
    as Hget by (vm_compute; reflexivity).
  assert (0 < 151)%Q as Hpos by (vm_compute; reflexivity).
  assert (~ (151 == price FilledBelowCase.resting_order)%Q) as Hne
    by (vm_compute; discriminate).
  assert (0 < 50 <= filled_qty FilledBelowCase.resting_order) as Hqty
    by (simpl; lia).
  do 5 (split; [assumption|]).
  destruct (C9_failed_requeue_deletes 5 FilledBelowCase.b1 1 151 50
              FilledBelowCase.resting_order Hwf Hget Hpos Hne)
    as [_ Hfail].
  apply Hfail. by apply requeued_invalid_example.
Defined.

Lemma C8_witness :
  risk_manager_ RiskRejectCase.e0 = Some RiskRejectCase.rm0
  /\ passed (fst (checkOrder 0 RiskRejectCase.rm0 RiskRejectCase.order0))
     = false
  /\ exists e' rm',
       submitOrder 0 RiskRejectCase.e0 RiskRejectCase.order0
       = Some ([],
               [OrderEvent (mkOrder 2 "AAPL" Buy Limit 150 200 0 Rejected 0)],
               e')
       /\ order_books_ e' = ∅
       /\ risk_manager_ e' = Some rm'
       /\ positions_ rm' = ∅
       /\ notional_exposures_ rm' = ∅
       /\ total_orders_ e' = 1%N
       /\ total_fills_ e' = 0%N.
Proof.
  split; [reflexivity|]. split; [vm_compute; reflexivity|].
  apply (C8_risk_rejection 0 RiskRejectCase.e0 RiskRejectCase.rm0
           RiskRejectCase.order0).
  - reflexivity.
  - vm_compute. reflexivity.
Defined.

Lemma C4_witness :
  remaining_qty ZeroQuantityCase.order0 <= 0
  /\ exists e',
       submitOrder 0 ZeroQuantityCase.e0 ZeroQuantityCase.order0
       = Some ([], notifyOrder (order_callback_ ZeroQuantityCase.e0)
                     ZeroQuantityCase.order0, e')
       /\ order_books_ e'
          = snd (getOrCreateOrderBook (order_books_ ZeroQuantityCase.e0)
                   (symbol ZeroQuantityCase.order0))
       /\ total_orders_ e' = incr64 (total_orders_ ZeroQuantityCase.e0)
       /\ total_fills_ e' = total_fills_ ZeroQuantityCase.e0
       /\ (forall rm, risk_manager_ ZeroQuantityCase.e0 = Some rm ->
           exists rm', risk_manager_ e' = Some rm'
                       /\ positions_ rm' = positions_ rm
                       /\ notional_exposures_ rm' = notional_exposures_ rm).
Proof.
  split; [vm_compute; discriminate|].
  apply (C4_nothing_to_fill_passes_through 0 ZeroQuantityCase.e0
           ZeroQuantityCase.order0).
  - vm_compute. discriminate.
  - intros rm H. discriminate H.
Defined.

Lemma C10_witness :
  type MarketNotionalCase.order0 = Market
  /\ (price MarketNotionalCase.order0 == 0)%Q
  /\ (Qabs (getNotionalExposure MarketNotionalCase.rm0 "AAPL")
      <= getNotionalLimit MarketNotionalCase.rm0 "AAPL")%Q
  /\ (getTotalNotionalExposure MarketNotionalCase.rm0
      <= global_notional_limit_ MarketNotionalCase.rm0)%Q
  /\ (price MarketNotionalCase.order0
      * inject_Z (quantity MarketNotionalCase.order0) == 0)%Q
  /\ checkNotionalLimit MarketNotionalCase.rm0 MarketNotionalCase.order0
     = risk_pass.
Proof.
  split; [reflexivity|]. split; [reflexivity|].
  split; [vm_compute; discriminate|]. split; [vm_compute; discriminate|].
  apply (C10_market_order_passes_notional MarketNotionalCase.rm0
           MarketNotionalCase.order0).
  - reflexivity.
  - reflexivity.
  - vm_compute. discriminate.
  - intros _. vm_compute. discriminate.
Defined.

Lemma ThreeAsksCase_reachable : reachable ThreeAsksCase.b0.
Proof. repeat apply reach_addOrder. apply reach_new. Qed.

Lemma C1_witness :
  book_wf ThreeAsksCase.b0
  /\ executeFill ThreeAsksCase.b0 Buy 250 151 100
     = Some ([mkFill 100 1 "AAPL" Buy 150 100;
              mkFill 100 2 "AAPL" Buy 150.5 150],
             spec_book ThreeAsksCase.b0 Buy
               (spec_match "AAPL" Buy 100 151 250
                  (ask_levels_ ThreeAsksCase.b0)))
  /\ best_first Buy [150%Q; 150.5%Q].
Proof.
  pose proof (reachable_wf _ ThreeAsksCase_reachable) as Hwf.
  split; [exact Hwf|].
  destruct (C1_executeFill_follows_algorithm ThreeAsksCase.b0 Buy 250 151 100)
    as (Hexec & _ & Hbest).
  split; [exact Hexec | exact (Hbest Hwf)].
Defined.

(** * Further properties of the order book *)

(** X1.  In every reachable book [bidOrderCount] and [askOrderCount] are
    the numbers of orders resting on the bid and on the ask side, and
    [totalOrderCount] is their sum. *)
Theorem X1_order_counts (b : OrderBook) :
  reachable b ->
  bidOrderCount b = length (level_orders (bid_levels_ b))
  /\ askOrderCount b = length (level_orders (ask_levels_ b))
  /\ totalOrderCount b = (bidOrderCount b + askOrderCount b)%nat.
Proof.
  intros Hreach.
  pose proof (reachable_wf b Hreach) as Hwf.
  pose proof (reachable_ids_ok b Hreach) as Hok.
  split; [exact (side_orders_count b Buy Hwf Hok)|].
  split; [exact (side_orders_count b Sell Hwf Hok)|].
  by apply lookup_count.
Qed.

Lemma X1_witness :
  reachable ThreeAsksCase.b0
  /\ bidOrderCount ThreeAsksCase.b0 = 0%nat
  /\ askOrderCount ThreeAsksCase.b0
     = length (level_orders (ask_levels_ ThreeAsksCase.b0))
  /\ totalOrderCount ThreeAsksCase.b0
     = (bidOrderCount ThreeAsksCase.b0 + askOrderCount ThreeAsksCase.b0)%nat.
Proof.
  split; [exact ThreeAsksCase_reachable|].
  destruct (X1_order_counts ThreeAsksCase.b0 ThreeAsksCase_reachable)
    as (H1 & H2 & H3).
  split; [exact H1|]. split; [exact H2 | exact H3].
Defined.

(** X2.  Cancelling an order that [addOrder] has just accepted gives the
    book back exactly as it was before the add: levels, totals, id index
    and id tables. *)
Theorem X2_add_then_cancel (b : OrderBook) (order : Order) :
  reachable b ->
  fst (addOrder b order) = true ->
  cancelOrder (snd (addOrder b order)) (id order) = (true, b).
Proof.
  intros Hreach Hacc.
  pose proof (reachable_wf b Hreach) as Hwf.
  pose proof (reachable_ids_ok b Hreach) as Hok.
  destruct (addOrder_accepted _ _ Hacc) as (_ & Hfresh & ->).
  set (s := side order).
  assert (forall k L o', (k, L) ∈ side_levels s b -> o' ∈ orders L ->
            id o' <> id order) as Hnot.
  { intros k L o' Hin Ho' Hid.
    destruct (wf_indexed b Hwf _ _ _ _ Hin Ho') as [Hl _].
    rewrite Hid in Hl. congruence. }
  erewrite cancelOrder_found
    by (rewrite order_lookup_set_side; apply lookup_insert_eq).
  cbn [loc_side loc_price].
  rewrite side_levels_set_side, side_orders_set_side, order_lookup_set_side,
    set_side_set_side.
  f_equal.
  match goal with |- set_side _ ?X ?Y ?Z _ = _ =>
    assert (X = side_levels s b) as ->;
      [|assert (Y = side_orders s b) as ->;
         [|assert (Z = order_lookup_ b) as ->; [|apply set_side_same]]]
  end.
  - apply smap_visit_subscript; [apply _ | |].
    + unfold level_excise, level_node. simpl. by rewrite N.eqb_refl.
    + intros k L Hin.
      destruct (wf_level_ok b Hwf _ _ _ Hin) as [_ Hne].
      unfold level_excise, level_node. cbn [orders level_push_back].
      rewrite level_node_app_fresh
        by (intros o' Ho'; by apply (Hnot k L o')).
      rewrite erase_node_app_fresh
        by (intros o' Ho'; by apply (Hnot k L o')).
      destruct L as [p t os]. simpl in *. destruct os as [|o1 os]; [done|].
      do 2 f_equal. lia.
  - assert (id order ∉ side_orders s b) as Hnotin.
    { intros [p Hl]%(Hok s). congruence. }
    set_solver.
  - rewrite delete_insert_eq. by apply delete_id.
Qed.

Lemma X2_witness :
  reachable ThreeAsksCase.b0
  /\ fst (addOrder ThreeAsksCase.b0 (Scenario.sell 4 150 70)) = true
  /\ cancelOrder (snd (addOrder ThreeAsksCase.b0 (Scenario.sell 4 150 70))) 4
     = (true, ThreeAsksCase.b0).
Proof.
  split; [exact ThreeAsksCase_reachable|].
  assert (fst (addOrder ThreeAsksCase.b0 (Scenario.sell 4 150 70)) = true)
    as Hacc by (vm_compute; reflexivity).
  split; [exact Hacc|].
  exact (X2_add_then_cancel ThreeAsksCase.b0 (Scenario.sell 4 150 70)
           ThreeAsksCase_reachable Hacc).
Defined.

(** X3.  Cancelling an indexed id of a well-formed book returns true;
    afterwards [getOrder] no longer finds that id, finds every other id
    exactly as before, the index holds one entry less, and cancelling the
    same id again returns false and changes nothing. *)
Theorem X3_cancelOrder (b : OrderBook) (order_id : OrderId) (o : Order) :
  book_wf b ->
  getOrder b order_id = Some o ->
  let r := cancelOrder b order_id in
  fst r = true
  /\ getOrder (snd r) order_id = None
  /\ (forall other, other <> order_id ->
        getOrder (snd r) other = getOrder b other)
  /\ S (totalOrderCount (snd r)) = totalOrderCount b
  /\ cancelOrder (snd r) order_id = (false, snd r).
Proof.
  intros Hwf Hget r.
  destruct (getOrder_Some _ _ _ Hget) as (loc & _ & _ & Hl & _).
  assert (order_lookup_ (snd r) !! order_id = None) as Hgone.
  { unfold r. rewrite (cancelOrder_found _ _ _ Hl). simpl.
    rewrite order_lookup_set_side. apply lookup_delete_eq. }
  split; [unfold r; by rewrite (cancelOrder_found _ _ _ Hl)|].
  split; [unfold getOrder; by rewrite Hgone|].
  split; [intros other Hne; by apply getOrder_cancel_ne|].
  split; [|by apply cancelOrder_unknown].
  unfold r, totalOrderCount. rewrite (cancelOrder_found _ _ _ Hl). simpl.
  rewrite order_lookup_set_side.
  pose proof (map_size_delete order_id (order_lookup_ b)) as Hsz.
  rewrite Hl in Hsz. rewrite Hsz.
  assert (size (order_lookup_ b) <> 0%nat); [|lia].
  intros H0%map_size_empty_inv. by rewrite H0, lookup_empty in Hl.
Qed.

Lemma X3_witness :
  book_wf ThreeAsksCase.b0
  /\ getOrder ThreeAsksCase.b0 2 = Some (Scenario.sell 2 150.5 200)
  /\ (let r := cancelOrder ThreeAsksCase.b0 2 in
      fst r = true
      /\ getOrder (snd r) 2 = None
      /\ (forall other, other <> 2%N ->
            getOrder (snd r) other = getOrder ThreeAsksCase.b0 other)
      /\ S (totalOrderCount (snd r)) = totalOrderCount ThreeAsksCase.b0
      /\ cancelOrder (snd r) 2 = (false, snd r)).
Proof.
  pose proof (reachable_wf _ ThreeAsksCase_reachable) as Hwf.
  assert (getOrder ThreeAsksCase.b0 2 = Some (Scenario.sell 2 150.5 200))
    as Hget by (vm_compute; reflexivity).
  split; [exact Hwf|]. split; [exact Hget|].
  exact (X3_cancelOrder ThreeAsksCase.b0 2 _ Hwf Hget).
Defined.

(** X4.  On a well-formed book [getOrder] finds exactly the resting
    orders: it returns [o] for an id precisely when some level holds [o]
    and [o] carries that id. *)
Theorem X4_getOrder_finds_resting (b : OrderBook) (order_id : OrderId)
    (o : Order) :
  book_wf b ->
  getOrder b order_id = Some o
  <-> exists s k level,
        (k, level) ∈ side_levels s b /\ o ∈ orders level /\ id o = order_id.
Proof.
  intros Hwf. split.
  - intros Hget.
    destruct (getOrder_Some _ _ _ Hget) as (loc & k & level & _ & _ & Hin & _ & Hn).
    destruct (level_node_Some _ _ _ Hn) as [Ho Hid].
    by exists (loc_side loc), k, level.
  - intros (s & k & level & Hin & Ho & <-). by eapply wf_getOrder.
Qed.

Lemma X4_witness :
  book_wf FilledBelowCase.b1
  /\ (getOrder FilledBelowCase.b1 1 = Some FilledBelowCase.resting_order
      <-> exists s k level,
            (k, level) ∈ side_levels s FilledBelowCase.b1
            /\ FilledBelowCase.resting_order ∈ orders level
            /\ id FilledBelowCase.resting_order = 1%N).
Proof.
  pose proof (reachable_wf _ FilledBelowCase_reachable) as Hwf.
  split; [exact Hwf|].
  exact (X4_getOrder_finds_resting FilledBelowCase.b1 1
           FilledBelowCase.resting_order Hwf).
Defined.

Lemma best_is_best b s p q :
  book_wf b -> getBest s b = Some (p, q) ->
  (exists level, (p, level) ∈ side_levels s b
                 /\ q = sum_remaining (orders level))
  /\ forall k level o,
       (k, level) ∈ side_levels s b -> o ∈ orders level ->
       side_lt s (price o) p = false.
Proof.
  intros Hwf. unfold getBest.
  pose proof (wf_sorted b Hwf s) as Hsorted.
  pose proof (wf_level_ok b Hwf s) as Hok.
  pose proof (wf_level_price b Hwf s) as Hprice.
  pose proof (wf_indexed b Hwf s) as Hidx.
  destruct (side_levels s b) as [|[k0 L0] levels]; [done|].
  intros [= <- <-].
  assert ((k0, L0) ∈ (k0, L0) :: levels) as Hhead
    by (apply elem_of_cons; by left).
  rewrite (Hprice _ _ Hhead). split.
  - exists L0. split; [done|]. by destruct (Hok _ _ Hhead).
  - intros k level o Hin Ho.
    destruct (Hidx _ _ _ Hin Ho) as [_ He].
    pose proof (smap_sorted_head _ _ _ _ _ _ Hsorted Hin) as Hk.
    destruct (side_lt s (price o) k0) eqn:E; [|done].
    rewrite key_equiv_sym in He.
    by rewrite (lt_equiv_l _ _ _ _ He E) in Hk.
Qed.

(** X5.  On a well-formed book the best bid is the highest price any
    resting buy order has and the best ask the lowest price any resting
    sell order has; the quantity reported with it is the sum of the
    remaining quantities of the orders at that price. *)
Theorem X5_best_bid_and_ask (b : OrderBook) :
  book_wf b ->
  (forall p q, getBestBid b = Some (p, q) ->
     (exists level, (p, level) ∈ bid_levels_ b
                    /\ q = sum_remaining (orders level))
     /\ forall k level o,
          (k, level) ∈ bid_levels_ b -> o ∈ orders level ->
          (price o <= p)%Q)
  /\ (forall p q, getBestAsk b = Some (p, q) ->
     (exists level, (p, level) ∈ ask_levels_ b
                    /\ q = sum_remaining (orders level))
     /\ forall k level o,
          (k, level) ∈ ask_levels_ b -> o ∈ orders level ->
          (p <= price o)%Q).
Proof.
  intros Hwf. split; intros p q Hbest.
  - destruct (best_is_best b Buy p q Hwf Hbest) as [Hlevel Hall].
    split; [exact Hlevel|]. intros k level o Hin Ho.
    apply Qltb_ge. exact (Hall k level o Hin Ho).
  - destruct (best_is_best b Sell p q Hwf Hbest) as [Hlevel Hall].
    split; [exact Hlevel|]. intros k level o Hin Ho.
    apply Qltb_ge. exact (Hall k level o Hin Ho).
Qed.

Lemma X5_witness :
  book_wf ThreeAsksCase.b0
  /\ getBestAsk ThreeAsksCase.b0 = Some (150%Q, 100)
  /\ forall k level o,
       (k, level) ∈ ask_levels_ ThreeAsksCase.b0 -> o ∈ orders level ->
       (150 <= price o)%Q.
Proof.
  pose proof (reachable_wf _ ThreeAsksCase_reachable) as Hwf.
  assert (getBestAsk ThreeAsksCase.b0 = Some (150%Q, 100)) as Hbest
    by (vm_compute; reflexivity).
  split; [exact Hwf|]. split; [exact Hbest|].
  destruct (X5_best_bid_and_ask ThreeAsksCase.b0 Hwf) as [_ Hask].
  exact (proj2 (Hask _ _ Hbest)).
Defined.

Lemma depth_levels b s n i j L1 L2 :
  book_wf b -> (i < j)%nat ->
  take n (snd <$> side_levels s b) !! i = Some L1 ->
  take n (snd <$> side_levels s b) !! j = Some L2 ->
  side_lt s (level_price L1) (level_price L2) = true.
Proof.
  intros Hwf Hij H1 H2.
  apply lookup_take_Some in H1 as [H1 _].
  apply lookup_take_Some in H2 as [H2 _].
  rewrite list_lookup_fmap in H1, H2.
  apply fmap_Some in H1 as ([k1 L1'] & E1 & ->).
  apply fmap_Some in H2 as ([k2 L2'] & E2 & ->). simpl.
  rewrite (wf_level_price b Hwf s k1 L1')
    by by eapply list_elem_of_lookup_2.
  rewrite (wf_level_price b Hwf s k2 L2')
    by by eapply list_elem_of_lookup_2.
  exact (smap_sorted_lookup (side_lt s) _ i j k1 L1' k2 L2'
           (wf_sorted b Hwf s) Hij E1 E2).
Qed.

Lemma first_levels_facts b s n :
  book_wf b ->
  let l := first_levels n (side_levels s b) in
  length l = min (N.to_nat n) (length (side_levels s b))
  /\ l `prefix_of` (snd <$> side_levels s b)
  /\ (forall i j L1 L2, (i < j)%nat ->
        l !! i = Some L1 -> l !! j = Some L2 ->
        side_lt s (level_price L1) (level_price L2) = true)
  /\ (forall level, level ∈ l -> level_ok level).
Proof.
  intros Hwf. cbn zeta. unfold first_levels.
  rewrite length_take, length_fmap. split; [done|]. split; [|split].
  - apply prefix_take.
  - intros i j L1 L2 Hij H1 H2.
    exact (depth_levels b s _ i j L1 L2 Hwf Hij H1 H2).
  - intros level Hin.
    apply elem_of_take in Hin as (i & Hin%list_elem_of_lookup_2 & _).
    apply list_elem_of_fmap in Hin as ([k L] & -> & Hin).
    exact (wf_level_ok b Hwf s k L Hin).
Qed.

(** X6.  [getBidLevels] and [getAskLevels] on a well-formed book.  Asked
    for more levels than a vector can hold they throw
    [std::length_error]; when the storage reserved for a positive number
    of levels is not granted they throw [std::bad_alloc].  Otherwise they
    return the first [min(levels, number of levels)] levels of their side
    in the map's order (a prefix of the side), bids with strictly falling
    and asks with strictly rising prices, every returned level holding at
    least one order and caching the sum of its remaining quantities. *)
Theorem X6_depth_snapshots (max_size : N) (granted : bool) (levels : N)
    (b : OrderBook) :
  book_wf b ->
  ((max_size < levels)%N ->
   getBidLevels max_size granted levels b = inl length_error
   /\ getAskLevels max_size granted levels b = inl length_error)
  /\ ((levels <= max_size)%N -> levels <> 0%N -> granted = false ->
      getBidLevels max_size granted levels b = inl bad_alloc
      /\ getAskLevels max_size granted levels b = inl bad_alloc)
  /\ ((levels <= max_size)%N -> levels = 0%N \/ granted = true ->
      exists bids asks,
        getBidLevels max_size granted levels b = inr bids
        /\ getAskLevels max_size granted levels b = inr asks
        /\ length bids = min (N.to_nat levels) (length (bid_levels_ b))
        /\ length asks = min (N.to_nat levels) (length (ask_levels_ b))
        /\ bids `prefix_of` (snd <$> bid_levels_ b)
        /\ asks `prefix_of` (snd <$> ask_levels_ b)
        /\ (forall i j L1 L2, (i < j)%nat ->
              bids !! i = Some L1 -> bids !! j = Some L2 ->
              (level_price L2 < level_price L1)%Q)
        /\ (forall i j L1 L2, (i < j)%nat ->
              asks !! i = Some L1 -> asks !! j = Some L2 ->
              (level_price L1 < level_price L2)%Q)
        /\ (forall level, level ∈ bids \/ level ∈ asks -> level_ok level)).
Proof.
  intros Hwf. unfold getBidLevels, getAskLevels, vector_reserve.
  split; [|split].
  - intros Hbig. by assert ((max_size <? levels)%N = true) as ->
      by by apply N.ltb_lt.
  - intros Hfit Hpos ->.
    assert ((max_size <? levels)%N = false) as -> by by apply N.ltb_ge.
    by assert ((levels =? 0)%N = false) as -> by by apply N.eqb_neq.
  - intros Hfit Hgranted.
    assert ((max_size <? levels)%N = false) as -> by by apply N.ltb_ge.
    assert ((levels =? 0)%N || granted = true) as ->.
    { destruct Hgranted as [-> | ->]; [done | apply orb_true_r]. }
    destruct (first_levels_facts b Buy levels Hwf) as (Hb1 & Hb2 & Hb3 & Hb4).
    destruct (first_levels_facts b Sell levels Hwf)
      as (Ha1 & Ha2 & Ha3 & Ha4).
    eexists _, _. do 6 (split; [done|]). split; [|split].
    + intros i j L1 L2 Hij H1 H2. apply Qltb_lt.
      exact (Hb3 i j L1 L2 Hij H1 H2).
    + intros i j L1 L2 Hij H1 H2. apply Qltb_lt.
      exact (Ha3 i j L1 L2 Hij H1 H2).
    + intros level [Hin | Hin]; [by apply Hb4 | by apply Ha4].
Qed.

Lemma X6_witness :
  book_wf ThreeAsksCase.b0
  /\ getAskLevels 1000 false 1001 ThreeAsksCase.b0 = inl length_error
  /\ getAskLevels 1000 false 2 ThreeAsksCase.b0 = inl bad_alloc
  /\ exists bids asks,
       getBidLevels 1000 true 2 ThreeAsksCase.b0 = inr bids
       /\ getAskLevels 1000 true 2 ThreeAsksCase.b0 = inr asks
       /\ length bids = 0%nat
       /\ length asks = 2%nat
       /\ asks `prefix_of` (snd <$> ask_levels_ ThreeAsksCase.b0)
       /\ forall i j L1 L2, (i < j)%nat ->
            asks !! i = Some L1 -> asks !! j = Some L2 ->
            (level_price L1 < level_price L2)%Q.
Proof.
  pose proof (reachable_wf _ ThreeAsksCase_reachable) as Hwf.
  split; [exact Hwf|].
  destruct (X6_depth_snapshots 1000 false 1001 ThreeAsksCase.b0 Hwf)
    as (Hbig & _ & _).
  destruct (X6_depth_snapshots 1000 false 2 ThreeAsksCase.b0 Hwf)
    as (_ & Hrefused & _).
  destruct (X6_depth_snapshots 1000 true 2 ThreeAsksCase.b0 Hwf)
    as (_ & _ & Hok).
  split; [apply Hbig; reflexivity|].
  split; [apply Hrefused; [discriminate | discriminate | reflexivity]|].
  destruct Hok as (bids & asks & H1 & H2 & H3 & H4 & _ & H6 & _ & H8 & _);
    [discriminate | by right|].
  exists bids, asks. by do 5 (split; [done|]).
Defined.

(** The queue of each level: its key and the ids of its orders, front
    first. *)
Lemma modify_in_place_queues b oid loc o nq s :
  order_lookup_ b !! oid = Some loc ->
  getOrder b oid = Some o ->
  (fun kl : Price * PriceLevel => (kl.1, id <$> orders kl.2))
    <$> side_levels s
          (set_side (loc_side loc)
             (smap_subscript (side_lt (loc_side loc)) (loc_price loc)
                new_PriceLevel
                (level_requantify oid nq (nq - quantity o))
                (side_levels (loc_side loc) b))
             (side_orders (loc_side loc) b) (order_lookup_ b) b)
  = (fun kl : Price * PriceLevel => (kl.1, id <$> orders kl.2))
      <$> side_levels s b.
Proof.
  intros Hl Hget.
  destruct (getOrder_Some _ _ _ Hget)
    as (loc0 & k & L & Hl0 & Hfind & _).
  rewrite Hl in Hl0. injection Hl0 as <-.
  destruct (decide (s = loc_side loc)) as [-> | Hne].
  - rewrite side_levels_set_side.
    apply (smap_subscript_image _ (fun L => id <$> orders L) _ _ _ _ L);
      [done|].
    intros level. simpl. apply node_set_quantity_ids.
  - by rewrite side_levels_set_side_ne.
Qed.

(** X7.  A modify that leaves the price alone (new price not positive, or
    equal to the order's price) and gives a positive quantity returns
    true, changes the order's quantity to the new one, and keeps every
    level's queue in the same order: the order keeps its time priority. *)
Theorem X7_quantity_modify_keeps_priority (now : Timestamp) (b : OrderBook)
    (order_id : OrderId) (new_price : Price) (new_quantity : Quantity)
    (o : Order) :
  book_wf b ->
  getOrder b order_id = Some o ->
  (new_price <= 0)%Q \/ (new_price == price o)%Q ->
  0 < new_quantity ->
  let r := modifyOrder now b order_id new_price new_quantity in
  fst r = true
  /\ getOrder (snd r) order_id = Some (set_quantity new_quantity o)
  /\ order_lookup_ (snd r) = order_lookup_ b
  /\ forall s,
       (fun kl : Price * PriceLevel => (kl.1, id <$> orders kl.2))
         <$> side_levels s (snd r)
       = (fun kl : Price * PriceLevel => (kl.1, id <$> orders kl.2))
           <$> side_levels s b.
Proof.
  intros Hwf Hget Hprice Hq r.
  destruct (getOrder_Some _ _ _ Hget)
    as (loc & k & L & Hl & Hfind & Hin & He & Hnode).
  destruct (wf_lookup_getOrder b _ _ Hwf Hl) as (o' & Hget' & Hloc).
  rewrite Hget in Hget'. injection Hget' as <-.
  assert (Qltb 0 new_price && negb (Qeq_bool new_price (loc_price loc))
          = false) as Hpath.
  { destruct Hprice as [Hle | Heq].
    - apply Qltb_ge in Hle. by rewrite Hle.
    - rewrite Hloc. simpl. apply Qeq_bool_iff in Heq. rewrite Heq.
      apply andb_false_r. }
  unfold r, modifyOrder. rewrite Hl, Hget, Hpath.
  assert ((0 <? new_quantity) = true) as -> by lia. simpl.
  destruct (Z.eqb_spec new_quantity (quantity o)) as [Heq | Hne]; simpl.
  - split; [done|]. split; [|done]. rewrite Hget. f_equal.
    rewrite Heq. by destruct o.
  - split; [done|]. split; [|split].
    + unfold getOrder. rewrite order_lookup_set_side, Hl.
      rewrite side_levels_set_side, smap_find_subscript by apply _.
      rewrite Hfind. simpl. unfold level_node. simpl.
      by apply node_set_quantity_node.
    + apply order_lookup_set_side.
    + intros s. by apply modify_in_place_queues.
Qed.

Lemma X7_witness :
  book_wf ThreeAsksCase.b0
  /\ getOrder ThreeAsksCase.b0 1 = Some (Scenario.sell 1 150 100)
  /\ (let r := modifyOrder 0 ThreeAsksCase.b0 1 0 40 in
      fst r = true
      /\ getOrder (snd r) 1
         = Some (set_quantity 40 (Scenario.sell 1 150 100))
      /\ order_lookup_ (snd r) = order_lookup_ ThreeAsksCase.b0
      /\ forall s,
           (fun kl : Price * PriceLevel => (kl.1, id <$> orders kl.2))
             <$> side_levels s (snd r)
           = (fun kl : Price * PriceLevel => (kl.1, id <$> orders kl.2))
               <$> side_levels s ThreeAsksCase.b0).
Proof.
  pose proof (reachable_wf _ ThreeAsksCase_reachable) as Hwf.
  assert (getOrder ThreeAsksCase.b0 1 = Some (Scenario.sell 1 150 100))
    as Hget by (vm_compute; reflexivity).
  split; [exact Hwf|]. split; [exact Hget|].
  apply (X7_quantity_modify_keeps_priority 0 ThreeAsksCase.b0 1 0 40 _
           Hwf Hget).
  - left. vm_compute. discriminate.
  - lia.
Defined.

Lemma modifyOrder_requeue b now oid new_price new_quantity o :
  book_wf b ->
  getOrder b oid = Some o ->
  (0 < new_price)%Q ->
  ~ (new_price == price o)%Q ->
  modifyOrder now b oid new_price new_quantity
  = addOrder (snd (cancelOrder b oid)) (requeued now o new_price new_quantity).
Proof.
  intros Hwf Hget Hpos Hne.
  destruct (getOrder_Some _ _ _ Hget) as (loc & _ & _ & Hl & _).
  destruct (wf_lookup_getOrder b _ _ Hwf Hl) as (o' & Hget' & Hloc).
  rewrite Hget in Hget'. injection Hget' as <-.
  unfold modifyOrder. rewrite Hl, Hget.
  assert (Qltb 0 new_price = true) as -> by by apply Qltb_lt.
  assert (Qeq_bool new_price (loc_price loc) = false) as ->; [|done].
  rewrite Hloc. simpl. destruct (Qeq_bool new_price (price o)) eqn:E; [|done].
  by apply Qeq_bool_iff in E.
Qed.

(** X8.  A modify of a resting order to a different positive price whose
    re-priced order is valid returns true and files the order at the tail
    of the level of the new price on the order's side, behind every order
    already there; [getOrder] then returns the re-priced order. *)
Theorem X8_price_modify_requeues_at_tail (now : Timestamp) (b : OrderBook)
    (order_id : OrderId) (new_price : Price) (new_quantity : Quantity)
    (o : Order) :
  book_wf b ->
  getOrder b order_id = Some o ->
  (0 < new_price)%Q ->
  ~ (new_price == price o)%Q ->
  isValidOrder (requeued now o new_price new_quantity) = true ->
  let r := modifyOrder now b order_id new_price new_quantity in
  let o' := requeued now o new_price new_quantity in
  fst r = true
  /\ getOrder (snd r) order_id = Some o'
  /\ exists level,
       smap_find (side_lt (side o)) new_price (side_levels (side o) (snd r))
       = Some level
       /\ orders level
          = from_option orders []
              (smap_find (side_lt (side o)) new_price
                 (side_levels (side o) (snd (cancelOrder b order_id))))
            ++ [o'].
Proof.
  intros Hwf Hget Hpos Hne Hvalid r o'.
  destruct (getOrder_Some _ _ _ Hget) as (loc & _ & L0 & Hl & _ & _ & _ & Hn).
  destruct (level_node_Some _ _ _ Hn) as [_ Hid].
  destruct (requeued_id now o new_price new_quantity) as (Hid' & Hside & Hp).
  fold o' in Hid', Hside, Hp, Hvalid.
  assert (r = addOrder (snd (cancelOrder b order_id)) o') as Hr
    by by apply modifyOrder_requeue.
  set (b1 := snd (cancelOrder b order_id)) in *.
  assert (book_wf b1) as Hwf1 by by apply cancelOrder_wf.
  assert (order_lookup_ b1 !! id o' = None) as Hfresh.
  { rewrite Hid', Hid. unfold b1. rewrite (cancelOrder_found _ _ _ Hl).
    simpl. rewrite order_lookup_set_side. apply lookup_delete_eq. }
  assert (fst r = true) as Hacc.
  { by rewrite Hr, addOrder_fst, Hvalid, Hfresh. }
  assert (book_wf (snd r)) as Hwf'.
  { rewrite Hr. by apply addOrder_wf. }
  rewrite Hr in Hacc. destruct (addOrder_accepted _ _ Hacc) as (_ & _ & Hb').
  assert (smap_find (side_lt (side o)) new_price (side_levels (side o) (snd r))
          = Some (level_push_back o'
                    (default new_PriceLevel
                       (smap_find (side_lt (side o)) new_price
                          (side_levels (side o) b1))))) as Hfind.
  { rewrite Hr, Hb', Hside, Hp, side_levels_set_side.
    by rewrite smap_find_subscript by apply _. }
  split; [by rewrite Hr|]. split.
  - destruct (smap_find_Some_elem _ _ _ _ Hfind) as (k & Hin & _).
    rewrite <- Hid, <- Hid'. eapply wf_getOrder; [done | exact Hin|].
    simpl. apply elem_of_app. right. by apply list_elem_of_singleton.
  - eexists. split; [exact Hfind|]. simpl.
    by destruct (smap_find (side_lt (side o)) new_price
                   (side_levels (side o) b1)).
Qed.

Lemma X8_witness :
  book_wf ThreeAsksCase.b0
  /\ getOrder ThreeAsksCase.b0 1 = Some (Scenario.sell 1 150 100)
  /\ (let r := modifyOrder 3 ThreeAsksCase.b0 1 151 0 in
      let o' := requeued 3 (Scenario.sell 1 150 100) 151 0 in
      fst r = true
      /\ getOrder (snd r) 1 = Some o'
      /\ exists level,
           smap_find ask_lt 151%Q (ask_levels_ (snd r)) = Some level
           /\ orders level
              = from_option orders []
                  (smap_find ask_lt 151%Q
                     (ask_levels_ (snd (cancelOrder ThreeAsksCase.b0 1))))
                ++ [o']).
Proof.
  pose proof (reachable_wf _ ThreeAsksCase_reachable) as Hwf.
  assert (getOrder ThreeAsksCase.b0 1 = Some (Scenario.sell 1 150 100))
    as Hget by (vm_compute; reflexivity).
  split; [exact Hwf|]. split; [exact Hget|].
  apply (X8_price_modify_requeues_at_tail 3 ThreeAsksCase.b0 1 151 0 _
           Hwf Hget).
  - vm_compute. reflexivity.
  - vm_compute. discriminate.
  - vm_compute. reflexivity.
Defined.

(** X9.  [cleanupLevel] changes nothing in a well-formed book, whatever
    side and price it is asked about: such a book has no empty level to
    erase. *)
Theorem X9_cleanupLevel_is_idle (b : OrderBook) (s : Side) (p : Price) :
  book_wf b -> cleanupLevel b s p = b.
Proof.
  intros Hwf. unfold cleanupLevel. rewrite smap_visit_id.
  - apply set_side_same.
  - intros k level Hin. destruct (wf_level_ok b Hwf _ _ _ Hin) as [_ Hne].
    by destruct (orders level).
Qed.

Lemma X9_witness :
  book_wf ThreeAsksCase.b0
  /\ cleanupLevel ThreeAsksCase.b0 Sell 150 = ThreeAsksCase.b0.
Proof.
  pose proof (reachable_wf _ ThreeAsksCase_reachable) as Hwf.
  split; [exact Hwf|].
  exact (X9_cleanupLevel_is_idle ThreeAsksCase.b0 Sell 150 Hwf).
Defined.

(** X26.  Adding or modifying one order leaves every other order alone:
    on a well-formed book, after [addOrder] or [modifyOrder], whatever
    they return, [getOrder] answers for every other id as it did
    before. *)
Theorem X26_other_orders_untouched (now : Timestamp) (b : OrderBook)
    (order : Order) (order_id : OrderId) (new_price : Price)
    (new_quantity : Quantity) (other : OrderId) :
  book_wf b ->
  (other <> id order ->
   getOrder (snd (addOrder b order)) other = getOrder b other)
  /\ (other <> order_id ->
      getOrder (snd (modifyOrder now b order_id new_price new_quantity)) other
      = getOrder b other).
Proof.
  intros Hwf. split; intros Hne.
  - by apply getOrder_add_ne.
  - by apply getOrder_modify_ne.
Qed.

Lemma X26_witness :
  getOrder (snd (addOrder ThreeAsksCase.b0 (Scenario.sell 4 150 10))) 1
  = getOrder ThreeAsksCase.b0 1
  /\ getOrder (snd (modifyOrder 0 ThreeAsksCase.b0 2 150 10)) 1
     = getOrder ThreeAsksCase.b0 1.
Proof.
  pose proof (reachable_wf _ ThreeAsksCase_reachable) as Hwf.
  destruct (X26_other_orders_untouched 0 ThreeAsksCase.b0
              (Scenario.sell 4 150 10) 2 150 10 1 Hwf) as [H1 H2].
  split; [apply H1 | apply H2]; discriminate.
Defined.

(** X27.  An id that does not rest in a well-formed book cannot be
    cancelled or modified: both calls return false and leave the book as
    it is. *)
Theorem X27_unknown_id (now : Timestamp) (b : OrderBook)
    (order_id : OrderId) (new_price : Price) (new_quantity : Quantity) :
  book_wf b ->
  getOrder b order_id = None ->
  cancelOrder b order_id = (false, b)
  /\ modifyOrder now b order_id new_price new_quantity = (false, b).
Proof.
  intros Hwf Hget.
  pose proof (wf_getOrder_None b order_id Hwf Hget) as Hl.
  split; [by apply cancelOrder_unknown|].
  unfold modifyOrder. by rewrite Hl.
Qed.

Lemma X27_witness :
  cancelOrder ThreeAsksCase.b0 7 = (false, ThreeAsksCase.b0)
  /\ modifyOrder 0 ThreeAsksCase.b0 7 150 10 = (false, ThreeAsksCase.b0).
Proof.
  apply X27_unknown_id.
  - exact (reachable_wf _ ThreeAsksCase_reachable).
  - vm_compute. reflexivity.
Defined.

(** ** Further properties of [executeFill] *)

(** X10.  [executeFill] conserves quantity: the passive side loses exactly
    what the fills trade, the aggressor's own side is not touched, and a
    positive request is never overfilled. *)
Theorem X10_executeFill_conserves_quantity (b : OrderBook)
    (aggressor_side : Side) (qty : Quantity) (limit_price : Price)
    (aggressor_id : OrderId) (fills : list Fill) (b' : OrderBook) :
  executeFill b aggressor_side qty limit_price aggressor_id
  = Some (fills, b') ->
  side_quantity (opposite aggressor_side) b'
  = side_quantity (opposite aggressor_side) b - fills_quantity fills
  /\ side_levels aggressor_side b' = side_levels aggressor_side b
  /\ side_orders aggressor_side b' = side_orders aggressor_side b
  /\ (0 <= qty -> fills_quantity fills <= qty).
Proof.
  rewrite executeFill_spec. intros [= <- <-].
  destruct (spec_match_traded (symbol_ b) aggressor_side aggressor_id
              limit_price qty (side_levels (opposite aggressor_side) b))
    as [Hf Hr].
  destruct (spec_book_own_side b aggressor_side
              (spec_match (symbol_ b) aggressor_side aggressor_id limit_price
                 qty (side_levels (opposite aggressor_side) b)))
    as (Hown & Hids & _).
  split; [|split; [done|split; [done|]]].
  - unfold side_quantity, spec_book. rewrite side_levels_set_side. lia.
  - intros Hq.
    pose proof (spec_match_left (symbol_ b) aggressor_side aggressor_id
                  limit_price qty (side_levels (opposite aggressor_side) b)
                  Hq).
    lia.
Qed.

Lemma X10_witness :
  let r := (spec_match "AAPL" Buy 9 151 250 (ask_levels_ ThreeAsksCase.b0))
  in
  executeFill ThreeAsksCase.b0 Buy 250 151 9
  = Some (sp_fills r, spec_book ThreeAsksCase.b0 Buy r)
  /\ side_quantity Sell (spec_book ThreeAsksCase.b0 Buy r) = 200
  /\ fills_quantity (sp_fills r) = 250.
Proof.
  intros r.
  assert (executeFill ThreeAsksCase.b0 Buy 250 151 9
          = Some (sp_fills r, spec_book ThreeAsksCase.b0 Buy r)) as H
    by apply executeFill_spec.
  split; [exact H|].
  destruct (X10_executeFill_conserves_quantity _ _ _ _ _ _ _ H)
    as (Hq & _ & _ & _).
  split; [|vm_compute; reflexivity].
  change (opposite Buy) with Sell in Hq. rewrite Hq.
  vm_compute. reflexivity.
Defined.

(** X11.  [executeFill] trades all it can: when the fills fall short of
    the requested quantity, the passive side is left empty, or the limit
    is positive and the best passive price left is beyond it. *)
Theorem X11_executeFill_trades_all_it_can (b : OrderBook)
    (aggressor_side : Side) (qty : Quantity) (limit_price : Price)
    (aggressor_id : OrderId) (fills : list Fill) (b' : OrderBook) :
  executeFill b aggressor_side qty limit_price aggressor_id
  = Some (fills, b') ->
  fills_quantity fills < qty ->
  getBest (opposite aggressor_side) b' = None
  \/ exists p q,
       getBest (opposite aggressor_side) b' = Some (p, q)
       /\ spec_gate_stops aggressor_side limit_price p.
Proof.
  rewrite executeFill_spec. intros [= <- <-] Hshort.
  destruct (spec_match_traded (symbol_ b) aggressor_side aggressor_id
              limit_price qty (side_levels (opposite aggressor_side) b))
    as [Hf _].
  pose proof (spec_match_stop (symbol_ b) aggressor_side aggressor_id
                limit_price qty (side_levels (opposite aggressor_side) b))
    as Hstop.
  simpl in Hstop.
  unfold getBest, spec_book. rewrite side_levels_set_side.
  destruct (sp_rest _) as [|[k best] rest]; [by left|].
  right. exists (level_price best), (total_quantity best).
  split; [done|]. apply Hstop. lia.
Qed.

Lemma X11_witness :
  exists fills b',
    executeFill ThreeAsksCase.b0 Buy 500 (1505 # 10) 9 = Some (fills, b')
    /\ fills_quantity fills = 300
    /\ (getBest Sell b' = None
        \/ exists p q, getBest Sell b' = Some (p, q)
                       /\ spec_gate_stops Buy (1505 # 10) p).
Proof.
  destruct (executeFill ThreeAsksCase.b0 Buy 500 (1505 # 10) 9)
    as [[fills b']|] eqn:E; [|by vm_compute in E].
  exists fills, b'. split; [done|].
  assert (fills_quantity fills = 300) as Hq.
  { vm_compute in E. injection E as <- _. vm_compute. reflexivity. }
  split; [exact Hq|].
  apply (X11_executeFill_trades_all_it_can _ _ _ _ _ _ _ E). lia.
Defined.

(** X12.  With a quantity that is not positive, or with nothing resting
    on the passive side, [executeFill] returns no fill and leaves the
    book as it is. *)
Theorem X12_executeFill_idle (b : OrderBook) (aggressor_side : Side)
    (qty : Quantity) (limit_price : Price) (aggressor_id : OrderId) :
  qty <= 0 \/ side_levels (opposite aggressor_side) b = [] ->
  executeFill b aggressor_side qty limit_price aggressor_id = Some ([], b).
Proof.
  intros Hidle. rewrite executeFill_spec. simpl.
  rewrite spec_match_idle by done. unfold spec_book. simpl.
  by rewrite set_side_same.
Qed.

Lemma X12_witness :
  executeFill ThreeAsksCase.b0 Sell 100 150 9
  = Some ([], ThreeAsksCase.b0).
Proof.
  apply X12_executeFill_idle. right. vm_compute. reflexivity.
Defined.

(** X13.  Fills follow price-time priority.  The i-th fill of
    [executeFill] is a trade of the aggressor against the i-th order of
    the passive side read from the best level outward, each level front
    first; it is for no more than that order has left, and every fill but
    the last takes all that its passive order has left. *)
Theorem X13_fills_follow_the_queue (b : OrderBook) (aggressor_side : Side)
    (qty : Quantity) (limit_price : Price) (aggressor_id : OrderId)
    (fills : list Fill) (b' : OrderBook) (i : nat) (f : Fill) :
  executeFill b aggressor_side qty limit_price aggressor_id
  = Some (fills, b') ->
  fills !! i = Some f ->
  exists o,
    level_orders (side_levels (opposite aggressor_side) b) !! i = Some o
    /\ fill_against (symbol_ b) aggressor_side aggressor_id f o
    /\ ((S i < length fills)%nat -> fill_quantity f = remaining_qty o).
Proof.
  rewrite executeFill_spec. intros [= <- <-]. apply spec_match_served.
Qed.

Lemma X13_witness :
  exists fills b' f,
    executeFill ThreeAsksCase.b0 Buy 250 151 9 = Some (fills, b')
    /\ fills !! 1%nat = Some f
    /\ exists o,
         level_orders (side_levels (opposite Buy) ThreeAsksCase.b0) !! 1%nat
         = Some o
         /\ fill_against (symbol_ ThreeAsksCase.b0) Buy 9 f o
         /\ ((2 < length fills)%nat -> fill_quantity f = remaining_qty o).
Proof.
  destruct (executeFill ThreeAsksCase.b0 Buy 250 151 9)
    as [[fills b']|] eqn:E; [|by vm_compute in E].
  destruct (fills !! 1%nat) as [f|] eqn:Ef.
  - exists fills, b', f. split; [done|]. split; [done|].
    exact (X13_fills_follow_the_queue _ _ _ _ _ _ _ _ _ E Ef).
  - exfalso. vm_compute in E. injection E as <- _. by vm_compute in Ef.
Defined.

(** X14.  What a match does to the resting orders of a well-formed book:
    an order that no fill names is found by [getOrder] exactly as before;
    the passive order of a fill was resting, and afterwards it is gone
    when the fill took all it had left, and otherwise still rests with
    the fill applied to it. *)
Theorem X14_executeFill_and_resting_orders (b : OrderBook)
    (aggressor_side : Side) (qty : Quantity) (limit_price : Price)
    (aggressor_id : OrderId) (fills : list Fill) (b' : OrderBook) :
  book_wf b ->
  executeFill b aggressor_side qty limit_price aggressor_id
  = Some (fills, b') ->
  (forall oid, oid ∉ fill_counter_order_id <$> fills ->
     getOrder b' oid = getOrder b oid)
  /\ (forall f, f ∈ fills ->
        exists o,
          getOrder b (fill_counter_order_id f) = Some o
          /\ getOrder b' (fill_counter_order_id f)
             = if remaining_qty o <=? fill_quantity f then None
               else Some (apply_fill (fill_quantity f) o)).
Proof.
  intros Hwf Hex.
  assert (book_wf b') as Hwf' by exact (executeFill_wf _ _ _ _ _ _ Hwf Hex).
  revert Hex Hwf'. rewrite executeFill_spec. intros [= <- <-].
  set (m := spec_match (symbol_ b) aggressor_side aggressor_id limit_price
              qty (side_levels (opposite aggressor_side) b)).
  set (queue := level_orders (side_levels (opposite aggressor_side) b)).
  intros Hwf'.
  pose proof (spec_match_served (symbol_ b) aggressor_side aggressor_id
                limit_price qty (side_levels (opposite aggressor_side) b))
    as Hserved.
  cbn zeta in Hserved. fold m queue in Hserved.
  pose proof (spec_match_queue_after (symbol_ b) aggressor_side aggressor_id
                limit_price qty (side_levels (opposite aggressor_side) b))
    as Hqa.
  cbn zeta in Hqa. fold m queue in Hqa.
  destruct (spec_book_own_side b aggressor_side m) as (Hown & _ & _).
  assert (level_orders
            (side_levels (opposite aggressor_side)
               (spec_book b aggressor_side m))
          = queue_after (sp_fills m) queue) as Hopp.
  { unfold spec_book. by rewrite side_levels_set_side. }
  assert (forall s0, s0 = aggressor_side \/ s0 = opposite aggressor_side)
    as Hsides by (intros []; destruct aggressor_side; auto).
  split.
  - intros oid Hnot. apply option_eq. intros o.
    rewrite !wf_getOrder_iff by done.
    assert (o ∈ queue_after (sp_fills m) queue /\ id o = oid
            <-> o ∈ queue /\ id o = oid) as Hsame.
    { split; intros [Hin <-]; (split; [|done]);
        [apply queue_after_untouched in Hin | apply queue_after_untouched];
        try done;
        intros i f Hf; destruct (Hserved i f Hf) as (o0 & Hq & Hag & _);
        exists o0; (split; [done|]); by destruct Hag as (_ & ? & _). }
    split; intros (s0 & Hin & Hid); exists s0;
      (destruct (Hsides s0) as [-> | ->];
       [by rewrite ?Hown in * | rewrite ?Hopp in *; by apply Hsame]).
  - intros f [i Hf]%list_elem_of_lookup_1.
    destruct (Hserved i f Hf) as (o & Hq & Hag & _).
    destruct Hag as (_ & Hc & _ & _ & Hle).
    assert (o ∈ queue) as Ho by by eapply list_elem_of_lookup_2.
    assert (getOrder b (id o) = Some o) as Hget.
    { apply wf_getOrder_iff; [done|]. by exists (opposite aggressor_side). }
    exists o. rewrite Hc. split; [done|].
    destruct (queue_after_served (sp_fills m) queue i f o) as [Hgone Hstay];
      try done.
    { intros j f' Hf'. destruct (Hserved j f' Hf') as (o1 & ? & _ & ?).
      by exists o1. }
    { by apply wf_side_ids_NoDup. }
    destruct (Z.leb_spec (remaining_qty o) (fill_quantity f)) as [Hfull | Hp].
    + apply eq_None_not_Some. intros [o' Hget'].
      apply wf_getOrder_iff in Hget' as (s0 & Hin & Hid); [|done].
      destruct (Hsides s0) as [-> | ->].
      * rewrite Hown in Hin.
        apply level_orders_elem in Hin as (k1 & L1 & Hin1 & Ho1).
        apply level_orders_elem in Ho as (k2 & L2 & Hin2 & Ho2).
        destruct (wf_unique _ _ _ _ _ _ _ _ _ Hwf Hin1 Ho1 Hin2 Ho2 Hid)
          as [Hs _].
        by destruct aggressor_side.
      * rewrite Hopp in Hin. by apply (Hgone Hfull o').
    + apply wf_getOrder_iff; [done|]. exists (opposite aggressor_side).
      rewrite Hopp. split; [by apply Hstay | done].
Qed.

Lemma X14_witness :
  exists fills b',
    executeFill ThreeAsksCase.b0 Buy 250 151 9 = Some (fills, b')
    /\ getOrder b' 3 = getOrder ThreeAsksCase.b0 3
    /\ getOrder b' 1 = None
    /\ getOrder b' 2 = Some (apply_fill 150 (Scenario.sell 2 150.5 200)).
Proof.
  pose proof (reachable_wf _ ThreeAsksCase_reachable) as Hwf.
  destruct (executeFill ThreeAsksCase.b0 Buy 250 151 9)
    as [[fills b']|] eqn:E; [|by vm_compute in E].
  exists fills, b'. split; [done|].
  destruct (X14_executeFill_and_resting_orders _ _ _ _ _ _ _ Hwf E)
    as [Hkeep _].
  split.
  - apply Hkeep. vm_compute in E. injection E as <- _.
    vm_compute. intros H. inversion H as [|? ? ? H']; subst.
    inversion H' as [|? ? ? H'']; subst. inversion H''.
  - vm_compute in E. injection E as _ <-. split; vm_compute; reflexivity.
Defined.

(** ** Further properties of the quotes and of the engine *)

Lemma TwoSidedCase_reachable : reachable TwoSidedCase.b0.
Proof. repeat apply reach_addOrder. apply reach_new. Qed.

Lemma TwoSidedCase_uncrossed : uncrossed TwoSidedCase.b0.
Proof.
  intros kb Lb ka La Hb Ha. vm_compute in Hb, Ha.
  apply list_elem_of_singleton in Hb as [= -> _].
  apply elem_of_cons in Ha as [[= -> _] | Ha];
    [|apply list_elem_of_singleton in Ha as [= -> _]]; reflexivity.
Qed.

(** X15.  On a well-formed book that is not crossed, [getSpread] and
    [getMidPrice] return a value exactly when both sides have a best
    quote, and the spread is then positive.  With a side empty both
    return nothing. *)
Theorem X15_spread_is_positive (b : OrderBook) :
  book_wf b -> uncrossed b ->
  match getBestBid b, getBestAsk b with
  | Some bid, Some ask =>
      is_Some (getMidPrice b)
      /\ exists sp, getSpread b = Some sp /\ (0 < sp)%Q
  | _, _ => getSpread b = None /\ getMidPrice b = None
  end.
Proof.
  intros Hwf Hun. unfold getSpread, getMidPrice.
  destruct (getBestBid b) as [[pb qb]|] eqn:Eb; [|done].
  destruct (getBestAsk b) as [[pa qa]|] eqn:Ea; [|done].
  destruct (best_is_best b Buy pb qb Hwf Eb) as [(Lb & Hb & _) _].
  destruct (best_is_best b Sell pa qa Hwf Ea) as [(La & Ha & _) _].
  pose proof (Hun _ _ _ _ Hb Ha) as Hlt.
  split; [by eexists|]. eexists. split; [done|]. simpl. lra.
Qed.

Lemma X15_witness :
  getBestBid TwoSidedCase.b0 = Some (149%Q, 100)
  /\ getBestAsk TwoSidedCase.b0 = Some (151%Q, 100)
  /\ is_Some (getMidPrice TwoSidedCase.b0)
  /\ exists sp, getSpread TwoSidedCase.b0 = Some sp /\ (0 < sp)%Q.
Proof.
  split; [vm_compute; reflexivity|]. split; [vm_compute; reflexivity|].
  exact (X15_spread_is_positive TwoSidedCase.b0
           (reachable_wf _ TwoSidedCase_reachable) TwoSidedCase_uncrossed).
Defined.

Lemma TwoSidedEngineCase_ok :
  books_well_formed TwoSidedEngineCase.e0
  /\ all_uncrossed TwoSidedEngineCase.e0.
Proof.
  unfold TwoSidedEngineCase.e0.
  destruct (Scenario.run new_MatchingEngine TwoSidedEngineCase.orders0 [])
    as [[fills e']|] eqn:E; [|by vm_compute in E].
  simpl. destruct new_MatchingEngine_ok as [Hwf Hun].
  exact (run_books_ok _ _ _ _ _ Hwf Hun E).
Qed.

(** [modifyOrder] is not among the calls that keep a book uncrossed: its
    re-queue path adds the re-priced order without matching it.  Moving
    the bid at 149 to 152 leaves it resting above the ask at 151. *)
Example engine_modifyOrder_can_cross :
  ~ all_uncrossed
      (snd (engine_modifyOrder 0 TwoSidedEngineCase.e0 "AAPL" 1 152 0)).
Proof.
  intros Hun.
  destruct (getOrderBook
              (snd (engine_modifyOrder 0 TwoSidedEngineCase.e0 "AAPL" 1 152 0))
              "AAPL") as [b|] eqn:Eb; [|by vm_compute in Eb].
  pose proof (Hun "AAPL" b Eb) as Hb.
  vm_compute in Eb. injection Eb as <-.
  assert ((152 < 151)%Q) as Hlt; [|by vm_compute in Hlt].
  eapply Hb; apply (list_elem_of_lookup_2 _ 0%nat); reflexivity.
Qed.

(** X16.  [submitOrder] and [cancelOrder] keep the books well formed and
    uncrossed: on an engine whose books are well formed and in which no
    book is crossed (each bid level priced strictly below each ask
    level), the same holds after either call, whatever the order, the
    callbacks and the risk manager.  [modifyOrder] is not covered: it
    keeps the books well formed but can cross one, see
    [engine_modifyOrder_can_cross]. *)
Theorem X16_books_stay_uncrossed (e : MatchingEngine) :
  books_well_formed e ->
  all_uncrossed e ->
  (forall now order r,
     submitOrder now e order = Some r ->
     books_well_formed (snd r) /\ all_uncrossed (snd r))
  /\ (forall sym order_id,
        books_well_formed (snd (engine_cancelOrder e sym order_id))
        /\ all_uncrossed (snd (engine_cancelOrder e sym order_id))).
Proof.
  intros Hok Hun. split.
  - intros now order r Hsub. split.
    + by eapply submitOrder_books_wf.
    + by eapply submitOrder_all_uncrossed.
  - intros sym order_id. split.
    + by apply engine_cancelOrder_books_wf.
    + by apply engine_cancelOrder_all_uncrossed.
Qed.

Lemma X16_witness :
  exists r b,
    submitOrder 0 TwoSidedEngineCase.e0 TwoSidedEngineCase.crossing_buy
    = Some r
    /\ fills_quantity (fst (fst r)) = 100
    /\ getOrderBook (snd r) "AAPL" = Some b
    /\ getBestBid b = Some (151.5%Q, 50)
    /\ getBestAsk b = Some (152%Q, 50)
    /\ book_wf b /\ uncrossed b.
Proof.
  destruct TwoSidedEngineCase_ok as [Hok Hun].
  destruct (submitOrder 0 TwoSidedEngineCase.e0
              TwoSidedEngineCase.crossing_buy) as [r|] eqn:E;
    [|by vm_compute in E].
  destruct (getOrderBook (snd r) "AAPL") as [b|] eqn:Eb.
  - exists r, b. split; [done|].
    destruct (X16_books_stay_uncrossed TwoSidedEngineCase.e0 Hok Hun)
      as [Hsubmit _].
    destruct (Hsubmit 0 TwoSidedEngineCase.crossing_buy r E) as [Hwf' Hun'].
    pose proof (Hwf' "AAPL" b Eb) as Hb1.
    pose proof (Hun' "AAPL" b Eb) as Hb2.
    clear Hsubmit Hwf' Hun'.
    vm_compute in E. injection E as <-. vm_compute in Eb.
    injection Eb as <-.
    split; [vm_compute; reflexivity|]. split; [reflexivity|].
    split; [vm_compute; reflexivity|]. split; [vm_compute; reflexivity|].
    split; [exact Hb1 | exact Hb2].
  - exfalso. vm_compute in E. injection E as <-. by vm_compute in Eb.
Defined.

Lemma CrossingCase_wf : books_well_formed CrossingCase.e0.
Proof.
  destruct (submitOrder 0 (setCallbacks true true new_MatchingEngine)
              (Scenario.sell 1 150 100)) as [r|] eqn:E;
    [|by vm_compute in E].
  assert (CrossingCase.e0 = snd r) as ->.
  { vm_compute in E. injection E as <-. vm_compute. reflexivity. }
  eapply submitOrder_books_wf; [|exact E].
  exact (proj1 new_MatchingEngine_ok).
Qed.

(** X17.  What [submitOrder] reports adds up.  The order counter goes up
    by one and the fill counter (a 64-bit value) by the number of fills
    returned, both modulo 2^64; every fill names the submitted order as
    the aggressor, on its side, and carries the symbol of the book filed
    under the order's symbol; the fills never trade more than the order
    had left; the installed fill callback receives the fills in order,
    and after them the order callback receives the order once, its
    filled quantity raised by what the fills trade. *)
Theorem X17_submitOrder_accounting (now : Timestamp) (e : MatchingEngine)
    (order : Order) (fills : list Fill) (events : list Event)
    (e' : MatchingEngine) :
  (total_fills_ e < 2 ^ 64)%N ->
  submitOrder now e order = Some (fills, events, e') ->
  total_orders_ e' = ((total_orders_ e + 1) mod 2 ^ 64)%N
  /\ total_fills_ e'
     = ((total_fills_ e + N.of_nat (length fills)) mod 2 ^ 64)%N
  /\ (forall f, f ∈ fills ->
        fill_order_id f = id order /\ fill_side f = side order
        /\ fill_symbol f = symbol_ (book_of e (symbol order)))
  /\ fills_quantity fills <= Z.max 0 (remaining_qty order)
  /\ exists o',
       id o' = id order
       /\ filled_qty o' = filled_qty order + fills_quantity fills
       /\ events
          = (if fill_callback_ e then FillEvent <$> fills else [])
            ++ (if order_callback_ e then [OrderEvent o'] else []).
Proof.
  intros Hbound Hsub.
  destruct (submitOrder_result _ _ _ _ _ _ Hsub)
    as (Ho & _ & _ & [(_ & -> & -> & _ & Hf)
                      | (_ & r & Hm & -> & -> & _ & Hf)]).
  - split; [done|]. split.
    { rewrite Hf. simpl. rewrite N.add_0_r. by rewrite N.mod_small. }
    split; [by intros f H%elem_of_nil|]. split; [simpl; lia|].
    exists (reject order). split; [done|]. split; [simpl; lia|].
    by destruct (fill_callback_ e).
  - destruct (matchOrder_fills _ _ _ _ _ Hm) as (Ht & He & Hq & Hfills).
    split; [done|]. split.
    { rewrite Hf, Ht. by apply foldl_incr64_count. }
    split; [exact Hfills|].
    split; [done|].
    exists (r_order r). rewrite He.
    destruct (matchOrder_result (fill_callback_ e) (total_fills_ e)
                (book_of e (symbol order)) order)
      as (fills0 & book1 & _ & Hr).
    rewrite Hr in Hm. injection Hm as <-. simpl.
    destruct (filled_order_facts order fills0) as (Hid & _).
    pose proof (filled_order_filled order fills0) as Hfq.
    split; [|split; [|done]];
      destruct (0 <? remaining_qty (filled_order order fills0));
      try destruct (type order); done.
Qed.

Lemma X17_witness :
  exists fills events e',
    submitOrder 0 CrossingCase.e0 CrossingCase.small_buy
    = Some (fills, events, e')
    /\ total_orders_ e' = 2%N
    /\ total_fills_ e' = 1%N
    /\ fills = [mkFill 2 1 "AAPL" Buy 150 60]
    /\ exists o',
         filled_qty o' = 60 /\ events = (FillEvent <$> fills) ++ [OrderEvent o'].
Proof.
  destruct (submitOrder 0 CrossingCase.e0 CrossingCase.small_buy)
    as [[[fills events] e']|] eqn:E; [|by vm_compute in E].
  exists fills, events, e'. split; [done|].
  destruct (X17_submitOrder_accounting 0 CrossingCase.e0
              CrossingCase.small_buy fills events e')
    as (H1 & H2 & _ & _ & o' & _ & H3 & H4); [reflexivity | exact E|].
  assert (fills = [mkFill 2 1 "AAPL" Buy 150 60]) as Hf.
  { vm_compute in E. by injection E as <- _ _. }
  split; [exact H1|]. split; [by rewrite H2, Hf|].
  split; [exact Hf|]. exists o'.
  split; [by rewrite H3, Hf | exact H4].
Defined.

(** X18.  When the book filed under its symbol is well formed, a Limit
    order that passes the risk gate, is priced at zero or above and whose
    id does not rest in that book ends up in it exactly when the fills
    leave it a remainder: [getOrder] then returns the order with the
    fills applied to it, and nothing when the fills took all of it. *)
Theorem X18_limit_remainder_rests (now : Timestamp) (e : MatchingEngine)
    (order : Order) (fills : list Fill) (events : list Event)
    (e' : MatchingEngine) :
  book_wf (book_of e (symbol order)) ->
  risk_accepts now e order ->
  type order = Limit ->
  (0 <= price order)%Q ->
  getOrder (book_of e (symbol order)) (id order) = None ->
  submitOrder now e order = Some (fills, events, e') ->
  exists b',
    getOrderBook e' (symbol order) = Some b'
    /\ getOrder b' (id order)
       = if 0 <? remaining_qty order - fills_quantity fills
         then Some (filled_order order fills)
         else None.
Proof.
  intros Hwf Hrisk Htype Hprice Hfresh Hsub.
  apply wf_getOrder_None in Hfresh; [|done].
  destruct (submitOrder_result _ _ _ _ _ _ Hsub)
    as (_ & _ & _ & [(Hrej & _) | (_ & r & Hm & -> & _ & Hb & _)]); [done|].
  exists (r_book r). split.
  { unfold getOrderBook. rewrite Hb. apply lookup_insert_eq. }
  destruct (matchOrder_result (fill_callback_ e) (total_fills_ e)
              (book_of e (symbol order)) order)
    as (fills0 & book1 & Hex & Hr).
  rewrite Hr in Hm. injection Hm as <-. simpl.
  destruct (matchOrder_first_half _ _ _ _ Hwf Hex) as (Hwf1 & _ & Hl & _).
  specialize (Hl Hfresh).
  destruct (filled_order_facts order fills0)
    as (Hid & _ & _ & _ & Hp & _ & Hrem).
  cbn zeta in Hid, Hp, Hrem. rewrite <- Hrem, Htype.
  destruct (0 <? remaining_qty (filled_order order fills0)) eqn:Eleft.
  - rewrite <- Hid. apply addOrder_getOrder; [done|].
    rewrite addOrder_fst. unfold isValidOrder.
    rewrite Eleft, Hid, Hl, Hp. simpl.
    apply andb_true_intro. split; [by apply Qle_bool_iff | done].
  - unfold getOrder. by rewrite Hl.
Qed.

Lemma X18_witness :
  exists fills events e' b',
    submitOrder 0 CrossingCase.e0 CrossingCase.large_buy
    = Some (fills, events, e')
    /\ fills_quantity fills = 100
    /\ getOrderBook e' "AAPL" = Some b'
    /\ getOrder b' 2 = Some (filled_order CrossingCase.large_buy fills)
    /\ remaining_qty (filled_order CrossingCase.large_buy fills) = 60.
Proof.
  destruct (submitOrder 0 CrossingCase.e0 CrossingCase.large_buy)
    as [[[fills events] e']|] eqn:E; [|by vm_compute in E].
  destruct (X18_limit_remainder_rests 0 CrossingCase.e0
              CrossingCase.large_buy fills events e'
              (book_of_wf CrossingCase.e0 "AAPL" CrossingCase_wf))
    as (b' & H1 & H2); try done.
  assert (fills = [mkFill 2 1 "AAPL" Buy 150 100]) as Hf.
  { vm_compute in E. by injection E as <- _ _. }
  exists fills, events, e', b'. split; [done|].
  split; [by rewrite Hf|]. split; [exact H1|].
  split; [|by rewrite Hf].
  change (id CrossingCase.large_buy) with 2%N in H2.
  rewrite H2, Hf. reflexivity.
Defined.

(** X19.  How an accepted order with something left to fill ends.  When
    the fills cover all of it, the order is reported [Filled]; when they
    fall short and the order is not a Limit order, it is reported
    [Cancelled].  In both cases nothing is added to the order's own side
    of the book: only the remainder of a Limit order ever rests. *)
Theorem X19_how_an_order_ends (now : Timestamp) (e : MatchingEngine)
    (order : Order) (fills : list Fill) (events : list Event)
    (e' : MatchingEngine) :
  risk_accepts now e order ->
  0 < remaining_qty order ->
  type order <> Limit \/ remaining_qty order <= fills_quantity fills ->
  submitOrder now e order = Some (fills, events, e') ->
  exists o' b',
    events = (if fill_callback_ e then FillEvent <$> fills else [])
             ++ notifyOrder (order_callback_ e) o'
    /\ status o' = (if remaining_qty order <=? fills_quantity fills
                    then Filled else Cancelled)
    /\ getOrderBook e' (symbol order) = Some b'
    /\ side_levels (side order) b'
       = side_levels (side order) (book_of e (symbol order))
    /\ side_orders (side order) b'
       = side_orders (side order) (book_of e (symbol order)).
Proof.
  intros Hrisk Hpos Hcase Hsub.
  destruct (submitOrder_result _ _ _ _ _ _ Hsub)
    as (_ & _ & _ & [(Hrej & _) | (_ & r & Hm & -> & -> & Hb & _)]); [done|].
  destruct (matchOrder_fills _ _ _ _ _ Hm) as (_ & -> & _).
  exists (r_order r), (r_book r). split; [done|].
  assert (getOrderBook e' (symbol order) = Some (r_book r)) as Hbook.
  { unfold getOrderBook. rewrite Hb. apply lookup_insert_eq. }
  destruct (matchOrder_result (fill_callback_ e) (total_fills_ e)
              (book_of e (symbol order)) order)
    as (fills0 & book1 & Hex & Hr).
  rewrite Hr in Hm. injection Hm as <-. clear Hr.
  cbn [r_order r_book r_fills] in *.
  destruct (matchOrder_own_side _ _ _ _ Hex) as [Hown Hids].
  destruct (filled_order_facts order fills0)
    as (_ & _ & _ & _ & _ & Hq & Hrem).
  cbn zeta in Hq, Hrem. revert Hbook. rewrite Hrem.
  destruct (Z.ltb_spec 0 (remaining_qty order - fills_quantity fills0))
    as [Hleft | Hdone]; intros Hbook.
  - destruct Hcase as [Htype | Hall]; [|lia].
    assert ((remaining_qty order <=? fills_quantity fills0) = false) as ->
      by lia.
    revert Hbook Htype. by destruct (type order).
  - assert ((remaining_qty order <=? fills_quantity fills0) = true) as ->
      by lia.
    split; [|done].
    assert (fills0 <> []) as Hne.
    { intros ->. simpl in Hdone. lia. }
    destruct (filled_order_status order fills0 Hne) as [Hfilled _].
    apply Hfilled. unfold remaining_qty in Hrem, Hdone. lia.
Qed.

Lemma X19_witness :
  exists fills events e' o' b',
    submitOrder 0 CrossingCase.e0 CrossingCase.market_buy
    = Some (fills, events, e')
    /\ events = (FillEvent <$> fills) ++ [OrderEvent o']
    /\ status o' = Cancelled
    /\ getOrderBook e' "AAPL" = Some b'
    /\ bid_levels_ b' = [].
Proof.
  destruct (submitOrder 0 CrossingCase.e0 CrossingCase.market_buy)
    as [[[fills events] e']|] eqn:E; [|by vm_compute in E].
  assert (fills_quantity fills = 100) as Hq.
  { vm_compute in E. injection E as <- _ _. vm_compute. reflexivity. }
  destruct (X19_how_an_order_ends 0 CrossingCase.e0 CrossingCase.market_buy
              fills events e') as (o' & b' & H1 & H2 & H3 & H4 & _).
  - vm_compute. exact I.
  - vm_compute. reflexivity.
  - left. discriminate.
  - exact E.
  - exists fills, events, e', o', b'. split; [done|].
    rewrite Hq in H2. split; [exact H1|]. split; [exact H2|].
    split; [exact H3|]. exact H4.
Defined.

Lemma fills_quantity_positive fills :
  fills <> [] -> (forall f, f ∈ fills -> 0 < fill_quantity f) ->
  0 < fills_quantity fills.
Proof.
  induction fills as [|f fills IH]; [done|]. intros _ Hall. simpl.
  assert (0 < fill_quantity f) by (apply Hall; apply elem_of_cons; by left).
  destruct fills as [|f' fills']; [simpl; lia|].
  assert (0 < fills_quantity (f' :: fills')); [|lia].
  apply IH; [done|]. intros f0 H0. apply Hall. apply elem_of_cons. by right.
Qed.

(** X28.  The status of an order follows the fills applied to it.  After
    one or more fills of positive quantity on an order that had nothing
    negative filled, the remaining quantity is down by what the fills
    trade, the status is [Filled] when nothing remains and
    [PartiallyFilled] otherwise, and the order is active exactly when it
    is not filled; a cancelled or rejected order is not active. *)
Theorem X28_status_follows_fills (o : Order) (fills : list Fill) :
  0 <= filled_qty o ->
  fills <> [] ->
  (forall f, f ∈ fills -> 0 < fill_quantity f) ->
  let o' := filled_order o fills in
  remaining_qty o' = remaining_qty o - fills_quantity fills
  /\ status o' = (if is_filled o' then Filled else PartiallyFilled)
  /\ is_active o' = negb (is_filled o')
  /\ is_active (cancel o') = false
  /\ is_active (reject o') = false.
Proof.
  intros Hfilled Hne Hpos o'.
  destruct (filled_order_facts o fills) as (_ & _ & _ & _ & _ & Hq & Hrem).
  pose proof (filled_order_filled o fills) as Hf.
  pose proof (fills_quantity_positive fills Hne Hpos) as Hsum.
  destruct (filled_order_status o fills Hne) as [Hfull Hpart].
  fold o' in Hq, Hrem, Hf, Hfull, Hpart. cbn zeta in Hq, Hfull, Hpart.
  split; [done|].
  assert (status o' = if is_filled o' then Filled else PartiallyFilled) as Hst.
  { unfold is_filled. rewrite Hq.
    destruct (Z.leb_spec (quantity o) (filled_qty o'));
      [apply Hfull | apply Hpart]; lia. }
  split; [done|]. split; [|done].
  unfold is_active. rewrite Hst. by destruct (is_filled o').
Qed.

Lemma X28_witness :
  let o' := filled_order (Scenario.buy 1 150 100)
              [mkFill 1 2 "AAPL" Buy 150 60; mkFill 1 3 "AAPL" Buy 150 40] in
  remaining_qty o' = 0 /\ status o' = Filled /\ is_active o' = false.
Proof.
  destruct (X28_status_follows_fills (Scenario.buy 1 150 100)
              [mkFill 1 2 "AAPL" Buy 150 60; mkFill 1 3 "AAPL" Buy 150 40])
    as (H1 & H2 & H3 & _).
  - simpl. lia.
  - discriminate.
  - intros f Hin.
    repeat (apply elem_of_cons in Hin as [-> | Hin]; [simpl; lia|]).
    by apply elem_of_nil in Hin.
  - intros o'. split; [exact H1|]. split; [exact H2 | exact H3].
Defined.

(** ** Further properties of the risk manager *)

Section RiskMore.
Implicit Types (rm : RiskManager) (order : Order).

Lemma total_exposure_bounds (exposures : gmap Symbol Q) :
  let total :=
    map_fold (fun (_ : Symbol) exposure total => (total + Qabs exposure)%Q)
             0%Q exposures in
  (0 <= total)%Q
  /\ forall sym, (Qabs (default 0%Q (exposures !! sym)) <= total)%Q.
Proof.
  cbn zeta.
  apply (map_fold_weak_ind
           (fun (total : Q) (m : gmap Symbol Q) =>
              (0 <= total)%Q
              /\ forall sym, (Qabs (default 0%Q (m !! sym)) <= total)%Q)).
  - split; [apply Qle_refl|]. intros sym. rewrite lookup_empty. simpl.
    apply Qle_refl.
  - intros i x m r Hi [H0 Hall].
    pose proof (Qabs_nonneg x) as Hx. split; [lra|].
    intros sym. destruct (decide (sym = i)) as [-> | Hne].
    + rewrite lookup_insert_eq. simpl. lra.
    + rewrite lookup_insert_ne by done. specialize (Hall sym). lra.
Qed.

Lemma updatePosition_facts rm sym s q p :
  let rm' := updatePosition rm sym s q p in
  getPosition rm' sym = getPosition rm sym + direction s * q
  /\ (forall other, other <> sym ->
        getPosition rm' other = getPosition rm other
        /\ getNotionalExposure rm' other = getNotionalExposure rm other).
Proof.
  unfold getPosition, getNotionalExposure, updatePosition. simpl.
  rewrite !lookup_insert_eq. simpl. split; [done|].
  intros other Hne. by rewrite !lookup_insert_ne by done.
Qed.

Lemma updatePositions_facts rm sym s fills :
  (forall f, f ∈ fills -> fill_symbol f = sym /\ fill_side f = s) ->
  let rm' := updatePositions rm fills in
  getPosition rm' sym = getPosition rm sym + direction s * fills_quantity fills
  /\ (forall other, other <> sym ->
        getPosition rm' other = getPosition rm other
        /\ getNotionalExposure rm' other = getNotionalExposure rm other).
Proof.
  unfold updatePositions. revert rm.
  induction fills as [|f fills IH]; intros rm Hall; cbn zeta.
  - simpl. split; [lia | done].
  - destruct (Hall f) as [Hsym Hside]; [apply elem_of_cons; by left|].
    cbn [foldl].
    destruct (IH (updatePosition rm (fill_symbol f) (fill_side f)
                    (fill_quantity f) (fill_price f)))
      as (Hp & Hother).
    { intros f' Hf'. apply Hall. apply elem_of_cons. by right. }
    cbn zeta in Hp, Hother. rewrite Hsym, Hside in *.
    destruct (updatePosition_facts rm sym s (fill_quantity f) (fill_price f))
      as (Hp1 & Hother1).
    cbn zeta in Hp1, Hother1.
    split.
    + rewrite Hp, Hp1. simpl. lia.
    + intros other Hne. destruct (Hother other Hne) as [-> ->].
      by apply Hother1.
Qed.

Lemma submitOrder_risk now e order fills events e' :
  submitOrder now e order = Some (fills, events, e') ->
  risk_manager_ e'
  = (fun rm => updatePositions (snd (checkOrder now rm order)) fills)
      <$> risk_manager_ e.
Proof.
  unfold submitOrder.
  destruct (risk_manager_ e) as [rm|]; simpl.
  - destruct (checkOrder now rm order) as [result rm1]. simpl.
    destruct (passed result); simpl.
    + destruct (getOrCreateOrderBook _ _) as [book books].
      destruct (matchOrder _ _ _ _) as [r|]; [|done]. simpl.
      by intros [= <- <- <-].
    + by intros [= <- <- <-].
  - destruct (getOrCreateOrderBook _ _) as [book books].
    destruct (matchOrder _ _ _ _) as [r|]; [|done]. simpl.
    by intros [= <- <- <-].
Qed.
End RiskMore.

(** X20.  The total notional exposure is never negative and bounds the
    size of every symbol's exposure. *)
Theorem X20_total_exposure_bounds (rm : RiskManager) (sym : Symbol) :
  (0 <= getTotalNotionalExposure rm)%Q
  /\ (Qabs (getNotionalExposure rm sym) <= getTotalNotionalExposure rm)%Q.
Proof.
  destruct (total_exposure_bounds (notional_exposures_ rm)) as [H0 Hall].
  split; [exact H0 | exact (Hall sym)].
Qed.

(** X21.  [submitOrder] reports its fills to the risk manager: the
    position kept for the symbol of the book the order was matched in
    (the book filed under the order's symbol) moves by the traded
    quantity, up for a buy and down for a sell, and no other symbol's
    position or notional exposure changes. *)
Theorem X21_positions_follow_the_fills (now : Timestamp) (e : MatchingEngine)
    (rm : RiskManager) (order : Order) (fills : list Fill)
    (events : list Event) (e' : MatchingEngine) :
  risk_manager_ e = Some rm ->
  submitOrder now e order = Some (fills, events, e') ->
  let sym := symbol_ (book_of e (symbol order)) in
  exists rm',
    risk_manager_ e' = Some rm'
    /\ getPosition rm' sym
       = getPosition rm sym + direction (side order) * fills_quantity fills
    /\ forall other, other <> sym ->
         getPosition rm' other = getPosition rm other
         /\ getNotionalExposure rm' other = getNotionalExposure rm other.
Proof.
  intros Hrm Hsub sym.
  rewrite (submitOrder_risk _ _ _ _ _ _ Hsub), Hrm. simpl.
  eexists. split; [done|].
  destruct (checkOrder_positions now rm order) as [Hp Hn].
  assert (forall f, f ∈ fills ->
            fill_symbol f = sym /\ fill_side f = side order)
    as Hfills.
  { destruct (submitOrder_result _ _ _ _ _ _ Hsub)
      as (_ & _ & _ & [(_ & -> & _) | (_ & r & Hm & -> & _)]).
    - by intros f H%elem_of_nil.
    - destruct (matchOrder_fills _ _ _ _ _ Hm) as (_ & _ & _ & Hf).
      intros f Hin. by destruct (Hf f Hin) as (_ & H2 & H3). }
  destruct (updatePositions_facts (snd (checkOrder now rm order))
              sym (side order) fills Hfills)
    as (H1 & H3).
  cbn zeta in H1, H3.
  unfold getPosition, getNotionalExposure in *.
  rewrite Hp, Hn in *. done.
Qed.

Lemma X21_witness :
  exists fills events e' rm',
    submitOrder 0 RiskTradingCase.e0 CrossingCase.small_buy
    = Some (fills, events, e')
    /\ fills_quantity fills = 60
    /\ risk_manager_ e' = Some rm'
    /\ getPosition rm' "AAPL" = 60
    /\ getPosition rm' "MSFT" = 0.
Proof.
  destruct (submitOrder 0 RiskTradingCase.e0 CrossingCase.small_buy)
    as [[[fills events] e']|] eqn:E; [|by vm_compute in E].
  destruct (X21_positions_follow_the_fills 0 RiskTradingCase.e0
              (new_RiskManager 0) CrossingCase.small_buy fills events e')
    as (rm' & H1 & H2 & H3); [vm_compute; reflexivity | exact E|].
  assert (fills_quantity fills = 60) as Hq.
  { vm_compute in E. injection E as <- _ _. vm_compute. reflexivity. }
  exists fills, events, e', rm'. split; [done|]. split; [exact Hq|].
  split; [exact H1|].
  change (symbol_ (book_of RiskTradingCase.e0
                     (symbol CrossingCase.small_buy))) with "AAPL" in H2, H3.
  split.
  - rewrite H2, Hq. vm_compute. reflexivity.
  - destruct (H3 "MSFT") as [-> _]; [discriminate | reflexivity].
Defined.

(** *** The order rate window *)

Lemma quot_below_one a b : 0 < b -> a < b -> (1 <=? Z.quot a b) = false.
Proof.
  intros Hb Hab. apply Z.leb_gt.
  destruct (Z.le_gt_cases 0 a) as [Hpos | Hneg].
  - rewrite Z.quot_small; lia.
  - pose proof (Z.quot_opp_l (- a) b) as H. rewrite Z.opp_involutive in H.
    pose proof (Z.quot_pos (- a) b). lia.
Qed.

Lemma quot_at_least_one a b : 0 < b -> b <= a -> (1 <=? Z.quot a b) = true.
Proof.
  intros Hb Hab. apply Z.leb_le.
  apply Z.quot_le_lower_bound; lia.
Qed.

Lemma rate_exhausted (c L : N) (start n : nat) :
  (L <= c)%N ->
  (fun i => bool_decide (c + N.of_nat i < L)%N) <$> seq start n
  = replicate n false.
Proof.
  intros Hle. revert start. induction n as [|n IH]; intros start; [done|].
  csimpl. rewrite IH. f_equal. apply bool_decide_eq_false_2. lia.
Qed.

Lemma checkOrderRate_run_window nows rm :
  (0 < order_rate_limit_ rm)%N ->
  (forall now, now ∈ nows -> now - rate_window_start_ rm < ticks_per_second) ->
  fst (checkOrderRate_run nows rm)
  = (fun i => bool_decide (orders_this_second_ rm + N.of_nat i
                           < order_rate_limit_ rm)%N)
      <$> seq 0 (length nows).
Proof.
  revert rm. induction nows as [|now later IH]; intros rm HL Hwin; [done|].
  cbn [checkOrderRate_run length seq]. rewrite fmap_cons.
  unfold checkOrderRate.
  assert ((order_rate_limit_ rm =? 0)%N = false) as -> by (apply N.eqb_neq; lia).
  rewrite quot_below_one;
    [|done | apply Hwin; apply elem_of_cons; by left].
  destruct (N.leb_spec (order_rate_limit_ rm) (orders_this_second_ rm))
    as [Hfull | Hroom].
  - specialize (IH rm HL).
    destruct (checkOrderRate_run later rm) as [verdicts rm2]. simpl in *.
    f_equal; [symmetry; apply bool_decide_eq_false_2; lia|].
    rewrite IH.
    2:{ intros now' H. apply Hwin. apply elem_of_cons. by right. }
    by rewrite !rate_exhausted.
  - specialize (IH (set_rate_window (N.succ (orders_this_second_ rm))
                      (rate_window_start_ rm) rm)).
    destruct (checkOrderRate_run later _) as [verdicts rm2]. simpl in *.
    f_equal; [symmetry; apply bool_decide_eq_true_2; lia|].
    rewrite IH; [|done|].
    2:{ intros now' H. apply Hwin. apply elem_of_cons. by right. }
    rewrite <- fmap_S_seq, <- list_fmap_compose.
    apply list_fmap_ext. intros i j _. simpl. f_equal.
    apply bool_decide_ext. lia.
Qed.

(** X22.  The order rate window.  With a positive rate limit, of the
    calls of [checkOrderRate] made before the window is a second old the
    i-th passes exactly when the orders counted so far plus i stay below
    the limit; a call made once the window is a second old or more opens
    a new window at that reading, passes, and counts as its first
    order. *)
Theorem X22_order_rate_window (nows : list Timestamp) (rm : RiskManager) :
  (0 < order_rate_limit_ rm)%N ->
  (forall now, now ∈ nows ->
     now - rate_window_start_ rm < ticks_per_second) ->
  fst (checkOrderRate_run nows rm)
  = (fun i => bool_decide (orders_this_second_ rm + N.of_nat i
                           < order_rate_limit_ rm)%N)
      <$> seq 0 (length nows)
  /\ forall now,
       ticks_per_second <= now - rate_window_start_ rm ->
       checkOrderRate now rm = (risk_pass, set_rate_window 1 now rm).
Proof.
  intros HL Hwin. split; [by apply checkOrderRate_run_window|].
  intros now Hold. unfold checkOrderRate.
  assert ((order_rate_limit_ rm =? 0)%N = false) as ->
    by (apply N.eqb_neq; lia).
  rewrite quot_at_least_one by done. simpl.
  by assert ((order_rate_limit_ rm <=? 0)%N = false) as ->
    by (apply N.leb_gt; lia).
Qed.

Lemma X22_witness :
  fst (checkOrderRate_run [10; 20; 30; 40; 50] RateCase.rm0)
  = [true; true; true; false; false]
  /\ checkOrderRate 1000000000 RateCase.rm0
     = (risk_pass, set_rate_window 1 1000000000 RateCase.rm0).
Proof.
  destruct (X22_order_rate_window [10; 20; 30; 40; 50] RateCase.rm0)
    as [H1 H2].
  - vm_compute. reflexivity.
  - intros now Hin. change (rate_window_start_ RateCase.rm0) with 0.
    unfold ticks_per_second.
    repeat (apply elem_of_cons in Hin as [-> | Hin]; [lia|]).
    by apply elem_of_nil in Hin.
  - split; [by rewrite H1|]. apply H2. vm_compute. discriminate.
Defined.

Lemma checkOrderRate_limits now rm :
  let rm1 := snd (checkOrderRate now rm) in
  position_limits_ rm1 = position_limits_ rm
  /\ order_size_limits_ rm1 = order_size_limits_ rm
  /\ notional_limits_ rm1 = notional_limits_ rm
  /\ global_position_limit_ rm1 = global_position_limit_ rm
  /\ global_notional_limit_ rm1 = global_notional_limit_ rm
  /\ positions_ rm1 = positions_ rm
  /\ notional_exposures_ rm1 = notional_exposures_ rm.
Proof.
  unfold checkOrderRate.
  destruct (order_rate_limit_ rm =? 0)%N; [done|].
  destruct (1 <=? _); simpl;
    match goal with |- context [if ?c then _ else _] => destruct c end;
    done.
Qed.

Lemma checkOrderRate_reads rm rm' now :
  order_rate_limit_ rm' = order_rate_limit_ rm ->
  orders_this_second_ rm' = orders_this_second_ rm ->
  rate_window_start_ rm' = rate_window_start_ rm ->
  fst (checkOrderRate now rm') = fst (checkOrderRate now rm).
Proof.
  intros H1 H2 H3. unfold checkOrderRate. rewrite H1, H3.
  destruct (order_rate_limit_ rm =? 0)%N; [done|].
  destruct (1 <=? _); simpl; rewrite ?H1, ?H2;
    by destruct (_ <=? _)%N.
Qed.

(** The verdict of [checkOrder] depends on the rate window, the recorded
    positions and exposures, the global limits, and the three limits of
    the order's own symbol. *)
Lemma checkOrder_reads rm rm' now order :
  order_rate_limit_ rm' = order_rate_limit_ rm ->
  orders_this_second_ rm' = orders_this_second_ rm ->
  rate_window_start_ rm' = rate_window_start_ rm ->
  positions_ rm' = positions_ rm ->
  notional_exposures_ rm' = notional_exposures_ rm ->
  global_position_limit_ rm' = global_position_limit_ rm ->
  global_notional_limit_ rm' = global_notional_limit_ rm ->
  getPositionLimit rm' (symbol order) = getPositionLimit rm (symbol order) ->
  getOrderSizeLimit rm' (symbol order) = getOrderSizeLimit rm (symbol order) ->
  getNotionalLimit rm' (symbol order) = getNotionalLimit rm (symbol order) ->
  fst (checkOrder now rm' order) = fst (checkOrder now rm order).
Proof.
  intros H1 H2 H3 H4 H5 H6 H7 H8 H9 H10.
  pose proof (checkOrderRate_reads rm rm' now H1 H2 H3) as Hrate.
  destruct (checkOrderRate_limits now rm)
    as (A1 & A2 & A3 & A4 & A5 & A6 & A7).
  destruct (checkOrderRate_limits now rm')
    as (B1 & B2 & B3 & B4 & B5 & B6 & B7).
  unfold checkOrder.
  destruct (checkOrderRate now rm) as [rc rm1].
  destruct (checkOrderRate now rm') as [rc' rm1'].
  cbn [fst snd] in *. cbn zeta in *. subst rc'.
  assert (checkOrderSizeLimit rm1' order = checkOrderSizeLimit rm1 order
          /\ checkPositionLimit rm1' order = checkPositionLimit rm1 order
          /\ checkNotionalLimit rm1' order = checkNotionalLimit rm1 order)
    as (-> & -> & ->).
  { unfold getPositionLimit, getOrderSizeLimit, getNotionalLimit in *.
    unfold checkOrderSizeLimit, checkPositionLimit, checkNotionalLimit,
      getPositionLimit, getOrderSizeLimit, getNotionalLimit,
      getPosition, getNotionalExposure.
    rewrite A1, A2, A3, A4, A5, A6, A7, B1, B2, B3, B4, B5, B6, B7.
    by rewrite H4, H5, H6, H7, H8, H9, H10. }
  destruct (negb (passed rc)); [done|].
  destruct (negb (passed (checkOrderSizeLimit rm1 order))); [done|].
  destruct (negb (passed (checkPositionLimit rm1 order))); [done|].
  by destruct (negb (passed (checkNotionalLimit rm1 order))).
Qed.

(** X24.  Limits are kept per symbol.  Setting the position, order size
    or notional limit of one symbol is what the matching getter then
    returns for that symbol, and it changes nothing for an order on
    another symbol: [checkOrder] gives that order the same verdict, with
    the same reason, as before. *)
Theorem X24_limits_per_symbol (now : Timestamp) (rm : RiskManager)
    (sym : Symbol) (limit : Quantity) (notional : Q) (order : Order) :
  symbol order <> sym ->
  (getPositionLimit (setPositionLimit sym limit rm) sym = limit
   /\ fst (checkOrder now (setPositionLimit sym limit rm) order)
      = fst (checkOrder now rm order))
  /\ (getOrderSizeLimit (setOrderSizeLimit sym limit rm) sym = limit
      /\ fst (checkOrder now (setOrderSizeLimit sym limit rm) order)
         = fst (checkOrder now rm order))
  /\ (getNotionalLimit (setNotionalLimit sym notional rm) sym = notional
      /\ fst (checkOrder now (setNotionalLimit sym notional rm) order)
         = fst (checkOrder now rm order)).
Proof.
  intros Hne.
  split; [|split]; (split;
    [unfold getPositionLimit, getOrderSizeLimit, getNotionalLimit; simpl;
     by rewrite lookup_insert_eq
    |apply checkOrder_reads; try done;
     unfold getPositionLimit, getOrderSizeLimit, getNotionalLimit; simpl;
     by rewrite ?lookup_insert_ne by done]).
Qed.

Lemma X24_witness :
  getOrderSizeLimit (setOrderSizeLimit "AAPL" 100 (new_RiskManager 0)) "AAPL"
  = 100
  /\ fst (checkOrder 0 (setOrderSizeLimit "AAPL" 100 (new_RiskManager 0))
            (Scenario.lim 1 "MSFT" Buy 300 200))
     = fst (checkOrder 0 (new_RiskManager 0)
              (Scenario.lim 1 "MSFT" Buy 300 200)).
Proof.
  destruct (X24_limits_per_symbol 0 (new_RiskManager 0) "AAPL" 100 0
              (Scenario.lim 1 "MSFT" Buy 300 200)) as (_ & H & _).
  - discriminate.
  - exact H.
Defined.




